(** * Model generators of scip-unified: covering designs and noise dosage

    A shallow embedding of the Python scripts
      - [problem_instances/covering_designs/generate.py]
      - [problem_instances/noise_dosage/generate.py]
      - [problem_instances/noise_dosage/data_generator.py]
    together with the parts of the Python runtime they rely on (exceptions,
    [str], [int], [float], text files) and a record of the calls made to
    the PySCIPOpt modelling interface.

    Python integers are [Z]; Python floats are IEEE 754 binary64 values,
    carried by the Standard Library's [spec_float]; Python strings are
    [string]s of characters with code points below 256; exceptions are an
    explicit error monad. *)

From Stdlib Require Import ZArith QArith Qabs Qround Qpower Lia Lqa Bool Arith String Ascii List Sorted FinFun.
From Stdlib Require Import Floats.SpecFloat.
From Equations Require Import Equations.
From Equations.Prop Require Import Logic.
Import ListNotations.

Local Open Scope Z_scope.
Set Warnings "-register-all".

(* ===================================================================== *)
(** * Part I. The Python runtime                                          *)
(* ===================================================================== *)

Module Py.

(** What a [ValueError] raised by the builtins used here is about. *)
Inductive value_error : Type :=
| InvalidIntLiteral (s : string)      (* invalid literal for int() with base 10: s *)
| InvalidFloatLiteral (s : string)    (* could not convert string to float: s *)
| NotEnoughValues (expected got : nat)(* not enough values to unpack *)
| TooManyValues (expected : nat)      (* too many values to unpack *)
| EmptySequence                       (* max() arg is an empty sequence *)
| NegativeR.                          (* r must be non-negative *)

(** The exceptions the scripts can raise. An [AssertionError] comes from an
    [assert] without message, so it carries nothing. *)
Inductive exn : Type :=
| IndexError
| KeyError
| ValueError (why : value_error)
| AssertionError
| OverflowError
| ZeroDivisionError
| StatisticsError.

(** A computation returns a value or raises. *)
Inductive result (A : Type) : Type :=
| Ok (a : A)
| Raise (e : exn).
Arguments Ok {A} a.
Arguments Raise {A} e.

Definition bind {A B : Type} (c : result A) (k : A -> result B) : result B :=
  match c with
  | Ok a => k a
  | Raise e => Raise e
  end.

Declare Scope py_scope.
Delimit Scope py_scope with py.
Notation "x <- c ;; k" := (bind c (fun x => k))
  (at level 61, c at next level, right associativity) : py_scope.
Notation "' p <- c ;; k" := (bind c (fun p => k))
  (at level 61, p pattern, c at next level, right associativity) : py_scope.
Notation "c ;; k" := (bind c (fun _ => k))
  (at level 61, right associativity) : py_scope.

Definition is_ok {A : Type} (c : result A) : bool :=
  match c with Ok _ => true | Raise _ => false end.

(** [assert b] *)
Definition assert (b : bool) : result unit :=
  if b then Ok tt else Raise AssertionError.

(** [f(x) for x in l], evaluated left to right, stopping at the first
    exception. *)
Fixpoint mapM {A B : Type} (f : A -> result B) (l : list A) : result (list B) :=
  match l with
  | [] => Ok []
  | x :: xs =>
      bind (f x) (fun y => bind (mapM f xs) (fun ys => Ok (y :: ys)))
  end.

(** [l[i]] for [i >= 0]. *)
Definition index {A : Type} (l : list A) (i : nat) : result A :=
  match nth_error l i with
  | Some x => Ok x
  | None => Raise IndexError
  end.

(** [range(n)] *)
Definition range (n : Z) : list Z :=
  map Z.of_nat (seq 0 (Z.to_nat n)).

(** [enumerate(l)] *)
Definition enumerate {A : Type} (l : list A) : list (nat * A) :=
  combine (seq 0 (length l)) l.

(** [itertools.combinations(l, r)] for [r >= 0]: the [r]-element
    subsequences of [l], in lexicographic order of positions. *)
Fixpoint combinations_nat {A : Type} (r : nat) (l : list A) : list (list A) :=
  match r with
  | O => [[]]
  | S r' =>
      (fix pick (l : list A) : list (list A) :=
         match l with
         | [] => []
         | x :: xs => map (cons x) (combinations_nat r' xs) ++ pick xs
         end) l
  end.

(** [itertools.combinations(l, r)]; a negative [r] is refused. *)
Definition combinations {A : Type} (l : list A) (r : Z) : result (list (list A)) :=
  if r <? 0 then Raise (ValueError NegativeR)
  else Ok (combinations_nat (Z.to_nat r) l).

(** The binomial coefficient [C(n, k)], by Pascal's rule. *)
Fixpoint binomial (n k : nat) : nat :=
  match n, k with
  | _, O => 1
  | O, S _ => 0
  | S n', S k' => binomial n' k' + binomial n' k
  end.

End Py.

(* ===================================================================== *)
(** * Part II. Python strings, [str(int)] and [int(str)]                 *)
(* ===================================================================== *)

Module PyStr.
Import Py.

Local Open Scope string_scope.
Local Open Scope Z_scope.

(** [c.isspace()] for a character below 256: the ASCII blanks, the four
    separators FS, GS, RS and US, NEL and the no-break space. *)
Definition isspace (c : ascii) : bool :=
  let n := nat_of_ascii c in
  ((9 <=? n) && (n <=? 13) || (28 <=? n) && (n <=? 32)
   || (n =? 133) || (n =? 160))%nat.

Definition isdigit (c : ascii) : bool :=
  let n := nat_of_ascii c in ((48 <=? n) && (n <=? 57))%nat.

Definition digit_value (c : ascii) : Z := Z.of_nat (nat_of_ascii c) - 48.

Definition digit_char (d : Z) : ascii := ascii_of_nat (48 + Z.to_nat d).

Definition newline : ascii := ascii_of_nat 10.
Definition carriage_return : ascii := ascii_of_nat 13.

(** [os.linesep] on a POSIX system. *)
Definition os_linesep : string := String newline "".

(** [s.lstrip()], [s.rstrip()] and [s.strip()] *)
Fixpoint lstrip (s : string) : string :=
  match s with
  | String c r => if isspace c then lstrip r else s
  | "" => ""
  end.

Fixpoint rstrip (s : string) : string :=
  match s with
  | String c r =>
      match rstrip r with
      | "" => if isspace c then "" else String c ""
      | r' => String c r'
      end
  | "" => ""
  end.

Definition strip (s : string) : string := rstrip (lstrip s).

(** [s.split()]: the maximal runs of non-blank characters. *)
Fixpoint split (s : string) : list string :=
  match s with
  | "" => []
  | String c r =>
      if isspace c then split r
      else match r with
           | "" => [String c ""]
           | String c' _ =>
               if isspace c' then String c "" :: split r
               else match split r with
                    | tok :: toks => String c tok :: toks
                    | [] => [String c ""]
                    end
           end
  end.

(** [sep.join(l)] *)
Definition join (sep : string) (l : list string) : string := String.concat sep l.

(** Reading a text file translates every line ending to a line feed
    (universal newlines). *)
Fixpoint universal_newlines (s : string) : string :=
  match s with
  | "" => ""
  | String c r =>
      if Ascii.eqb c carriage_return then
        match r with
        | String c' r' =>
            if Ascii.eqb c' newline then String newline (universal_newlines r')
            else String newline (universal_newlines r)
        | "" => String newline ""
        end
      else String c (universal_newlines r)
  end.

(** The lines of a text, each with its line feed (the last may lack one). *)
Fixpoint lines_of (s : string) : list string :=
  match s with
  | "" => []
  | String c r =>
      if Ascii.eqb c newline then String c "" :: lines_of r
      else match lines_of r with
           | l :: ls => String c l :: ls
           | [] => [String c ""]
           end
  end.

(** [list(f)] for a file holding [content], opened for reading in text
    mode. *)
Definition readlines (content : string) : list string :=
  lines_of (universal_newlines content).

(** The decimal digits of [n >= 0], prepended to [acc]; [fuel] bounds the
    number of digits. *)
Fixpoint digits_onto (fuel : nat) (n : Z) (acc : string) : string :=
  match fuel with
  | O => acc
  | S fuel' =>
      let acc' := String (digit_char (n mod 10)) acc in
      if n <? 10 then acc' else digits_onto fuel' (n / 10) acc'
  end.

Definition str_of_nonneg (n : Z) : string :=
  digits_onto (S (Z.to_nat (Z.log2 n))) n "".

(** [str(z)], also what an f-string or [format] writes for an integer. No
    limit is put on the number of digits. *)
Definition str_of_int (z : Z) : string :=
  if z <? 0 then String "-" (str_of_nonneg (- z)) else str_of_nonneg z.

(** Reads a run of digits in which single underscores may separate digits:
    the value (continuing [acc]), the number of digits read on top of [n],
    and what follows the run. [None] when an underscore is misplaced. *)
Fixpoint take_digits (s : string) (acc : Z) (n : nat) (after_digit : bool)
  : option (Z * nat * string) :=
  match s with
  | String c r =>
      if isdigit c then take_digits r (10 * acc + digit_value c) (S n) true
      else if Ascii.eqb c "_" then
        if after_digit then take_digits r acc n false else None
      else if after_digit || (n =? 0)%nat then Some (acc, n, s) else None
  | "" => if after_digit || (n =? 0)%nat then Some (acc, n, "") else None
  end.

(** An unsigned decimal integer literal that fills the whole string. *)
Definition parse_unsigned (s : string) : option Z :=
  match take_digits s 0 0 false with
  | Some (v, S _, "") => Some v
  | _ => None
  end.

(** An optional sign in front of [s]: whether it was a minus, and the
    rest. *)
Definition take_sign (s : string) : bool * string :=
  match s with
  | String c r =>
      if Ascii.eqb c "-" then (true, r)
      else if Ascii.eqb c "+" then (false, r)
      else (false, s)
  | "" => (false, "")
  end.

(** [int(s)] in base 10. *)
Definition int_of_str (s : string) : result Z :=
  let (neg, body) := take_sign (strip s) in
  match parse_unsigned body with
  | Some v => Ok (if neg then - v else v)
  | None => Raise (ValueError (InvalidIntLiteral s))
  end.

(** ** Notions used to state properties of strings *)

Fixpoint all_chars (p : ascii -> bool) (s : string) : bool :=
  match s with
  | String c r => p c && all_chars p r
  | "" => true
  end.

(** A field of a line: not empty, no blank in it. *)
Definition is_token (s : string) : bool :=
  negb (String.eqb s "") && all_chars (fun c => negb (isspace c)) s.

Definition is_line_break (c : ascii) : bool :=
  Ascii.eqb c newline || Ascii.eqb c carriage_return.

(** The number a string of digits reads as, continuing from [acc]. *)
Fixpoint decimal_value (acc : Z) (s : string) : Z :=
  match s with
  | String c r => decimal_value (10 * acc + digit_value c) r
  | "" => acc
  end.

(** What ends a run of digits: the end of the string, or a character that
    is neither a digit nor an underscore. *)
Definition ends_digits (s : string) : bool :=
  match s with
  | String c _ => negb (isdigit c) && negb (Ascii.eqb c "_")
  | EmptyString => true
  end.

(** A text of lines, each ended by a line feed. *)
Fixpoint text_of (ls : list string) : string :=
  match ls with
  | [] => ""
  | l :: rest => l ++ String newline (text_of rest)
  end.

End PyStr.

(* ===================================================================== *)
(** * Part III. Python floats: IEEE 754 binary64                          *)
(* ===================================================================== *)

Module PyFloat.
Import Py PyStr.

Local Open Scope string_scope.
Local Open Scope Z_scope.

(** A Python float is a binary64 value: [S754_finite s m e] stands for
    [(-1)^s * m * 2^e] with [m < 2^53] and [-1074 <= e <= 971], the mantissa
    filling 53 bits unless [e = -1074]. *)
Definition float : Type := spec_float.

Definition canonical (m : positive) (e : Z) : bool :=
  (Zpos m <? 2 ^ 53) && (-1074 <=? e) && (e <=? 971)
  && ((2 ^ 52 <=? Zpos m) || (e =? -1074)).

Definition valid (f : float) : bool :=
  match f with
  | S754_finite _ m e => canonical m e
  | _ => true
  end.

Definition is_finite (f : float) : bool :=
  match f with
  | S754_zero _ | S754_finite _ _ _ => true
  | _ => false
  end.

Definition is_zero (f : float) : bool :=
  match f with S754_zero _ => true | _ => false end.

Definition sign_bit (f : float) : bool :=
  match f with
  | S754_zero s | S754_infinity s | S754_finite s _ _ => s
  | S754_nan => false
  end.

(** The rational a float stands for (0 for infinities and NaN). *)
Definition F2Q (f : float) : Q :=
  match f with
  | S754_finite s m e =>
      (if s then - inject_Z (Zpos m) else inject_Z (Zpos m)) * (2 ^ e)
  | _ => 0
  end%Q.

(** ** Rounding to nearest, ties to even *)

(** The integer nearest to [n / d] ([d > 0]), the even one on a tie. *)
Definition round_ne_div (n d : Z) : Z :=
  let q := n / d in
  let r := n mod d in
  if 2 * r <? d then q
  else if d <? 2 * r then q + 1
  else if Z.even q then q else q + 1.

(** [floor (log2 (n / d))] for positive [n] and [d]. *)
Definition floor_log2_ratio (n d : Z) : Z :=
  let c := Z.log2 n - Z.log2 d in
  if (if 0 <=? c then d * 2 ^ c <=? n else d <=? n * 2 ^ (- c))
  then c else c - 1.

(** The binary64 mantissa and exponent nearest to [n / d] ([n, d > 0]). The
    quotient is first counted in units of [2^-1074], the spacing of the
    smallest floats; the exponent then keeps 53 bits of it. *)
Definition round_pos (n d : Z) : Z * Z :=
  let n' := n * 2 ^ 1074 in
  let k := Z.max (floor_log2_ratio n' d - 52) 0 in
  (round_ne_div n' (d * 2 ^ k), k - 1074).

(** Packs a rounded mantissa: a mantissa that rounded up to [2^53] moves to
    the next exponent, and an exponent above 971 overflows. *)
Definition make_float (s : bool) (m e : Z) : float :=
  if m =? 0 then S754_zero s
  else
    let '(m, e) := if m =? 2 ^ 53 then (2 ^ 52, e + 1) else (m, e) in
    if 971 <? e then S754_infinity s else S754_finite s (Z.to_pos m) e.

(** The float nearest to [(-1)^s * n / d], for [n >= 0] and [d > 0]. *)
Definition round_binary64 (s : bool) (n d : Z) : float :=
  if n =? 0 then S754_zero s
  else let '(m, e) := round_pos n d in make_float s m e.

(** The float nearest to [q]; an exact zero takes the sign [zneg]. *)
Definition float_of_Q (zneg : bool) (q : Q) : float :=
  if Qnum q =? 0 then S754_zero zneg
  else round_binary64 (Qnum q <? 0) (Z.abs (Qnum q)) (Zpos (Qden q)).

(** [float(z)] for an integer [z]: correctly rounded; too large an integer
    is refused. *)
Definition float_of_int (z : Z) : result float :=
  match round_binary64 (z <? 0) (Z.abs z) 1 with
  | S754_infinity _ => Raise OverflowError
  | f => Ok f
  end.

Definition float_zero : float := S754_zero false.            (* 0.0 *)
Definition float_one : float := S754_finite false (2 ^ 52) (-52).  (* 1.0 *)
Definition float_half : float := S754_finite false (2 ^ 52) (-53). (* 0.5 *)
Definition float_two : float := S754_finite false (2 ^ 52) (-51).  (* 2. *)
Definition minus_one : float := S754_finite true (2 ^ 52) (-52).  (* -1. *)
(** [.2], the float nearest to 1/5 *)
Definition float_fifth : float := S754_finite false 7205759403792794 (-55).

(** ** Comparison *)

(** Values on the extended line. *)
Inductive xval : Type := NegInf | Fin (q : Q) | PosInf.

Definition xval_of_float (f : float) : option xval :=
  match f with
  | S754_nan => None
  | S754_infinity s => Some (if s then NegInf else PosInf)
  | _ => Some (Fin (F2Q f))
  end.

Definition xcompare (a b : xval) : comparison :=
  match a, b with
  | NegInf, NegInf => Eq
  | NegInf, _ => Lt
  | _, NegInf => Gt
  | PosInf, PosInf => Eq
  | PosInf, _ => Gt
  | _, PosInf => Lt
  | Fin p, Fin q => (p ?= q)%Q
  end.

(** A Python number: an [int] or a [float]. *)
Inductive num : Type :=
| Int (z : Z)
| Float (f : float).

Definition xval_of_num (a : num) : option xval :=
  match a with
  | Int z => Some (Fin (inject_Z z))
  | Float f => xval_of_float f
  end.

(** Numbers compare by their exact values, also an int with a float;
    every comparison with a NaN is false. *)
Definition num_compare (a b : num) : option comparison :=
  match xval_of_num a, xval_of_num b with
  | Some x, Some y => Some (xcompare x y)
  | _, _ => None
  end.

Definition num_ltb (a b : num) : bool :=
  match num_compare a b with Some Lt => true | _ => false end.

Definition num_gtb (a b : num) : bool := num_ltb b a.

Definition num_leb (a b : num) : bool :=
  match num_compare a b with Some Lt | Some Eq => true | _ => false end.

Definition float_ltb (x y : float) : bool := num_ltb (Float x) (Float y).
Definition float_gtb (x y : float) : bool := num_ltb (Float y) (Float x).

(** [min(a, b)]: [b] when [b < a], else [a]. *)
Definition py_min2 (a b : num) : num := if num_ltb b a then b else a.

(** [max(l)]: the first of the largest items. *)
Definition py_max (l : list num) : result num :=
  match l with
  | [] => Raise (ValueError EmptySequence)
  | x :: xs => Ok (fold_left (fun best y => if num_gtb y best then y else best) xs x)
  end.

(** ** Arithmetic: the exact result, rounded *)

Definition fopp (x : float) : float :=
  match x with
  | S754_zero s => S754_zero (negb s)
  | S754_infinity s => S754_infinity (negb s)
  | S754_finite s m e => S754_finite (negb s) m e
  | S754_nan => S754_nan
  end.

Definition fadd (x y : float) : float :=
  match x, y with
  | S754_nan, _ | _, S754_nan => S754_nan
  | S754_infinity sx, S754_infinity sy => if Bool.eqb sx sy then x else S754_nan
  | S754_infinity _, _ => x
  | _, S754_infinity _ => y
  | S754_zero sx, S754_zero sy => S754_zero (sx && sy)
  | _, _ => float_of_Q false (F2Q x + F2Q y)
  end.

Definition fsub (x y : float) : float := fadd x (fopp y).

Definition fmul (x y : float) : float :=
  let s := xorb (sign_bit x) (sign_bit y) in
  match x, y with
  | S754_nan, _ | _, S754_nan => S754_nan
  | S754_infinity _, S754_zero _ | S754_zero _, S754_infinity _ => S754_nan
  | S754_infinity _, _ | _, S754_infinity _ => S754_infinity s
  | _, _ => float_of_Q s (F2Q x * F2Q y)
  end.

(** IEEE division; Python's [/] refuses a zero divisor before it gets
    here. *)
Definition fdiv (x y : float) : float :=
  let s := xorb (sign_bit x) (sign_bit y) in
  match x, y with
  | S754_nan, _ | _, S754_nan => S754_nan
  | S754_infinity _, S754_infinity _ => S754_nan
  | S754_infinity _, _ => S754_infinity s
  | _, S754_infinity _ => S754_zero s
  | S754_zero _, S754_zero _ => S754_nan
  | _, S754_zero _ => S754_infinity s
  | _, _ => float_of_Q s (F2Q x / F2Q y)
  end.

(** C's [floor]. *)
Definition ffloor (x : float) : float :=
  match x with
  | S754_finite s _ _ => float_of_Q s (inject_Z (Qfloor (F2Q x)))
  | _ => x
  end.

(** C's [fmod]: [x - n * y] for the integer [n] that is [x / y] rounded
    toward zero; exact, with the sign of [x]. *)
Definition fmod (x y : float) : float :=
  match x, y with
  | S754_nan, _ | _, S754_nan => S754_nan
  | S754_infinity _, _ => S754_nan
  | _, S754_zero _ => S754_nan
  | _, S754_infinity _ => x
  | S754_zero _, _ => x
  | _, _ =>
      let ax := Qabs (F2Q x) in
      let ay := Qabs (F2Q y) in
      let r := (ax - inject_Z (Qfloor (ax / ay)) * ay)%Q in
      float_of_Q (sign_bit x) (if sign_bit x then - r else r)%Q
  end.

(** C's [copysign(0.0, x)]. *)
Definition zero_with_sign_of (x : float) : float := S754_zero (sign_bit x).

(** [x / y] on floats. *)
Definition float_truediv (x y : float) : result float :=
  if is_zero y then Raise ZeroDivisionError else Ok (fdiv x y).

(** [x // y] on floats, as CPython computes it: from [fmod], the quotient
    of what is left, and a snap to the nearest integer. *)
Definition float_floordiv (vx wx : float) : result float :=
  if is_zero wx then Raise ZeroDivisionError
  else
    let md := fmod vx wx in
    let div := fdiv (fsub vx md) wx in
    let div :=
      if negb (is_zero md)
      then if xorb (float_ltb wx float_zero) (float_ltb md float_zero)
           then fsub div float_one else div
      else div in
    Ok (if negb (is_zero div)
        then let fl := ffloor div in
             if float_gtb (fsub div fl) float_half then fadd fl float_one else fl
        else zero_with_sign_of (fdiv vx wx)).

(** [z // y] for an int [z] and a float [y]: the int is converted first. *)
Definition int_floordiv_float (z : Z) (y : float) : result float :=
  bind (float_of_int z) (fun x => float_floordiv x y).

(** [z / y] and [x / z] with one int operand. *)
Definition int_truediv_float (z : Z) (y : float) : result float :=
  bind (float_of_int z) (fun x => float_truediv x y).

Definition float_truediv_int (x : float) (z : Z) : result float :=
  bind (float_of_int z) (fun y => float_truediv x y).

(** [a + z] for a number [a] and an int [z]. *)
Definition num_add_int (a : num) (z : Z) : result num :=
  match a with
  | Int y => Ok (Int (y + z))
  | Float x => bind (float_of_int z) (fun y => Ok (Float (fadd x y)))
  end.

(** [x ** i] for a float [x] and an int [i >= 0], with C's [pow] taken as
    correctly rounded; a finite power that overflows is refused. *)
Definition float_pow_int (x : float) (i : Z) : result float :=
  if i =? 0 then Ok float_one
  else
    match x with
    | S754_nan => Ok S754_nan
    | S754_infinity s => Ok (S754_infinity (s && Z.odd i))
    | S754_zero s => Ok (S754_zero (s && Z.odd i))
    | S754_finite s _ _ =>
        match float_of_Q false (F2Q x ^ i) with
        | S754_infinity _ => Raise OverflowError
        | f => Ok f
        end
    end.

(** [a ** i] for a number [a] and an int [i >= 0]. *)
Definition num_pow_int (a : num) (i : Z) : result num :=
  match a with
  | Int z => Ok (Int (z ^ i))
  | Float x => bind (float_pow_int x i) (fun y => Ok (Float y))
  end.

(** ** Floats as text: ["{:e}".format(x)] and [float(s)] *)

(** [floor (log10 (n / d))] for positive [n] and [d]: counted up from 0
    when [n >= d], down from -1 otherwise. *)
Fixpoint ilog10_up (fuel : nat) (n d : Z) : Z :=
  match fuel with
  | O => 0
  | S fuel' => if 10 * d <=? n then 1 + ilog10_up fuel' n (10 * d) else 0
  end.

Fixpoint ilog10_down (fuel : nat) (n d : Z) : Z :=
  match fuel with
  | O => -1
  | S fuel' => if d <=? 10 * n then -1 else -1 + ilog10_down fuel' (10 * n) d
  end.

Definition ilog10 (n d : Z) : Z :=
  let fuel := S (Z.to_nat (Z.log2 (Z.max n d))) in
  if d <=? n then ilog10_up fuel n d else ilog10_down fuel n d.

(** [n / d > 0] to seven significant digits: the digits [10^6 <= D < 10^7]
    and the decimal exponent [E] with [D * 10^(E - 6)] nearest to [n / d]. *)
Definition decimal_round (n d : Z) : Z * Z :=
  let E := ilog10 n d in
  let D := if E <=? 6 then round_ne_div (n * 10 ^ (6 - E)) d
           else round_ne_div n (d * 10 ^ (E - 6)) in
  if D =? 10 ^ 7 then (10 ^ 6, E + 1) else (D, E).

(** The mantissa digits with a point after the first. *)
Definition mantissa_str (D : Z) : string :=
  match str_of_nonneg D with
  | String c r => String c (String "." r)
  | "" => ""
  end.

(** The exponent: a sign and at least two digits. *)
Definition exponent_str (E : Z) : string :=
  String (if (E <? 0)%Z then "-"%char else "+"%char)
    (if Z.abs E <? 10 then String "0" (str_of_nonneg (Z.abs E))
     else str_of_nonneg (Z.abs E)).

Definition sign_str (s : bool) : string := if s then "-" else "".

(** ["{:e}".format(x)] *)
Definition format_e (x : float) : string :=
  match x with
  | S754_nan => "nan"
  | S754_infinity s => sign_str s ++ "inf"
  | S754_zero s => sign_str s ++ "0.000000e+00"
  | S754_finite s m e =>
      let '(n, d) := if 0 <=? e then (Zpos m * 2 ^ e, 1) else (Zpos m, 2 ^ (- e)) in
      let '(D, E) := decimal_round n d in
      sign_str s ++ mantissa_str D ++ String "e" (exponent_str E)
  end.

Definition lower (c : ascii) : ascii :=
  let n := nat_of_ascii c in
  if ((65 <=? n) && (n <=? 90))%nat then ascii_of_nat (n + 32) else c.

Fixpoint lowercase (s : string) : string :=
  match s with
  | String c r => String (lower c) (lowercase r)
  | "" => ""
  end.

(** A decimal literal [digits [. digits] [e [sign] digits]] filling the
    whole string, as a pair [(N, X)] standing for [N * 10^X]. *)
Definition parse_decimal (s : string) : option (Z * Z) :=
  match take_digits s 0 0 false with
  | None => None
  | Some (ip, ni, rest) =>
      let fraction :=
        match rest with
        | String c r =>
            if Ascii.eqb c "." then take_digits r ip 0 false
            else Some (ip, O, rest)
        | "" => Some (ip, O, rest)
        end in
      match fraction with
      | None => None
      | Some (mant, nf, rest') =>
          if (ni + nf =? 0)%nat then None
          else
            match rest' with
            | "" => Some (mant, - Z.of_nat nf)
            | String c r =>
                if Ascii.eqb (lower c) "e" then
                  let (eneg, ebody) := take_sign r in
                  match parse_unsigned ebody with
                  | Some x => Some (mant, (if eneg then - x else x) - Z.of_nat nf)
                  | None => None
                  end
                else None
            end
      end
  end.

(** [float(s)]: blanks around are dropped; ["inf"], ["infinity"] and
    ["nan"] are read in any case; a decimal literal is rounded to the
    nearest float. *)
Definition float_of_str (s : string) : result float :=
  let (neg, body) := take_sign (strip s) in
  let name := lowercase body in
  if String.eqb name "inf" || String.eqb name "infinity" then Ok (S754_infinity neg)
  else if String.eqb name "nan" then Ok S754_nan
  else
    match parse_decimal body with
    | Some (N, X) =>
        Ok (if 0 <=? X then round_binary64 neg (N * 10 ^ X) 1
            else round_binary64 neg N (10 ^ (- X)))
    | None => Raise (ValueError (InvalidFloatLiteral s))
    end.

(** ** Notions used to state properties of floats *)

(** A float counted in units of [2^-1074], the spacing of the smallest
    floats: an integer for every valid float. *)
Definition ulps (f : float) : Z :=
  match f with
  | S754_finite s m e => (if s then -1 else 1) * (Zpos m * 2 ^ (e + 1074))
  | _ => 0
  end.

(** The magnitudes binary64 can hold, in those units: 53 bits, shifted. *)
Definition representable (u : Z) : Prop :=
  exists m j, 0 <= m < 2 ^ 53 /\ 0 <= j /\ u = m * 2 ^ j.

(** [2^1074] *)
Definition ulp_scale : positive := Z.to_pos (2 ^ 1074).

(** The value [round_binary64] is asked to round. *)
Definition signed_ratio (s : bool) (n d : Z) : Q :=
  if s then (- n # Z.to_pos d) else (n # Z.to_pos d).

(** The largest finite float, and the least value that rounds to infinity. *)
Definition max_float_value : Z := (2 ^ 53 - 1) * 2 ^ 971.
Definition overflow_threshold : Z := 2 ^ 1024 - 2 ^ 970.

(** The magnitude of a finite float as a fraction, as [format_e] takes it. *)
Definition magnitude_fraction (m : positive) (e : Z) : Z * Z :=
  if 0 <=? e then (Zpos m * 2 ^ e, 1) else (Zpos m, 2 ^ (- e)).

(** The digits before a carry, and the exponent they go with. *)
Definition raw_digits (n d : Z) : Z :=
  let E := ilog10 n d in
  if E <=? 6 then round_ne_div (n * 10 ^ (6 - E)) d
  else round_ne_div n (d * 10 ^ (E - 6)).

(** The decimal a float is written as, as the fraction [float(s)] rounds. *)
Definition written_fraction (D E : Z) : Z * Z :=
  if 0 <=? E - 6 then (D * 10 ^ (E - 6), 1) else (D, 10 ^ (6 - E)).

(** The power of ten [10^(E0 - 6)] as a fraction. *)
Definition pow10_fraction (E0 : Z) : Z * Z :=
  if E0 <=? 6 then (1, 10 ^ (6 - E0)) else (10 ^ (E0 - 6), 1).

(** The float read back from the seven digits written for [x]. *)
Definition read_back (s : bool) (m : positive) (e : Z) : float :=
  let '(n, d) := magnitude_fraction m e in
  let '(D, E) := decimal_round n d in
  let '(n', d') := written_fraction D E in
  round_binary64 s n' d'.

(** [y] reproduces [x]: the same special value or zero, or a finite value
    with a relative error below [10^-6]. *)
Definition float_close (x y : float) : Prop :=
  match x with
  | S754_finite _ _ _ =>
      is_finite y = true /\
      (Qabs (F2Q y - F2Q x) < (1 # 1000000) * Qabs (F2Q x))%Q
  | _ => y = x
  end.

(** ** Floats and decimals on one scale *)

(** Every float is a multiple of [2^-1074]; counted in that unit, it is
    an integer. *)
Definition float_unit : Z := 2 ^ 1074.

(** The unit [2^-1074 * 10^-331] divides every float and every decimal of
    seven digits that a float is written as: one [2^-1074] is
    [decimal_unit] of them. In this unit: the step [10^(E - 6)] between the
    decimals of exponent [E], and a float of [a] units of [2^-1074]. *)
Definition decimal_unit : Z := 10 ^ 331.

Definition decimal_step (E : Z) : Z := 10 ^ (E + 325) * float_unit.

Definition on_decimal_scale (a : Z) : Z := a * decimal_unit.

(** ** Numbers that count exactly *)





End PyFloat.


(* ===================================================================== *)
(** * Part IV. The PySCIPOpt modelling interface                          *)
(* ===================================================================== *)

(** The solver library is outside the repository. A model is the record of
    what the scripts hand it: variables, constraints and the objective, in
    the order of the calls. *)
Module Scip.
Import Py PyFloat.

Inductive vtype : Type :=
| IntegerVar       (* vtype="I" *)
| ContinuousVar    (* vtype="C" *)
| BinaryVar.       (* vtype="B" *)

(** A variable, as [addVar] returns it; [var_id] is its position among the
    model's variables. A bound [None] is the infinite default. *)
Record variable : Type := mkVariable {
  var_id : nat;
  var_name : string;
  var_vtype : vtype;
  var_lb : option float;
  var_ub : option float
}.

(** Expressions are kept as the scripts write them. *)
Inductive expr : Type :=
| Const (c : num)
| Var (x : variable)
| Scale (c : num) (e : expr)         (* c * e *)
| Quicksum (terms : list expr).      (* quicksum(terms) *)

Inductive relation : Type := GE | LE | EQ.

Record Constraint : Type := mkConstraint {
  cons_name : option string;
  cons_lhs : expr;
  cons_rel : relation;
  cons_rhs : expr
}.

Inductive objsense : Type := Minimize | Maximize.

Record Model : Type := mkModel {
  problemName : string;
  vars : list variable;
  conss : list Constraint;
  objective : option (expr * objsense)
}.

(** [Model(problemName=name)] *)
Definition new_model (name : string) : Model :=
  mkModel name [] [] None.

(** [model.addVar(name=, vtype=, lb=, ub=)] *)
Definition addVar (model : Model) (name : string) (vt : vtype)
    (lb ub : option float) : Model * variable :=
  let x := mkVariable (length (vars model)) name vt lb ub in
  (mkModel (problemName model) (vars model ++ [x]) (conss model) (objective model), x).

(** [model.addCons(cons, name=)] *)
Definition addCons (model : Model) (c : Constraint) : Model :=
  mkModel (problemName model) (vars model) (conss model ++ [c]) (objective model).

(** [model.setObjective(e, sense=)] *)
Definition setObjective (model : Model) (e : expr) (s : objsense) : Model :=
  mkModel (problemName model) (vars model) (conss model) (Some (e, s)).

End Scip.

(* ===================================================================== *)
(** * Part V. covering_designs/generate.py                                *)
(* ===================================================================== *)

Module CoveringDesigns.
Import Py PyStr PyFloat Scip.

Local Open Scope string_scope.
Local Open Scope Z_scope.

(** The loop [while superset[i] < a: i += 1]: the index it stops at, or the
    [IndexError] of reading past the end. *)
Equations? scan_while (superset : list Z) (a : Z) (i : nat) : result nat
  by wf (length superset - i)%nat lt :=
  scan_while superset a i with inspect (nth_error superset i) := {
    | exist _ (Some s) _ with (s <? a) := {
        | true := scan_while superset a (S i)
        | false := Ok i };
    | exist _ None _ := Raise IndexError }.
Proof.
  assert (i < length superset)%nat by (apply nth_error_Some; congruence).
  lia.
Qed.

(** The body of the [try] block, with [i] as the loop left it. *)
Fixpoint subset_loop (subset superset : list Z) (i : nat) : result bool :=
  match subset with
  | [] => Ok true                                       (* return True *)
  | a :: rest =>
      bind (scan_while superset a i) (fun i' =>
      bind (index superset i') (fun s =>
      if s =? a then subset_loop rest superset i'       (* continue *)
      else Ok false))                                   (* return False *)
  end.

(** [is_sorted_subset(subset, superset)]: an [IndexError] of the body is
    caught and answered with [False]; any other exception passes. *)
Definition is_sorted_subset (subset superset : list Z) : result bool :=
  match subset_loop subset superset 0 with
  | Raise IndexError => Ok false
  | r => r
  end.

(** [','.join(map(str, entries))] *)
Definition entries_str (entries : list Z) : string :=
  join "," (map str_of_int entries).

(** [x[j]] in the dictionary of variables. *)
Fixpoint lookup (x : list (nat * variable)) (j : nat) : result variable :=
  match x with
  | [] => Raise KeyError
  | (j', v) :: x' => if (j' =? j)%nat then Ok v else lookup x' j
  end.

(** The dictionary comprehension that creates one variable per block. *)
Fixpoint add_block_vars (lamb : Z) (model : Model) (x : list (nat * variable))
    (blocks : list (nat * list Z)) : result (Model * list (nat * variable)) :=
  match blocks with
  | [] => Ok (model, x)
  | (j, entries_k) :: rest =>
      let name := "x[" ++ str_of_int (Z.of_nat j) ++ ":" ++ entries_str entries_k ++ "]" in
      bind (float_of_int lamb) (fun ub =>
      let (model', xj) := addVar model name IntegerVar (Some float_zero) (Some ub) in
      add_block_vars lamb model' (x ++ [(j, xj)]) rest)
  end.

(** The generator [x[j] for j, entries_k in enumerate(set_k)
    if is_sorted_subset(entries_t, entries_k)]. *)
Fixpoint covering_terms (x : list (nat * variable)) (entries_t : list Z)
    (blocks : list (nat * list Z)) : result (list expr) :=
  match blocks with
  | [] => Ok []
  | (j, entries_k) :: rest =>
      bind (is_sorted_subset entries_t entries_k) (fun inside =>
      if inside then
        bind (lookup x j) (fun xj =>
        bind (covering_terms x entries_t rest) (fun terms => Ok (Var xj :: terms)))
      else covering_terms x entries_t rest)
  end.

(** The loop that adds one covering constraint per [t]-subset. *)
Fixpoint add_covering_conss (lamb : Z) (x : list (nat * variable))
    (set_k : list (list Z)) (model : Model) (targets : list (nat * list Z))
  : result Model :=
  match targets with
  | [] => Ok model
  | (i, entries_t) :: rest =>
      let name := "cov[" ++ str_of_int (Z.of_nat i) ++ ":" ++ entries_str entries_t ++ "]" in
      bind (covering_terms x entries_t (enumerate set_k)) (fun terms =>
      let c := mkConstraint (Some name) (Quicksum terms) GE (Const (Int lamb)) in
      add_covering_conss lamb x set_k (addCons model c) rest)
  end.

Definition problem_name (lamb v k t : Z) : string :=
  "cov_" ++ str_of_int lamb ++ "(" ++ str_of_int v ++ "," ++ str_of_int k
  ++ "," ++ str_of_int t ++ ")".

(** [generate_covering_design(lamb, v, k, t)] *)
Definition generate_covering_design (lamb v k t : Z) : result Model :=
  let model := new_model (problem_name lamb v k t) in
  bind (combinations (range v) k) (fun set_k =>
  bind (combinations (range v) t) (fun set_t =>
  bind (add_block_vars lamb model [] (enumerate set_k)) (fun '(model, x) =>
  bind (add_covering_conss lamb x set_k model (enumerate set_t)) (fun model =>
  Ok (setObjective model (Quicksum (map (fun jx => Var (snd jx)) x)) Minimize))))).

(** ** The batch driver *)

(** [range(a, b)] *)
Definition range2 (a b : Z) : list Z := map (fun i => a + i) (range (b - a)).

Definition lambs : list Z := range2 2 4.
Definition vs : list Z := range2 1 13.
Definition ks : list Z := vs.
Definition ts : list Z := vs.

(** [itertools.product(ls, vs, ks, ts)] *)
Definition product4 (ls vs ks ts : list Z) : list (Z * Z * Z * Z) :=
  flat_map (fun l => flat_map (fun v => flat_map (fun k =>
    map (fun t => (l, v, k, t)) ts) ks) vs) ls.

(** The driver's view of the world: the files of [instances/], and the
    calls of [generate_covering_design] made so far. *)
Record world : Type := mkWorld {
  files : list (string * option Model);   (* name, and the model written *)
  calls : list (Z * Z * Z * Z)
}.

Definition file_name (lamb v k t : Z) : string :=
  problem_name lamb v k t ++ ".cip".

(** [writepath.exists()] *)
Definition exists_file (w : world) (name : string) : bool :=
  existsb (fun f => String.eqb (fst f) name) (files w).

(** One turn of the [for] loop. *)
Definition driver_step (w : world) (p : Z * Z * Z * Z) : result world :=
  let '(lamb, v, k, t) := p in
  let writepath := file_name lamb v k t in
  if exists_file w writepath then Ok w          (* already generated *)
  else if v <=? k then Ok w
  else if k <=? t then Ok w
  else
    let w := mkWorld (files w) (calls w ++ [p]) in
    bind (generate_covering_design lamb v k t) (fun model =>
    Ok (mkWorld (files w ++ [(writepath, Some model)]) (calls w))).

Fixpoint driver_loop (w : world) (ps : list (Z * Z * Z * Z)) : result world :=
  match ps with
  | [] => Ok w
  | p :: rest => bind (driver_step w p) (fun w' => driver_loop w' rest)
  end.

(** The script run as [__main__], in a directory holding [existing]. *)
Definition main (existing : list string) : result world :=
  driver_loop (mkWorld (map (fun n => (n, None)) existing) [])
              (product4 lambs vs ks ts).

(** A sequence sorted ascending, repeats allowed. *)
Definition ascending (l : list Z) : Prop :=
  forall i j x y, (i <= j)%nat ->
    nth_error l i = Some x -> nth_error l j = Some y -> x <= y.

(** ** The covering-design model, as a set of blocks *)

(** Every value of [entries_t] occurs in [entries_k]. *)
Definition contains (entries_k entries_t : list Z) : bool :=
  forallb (fun a => existsb (Z.eqb a) entries_k) entries_t.

(** The variable of block number [j]: an integer between 0 and [ub]. *)
Definition block_var (ub : float) (jb : nat * list Z) : variable :=
  mkVariable (fst jb)
    ("x[" ++ str_of_int (Z.of_nat (fst jb)) ++ ":" ++ entries_str (snd jb) ++ "]")
    IntegerVar (Some float_zero) (Some ub).

(** The constraint of the [i]-th set to cover: the blocks that contain it
    are chosen at least [lamb] times. *)
Definition covering_cons (lamb : Z) (ub : float) (blocks : list (nat * list Z))
    (it : nat * list Z) : Constraint :=
  mkConstraint
    (Some ("cov[" ++ str_of_int (Z.of_nat (fst it)) ++ ":" ++ entries_str (snd it) ++ "]"))
    (Quicksum (map (fun jb => Var (block_var ub jb))
                   (filter (fun jb => contains (snd jb) (snd it)) blocks)))
    GE (Const (Int lamb)).

(** The integer program of a covering design on [v] points: a variable
    per block of [k] points, a constraint per set of [t] points, and the
    number of blocks chosen to minimize. *)
Definition covering_model (lamb : Z) (ub : float) (v k t : Z) : Model :=
  let blocks := enumerate (combinations_nat (Z.to_nat k) (range v)) in
  let targets := enumerate (combinations_nat (Z.to_nat t) (range v)) in
  mkModel (problem_name lamb v k t)
    (map (block_var ub) blocks)
    (map (covering_cons lamb ub blocks) targets)
    (Some (Quicksum (map (fun jb => Var (block_var ub jb)) blocks), Minimize)).

(** ** What the batch driver is to do *)

(** A tuple the driver has to generate: its file is not among the
    [existing] ones, and [v > k > t]. *)
Definition wanted (existing : list string) (p : Z * Z * Z * Z) : bool :=
  let '(lamb, v, k, t) := p in
  negb (existsb (String.eqb (file_name lamb v k t)) existing)
  && (k <? v) && (t <? k).

(** The file written for a tuple: its name, and the model generated. *)
Definition written_for (p : Z * Z * Z * Z) (f : string * option Model) : Prop :=
  let '(lamb, v, k, t) := p in
  fst f = file_name lamb v k t /\
  exists model, generate_covering_design lamb v k t = Ok model /\ snd f = Some model.

End CoveringDesigns.

(* ===================================================================== *)
(** * Part VI. noise_dosage/generate.py                                   *)
(* ===================================================================== *)

Module NoiseDosageModel.
Import Py PyStr PyFloat Scip.

Local Open Scope string_scope.
Local Open Scope Z_scope.
Local Open Scope py_scope.

(** An instance, with the types the class annotates its fields with. *)
Record NoiseDosage : Type := mkNoiseDosage {
  name : string;
  m : Z;                  (* number of machines *)
  n : Z;                  (* number of workers *)
  alpha : list float;     (* noise dosage units per machine *)
  d : list Z;             (* number of work cycles per machine *)
  t : list float;         (* hours of operation per work cycle *)
  total_hours : Z         (* hours each worker can work *)
}.

(** [len(l) == m] *)
Definition len_is {A : Type} (l : list A) (m : Z) : bool :=
  Z.of_nat (length l) =? m.

(** [NoiseDosage.__init__]. The [isinstance] assertions hold by the types
    of the arguments; the three assertions on lengths remain. The last
    line of the constructor, [isinstance(total_hours, int)], is evaluated
    and dropped: it asserts nothing. *)
Definition NoiseDosage_init (name : string) (m n : Z) (alpha : list float)
    (d : list Z) (t : list float) (total_hours : Z) : result NoiseDosage :=
  assert true ;;                    (* isinstance(name, str) *)
  assert true ;;                    (* isinstance(m, int) *)
  assert true ;;                    (* isinstance(n, int) *)
  assert (len_is alpha m) ;;
  assert (forallb (fun _ => true) alpha) ;;
  assert (len_is d m) ;;
  assert (forallb (fun _ => true) d) ;;
  assert (len_is t m) ;;
  assert (forallb (fun _ => true) t) ;;
  Ok (mkNoiseDosage name m n alpha d t total_hours).

(** [fh.write(s)] on a text stream whose content so far is [fh]. *)
Definition fh_write (fh s : string) : string := fh ++ s.

(** [NoiseDosage.write(self, fh)]: the content of the stream afterwards. *)
Definition write (self : NoiseDosage) (fh : string) : string :=
  let fh := fh_write fh (str_of_int (m self) ++ " " ++ str_of_int (n self) ++ os_linesep) in
  let fh := fh_write fh (join " " (map format_e (alpha self)) ++ os_linesep) in
  let fh := fh_write fh (join " " (map str_of_int (d self)) ++ os_linesep) in
  let fh := fh_write fh (join " " (map format_e (t self)) ++ os_linesep) in
  fh_write fh (str_of_int (total_hours self) ++ os_linesep).

(** [a, b = map(f, toks)]: the items are converted as the unpacking asks
    for them, one more than wanted to see that none is left. *)
Definition unpack2 {A : Type} (f : string -> result A) (toks : list string)
  : result (A * A) :=
  match toks with
  | [] => Raise (ValueError (NotEnoughValues 2 0))
  | [a] => _ <- f a ;; Raise (ValueError (NotEnoughValues 2 1))
  | a :: b :: rest =>
      a' <- f a ;;
      b' <- f b ;;
      match rest with
      | [] => Ok (a', b')
      | c :: _ => _ <- f c ;; Raise (ValueError (TooManyValues 2))
      end
  end.

(** [read_noise_dosage(path)], for a path whose stem is [stem] and whose
    file holds [content]. *)
Definition read_noise_dosage (stem content : string) : result NoiseDosage :=
  let lines := readlines content in
  line0 <- index lines 0 ;;
  '(m, n) <- unpack2 int_of_str (split (strip line0)) ;;
  line1 <- index lines 1 ;;
  alpha <- mapM float_of_str (split (strip line1)) ;;
  line2 <- index lines 2 ;;
  d <- mapM int_of_str (split (strip line2)) ;;
  line3 <- index lines 3 ;;
  t <- mapM float_of_str (split (strip line3)) ;;
  line4 <- index lines 4 ;;
  total_hours <- int_of_str (strip line4) ;;
  NoiseDosage_init stem m n alpha d t total_hours.

(** [l[i]] for an int index [i >= 0]. *)
Definition at_index {A : Type} (l : list A) (i : Z) : result A :=
  index l (Z.to_nat i).

(** [x[i, j]] in the dictionary of variables. *)
Fixpoint lookup (x : list (Z * Z * variable)) (i j : Z) : result variable :=
  match x with
  | [] => Raise KeyError
  | (i', j', v) :: x' => if (i' =? i) && (j' =? j) then Ok v else lookup x' i j
  end.

(** The dictionary comprehension creating [x[i, j]], as a loop over the
    pairs [(i, j)]. *)
Fixpoint add_cycle_vars (model : Model) (x : list (Z * Z * variable))
    (pairs : list (Z * Z)) : Model * list (Z * Z * variable) :=
  match pairs with
  | [] => (model, x)
  | (i, j) :: rest =>
      let name := "x[" ++ str_of_int i ++ "," ++ str_of_int j ++ "]" in
      let (model', xij) := addVar model name IntegerVar (Some float_zero) None in
      add_cycle_vars model' (x ++ [(i, j, xij)]) rest
  end.

(** [for i in range(m) for j in range(n)] *)
Definition machine_worker_pairs (m n : Z) : list (Z * Z) :=
  flat_map (fun i => map (fun j => (i, j)) (range n)) (range m).

(** [quicksum(coef[i] * x[i, j] for i in range(m))] *)
Definition weighted_column (x : list (Z * Z * variable))
    (coef : Z -> result num) (m j : Z) : result expr :=
  terms <- mapM (fun i => c <- coef i ;; xij <- lookup x i j ;;
                          Ok (Scale c (Var xij))) (range m) ;;
  Ok (Quicksum terms).

(** [quicksum(x[i, j] for j in range(n))] *)
Definition row_sum (x : list (Z * Z * variable)) (n i : Z) : result expr :=
  terms <- mapM (fun j => xij <- lookup x i j ;; Ok (Var xij)) (range n) ;;
  Ok (Quicksum terms).

(** A [for] loop adding one constraint per index. *)
Fixpoint add_conss (model : Model) (mk : Z -> result Constraint) (l : list Z)
  : result Model :=
  match l with
  | [] => Ok model
  | i :: rest => c <- mk i ;; add_conss (addCons model c) mk rest
  end.

(** [u = {i: min(inst.total_hours // inst.t[i], inst.d[i]) for i in
    range(inst.m)}]: how many cycles one worker can do on each machine. *)
Definition cycle_bounds (inst : NoiseDosage) : result (list (Z * num)) :=
  mapM (fun i =>
          ti <- at_index (t inst) i ;;
          q <- int_floordiv_float (total_hours inst) ti ;;
          di <- at_index (d inst) i ;;
          Ok (i, py_min2 (Float q) (Int di)))
       (range (m inst)).

(** [M = max(u.values()) + 1] *)
Definition weighting_base (u : list (Z * num)) : result num :=
  top <- py_max (map snd u) ;;
  num_add_int top 1.

(** [generate_noise_dosage(inst, with_sherali_smith_symhandling)] *)
Definition generate_noise_dosage (inst : NoiseDosage)
    (with_sherali_smith_symhandling : bool) : result Model :=
  let model := new_model (name inst) in
  let (model, x) := add_cycle_vars model [] (machine_worker_pairs (m inst) (n inst)) in
  let (model, z) := addVar model "z" ContinuousVar (Some float_zero) None in
  model <- add_conss model (fun j =>
      rhs <- weighted_column x (fun i => a <- at_index (alpha inst) i ;; Ok (Float a))
                             (m inst) j ;;
      Ok (mkConstraint None (Var z) GE rhs)) (range (n inst)) ;;
  model <- add_conss model (fun i =>
      lhs <- row_sum x (n inst) i ;;
      di <- at_index (d inst) i ;;
      Ok (mkConstraint None lhs EQ (Const (Int di)))) (range (m inst)) ;;
  model <- add_conss model (fun j =>
      lhs <- weighted_column x (fun i => ti <- at_index (t inst) i ;; Ok (Float ti))
                             (m inst) j ;;
      Ok (mkConstraint None lhs LE (Const (Int (total_hours inst))))) (range (n inst)) ;;
  model <-
    (if with_sherali_smith_symhandling then
       u <- cycle_bounds inst ;;
       M <- weighting_base u ;;
       add_conss model (fun j =>
           lhs <- weighted_column x (num_pow_int M) (m inst) j ;;
           rhs <- weighted_column x (num_pow_int M) (m inst) (j + 1) ;;
           Ok (mkConstraint None lhs GE rhs)) (range (n inst - 1))
     else Ok model) ;;
  Ok (setObjective model (Var z) Minimize).

(** The variable [addVar] returns for the pair [ij] when [k] variables
    exist, and its entry in the dictionary [x]. *)
Definition created_var (k : nat) (ij : Z * Z) : variable :=
  mkVariable k ("x[" ++ str_of_int (fst ij) ++ "," ++ str_of_int (snd ij) ++ "]")
             IntegerVar (Some float_zero) None.

Definition created_entry (kij : nat * (Z * Z)) : Z * Z * variable :=
  (fst (snd kij), snd (snd kij), created_var (fst kij) (snd kij)).

(** ** What the specification says of instances and of the model *)

(** [x >= 0] *)
Definition nonnegative (x : float) : Prop :=
  num_leb (Float float_zero) (Float x) = true.

(** The invariants of the data model: the three lists have [m] items, no
    dosage and no duration is negative, and the hour budget is positive. *)
Definition data_invariants (inst : NoiseDosage) : Prop :=
  Z.of_nat (length (alpha inst)) = m inst /\
  Z.of_nat (length (d inst)) = m inst /\
  Z.of_nat (length (t inst)) = m inst /\
  Forall nonnegative (alpha inst) /\
  Forall nonnegative (t inst) /\
  0 < total_hours inst.

(** The variable [x[i, j]]: integer, not negative, the [(i * n + j)]-th
    variable of the model. *)
Definition cycle_var (n i j : Z) : variable :=
  mkVariable (Z.to_nat (i * n + j))
             ("x[" ++ str_of_int i ++ "," ++ str_of_int j ++ "]")
             IntegerVar (Some float_zero) None.

(** The variable [z]: continuous, not negative, created after the others. *)
Definition dosage_var (m n : Z) : variable :=
  mkVariable (Z.to_nat m * Z.to_nat n) "z" ContinuousVar (Some float_zero) None.

(** The model the specification describes, without symmetry handling:
    (a) [z] bounds each worker's total dosage from above; (b) each
    machine's work cycles are all distributed; (c) each worker's hours stay
    within the budget; minimize [z]. *)
Definition described_model (inst : NoiseDosage) : Model :=
  let x := cycle_var (n inst) in
  let z := dosage_var (m inst) (n inst) in
  let machines := range (m inst) in
  let workers := range (n inst) in
  let alpha_ i := nth (Z.to_nat i) (alpha inst) float_zero in
  let d_ i := nth (Z.to_nat i) (d inst) 0 in
  let t_ i := nth (Z.to_nat i) (t inst) float_zero in
  mkModel (name inst)
    (map (fun ij => x (fst ij) (snd ij)) (machine_worker_pairs (m inst) (n inst)) ++ [z])
    (map (fun j => mkConstraint None (Var z) GE
                     (Quicksum (map (fun i => Scale (Float (alpha_ i)) (Var (x i j)))
                                    machines))) workers
     ++ map (fun i => mkConstraint None
                     (Quicksum (map (fun j => Var (x i j)) workers))
                     EQ (Const (Int (d_ i)))) machines
     ++ map (fun j => mkConstraint None
                     (Quicksum (map (fun i => Scale (Float (t_ i)) (Var (x i j)))
                                    machines))
                     LE (Const (Int (total_hours inst)))) workers)
    (Some (Var z, Minimize)).

(** ** What the specification says of instance files *)

(** The fields of line [k] of a file. *)
Definition fields (lines : list string) (k : nat) : list string :=
  split (strip (nth k lines "")).

(** The numerals of Python, as [int] and [float] take them (the grammar of
    the language reference, for characters below 256):
<<
      digitpart  ::=  digit (["_"] digit)*
      integer    ::=  [sign] digitpart
      number     ::=  [digitpart] "." digitpart | digitpart ["."]
      exponent   ::=  ("e" | "E") [sign] digitpart
      floatvalue ::=  [sign] (number [exponent] | "inf" | "infinity" | "nan")
>>
    with the three words in any case. *)
Fixpoint is_digitpart (s : string) : bool :=
  match s with
  | String c r =>
      isdigit c &&
      match r with
      | String c' r' => if Ascii.eqb c' "_" then is_digitpart r' else is_digitpart r
      | "" => true
      end
  | "" => false
  end.

Definition is_sign (c : ascii) : bool := Ascii.eqb c "+" || Ascii.eqb c "-".

(** [s] without the sign in front of it, if there is one. *)
Definition unsigned_part (s : string) : string :=
  match s with
  | String c r => if is_sign c then r else s
  | "" => ""
  end.

Definition is_integer (s : string) : bool := is_digitpart (unsigned_part s).

(** [s] cut at the first character that satisfies [p]: what comes before
    it and, if there is such a character, what comes after it. *)
Fixpoint break_at (p : ascii -> bool) (s : string) : string * option string :=
  match s with
  | String c r =>
      if p c then ("", Some r)
      else let (a, b) := break_at p r in (String c a, b)
  | "" => ("", None)
  end.

Definition is_number (s : string) : bool :=
  match break_at (Ascii.eqb ".") s with
  | (a, None) => is_digitpart a
  | (a, Some b) =>
      is_digitpart a && (String.eqb b "" || is_digitpart b)
      || String.eqb a "" && is_digitpart b
  end.

Definition is_exponent_mark (c : ascii) : bool := Ascii.eqb (lower c) "e".

Definition is_floatnumber (s : string) : bool :=
  match break_at is_exponent_mark s with
  | (a, None) => is_number a
  | (a, Some x) => is_number a && is_integer x
  end.

Definition is_special (s : string) : bool :=
  existsb (String.eqb (lowercase s)) ["inf"; "infinity"; "nan"].

Definition is_floatvalue (s : string) : bool :=
  is_special (unsigned_part s) || is_floatnumber (unsigned_part s).

(** Notions for the proofs: what may follow a digit inside a [digitpart];
    the characters of one; an exponent, or the end of the literal. *)
Definition more_digits (r : string) : bool :=
  match r with
  | String c' r' => if Ascii.eqb c' "_" then is_digitpart r' else is_digitpart r
  | EmptyString => true
  end.

Definition digit_or_underscore (c : ascii) : bool := isdigit c || Ascii.eqb c "_".

Definition is_exponent (tail : string) : bool :=
  match tail with
  | String c x => is_exponent_mark c && is_integer x
  | EmptyString => true
  end.

(** A token that is not numeric: not an integer where integers are read,
    not a float value where floats are read. *)
Definition non_numeric_int (tok : string) : bool := negb (is_integer tok).

Definition non_numeric_float (tok : string) : bool := negb (is_floatvalue tok).

(** Wrong field counts: fewer than five lines; a first line without
    exactly two fields; a last line without exactly one; a line of
    [alpha], [d] or [t] whose number of fields is not the [m] the first
    field of the file stands for. *)
Definition wrong_field_counts (lines : list string) : bool :=
  (length lines <? 5)%nat
  || negb (length (fields lines 0) =? 2)%nat
  || negb (length (fields lines 4) =? 1)%nat
  || match fields lines 0 with
     | tok :: _ =>
         match int_of_str tok with
         | Ok m => negb (len_is (fields lines 1) m && len_is (fields lines 2) m
                         && len_is (fields lines 3) m)
         | Raise _ => false
         end
     | [] => false
     end.

Definition non_numeric_tokens (lines : list string) : bool :=
  existsb non_numeric_int (fields lines 0)
  || existsb non_numeric_float (fields lines 1)
  || existsb non_numeric_int (fields lines 2)
  || existsb non_numeric_float (fields lines 3)
  || existsb non_numeric_int (fields lines 4).

Definition malformed (lines : list string) : bool :=
  wrong_field_counts lines || non_numeric_tokens lines.

(** The exceptions of the builtins: none is made for parsing, none holds a
    line number. *)
Definition builtin_error (e : exn) : bool :=
  match e with
  | IndexError | AssertionError | ValueError _ => true
  | _ => false
  end.

(** Two files for [m = 2] machines: one lacks a field on the line of
    [alpha], the other on the line of [t]. *)
Definition short_alpha_file : string :=
  text_of ["2 3"; "1.000000e+00"; "4 5"; "1.000000e+00 2.500000e-01"; "480"].

Definition short_t_file : string :=
  text_of ["2 3"; "1.000000e+00 2.000000e-01"; "4 5"; "2.500000e-01"; "480"].

(** A file with a token that is no number. *)
Definition wordy_file : string :=
  text_of ["2 3"; "1.000000e+00 loud"; "4 5"; "1.000000e+00 2.500000e-01"; "480"].

(** ** The model with symmetry handling *)

(** Worker [j] comes before worker [j + 1] in the order of the work cycles
    weighted by [w]: [sum_i w[i] * x[i,j] >= sum_i w[i] * x[i,j+1]]. *)
Definition lex_cons (inst : NoiseDosage) (w : list num) (j : Z) : Constraint :=
  let weighted j :=
    Quicksum (map (fun i => Scale (nth (Z.to_nat i) w (Int 0))
                                  (Var (cycle_var (n inst) i j)))
                  (range (m inst))) in
  mkConstraint None (weighted j) GE (weighted (j + 1)).

(** The described model, with one such constraint for each worker but the
    last. *)
Definition described_sym_model (inst : NoiseDosage) (w : list num) : Model :=
  let plain := described_model inst in
  mkModel (problemName plain) (vars plain)
          (conss plain ++ map (lex_cons inst w) (range (n inst - 1)))
          (objective plain).

End NoiseDosageModel.

(* ===================================================================== *)
(** * Part VII. noise_dosage/data_generator.py                            *)
(* ===================================================================== *)

Module DataGenerator.
Import Py PyStr PyFloat NoiseDosageModel.

Local Open Scope string_scope.
Local Open Scope Z_scope.
Local Open Scope py_scope.

Section Generator.

(** Python's [random] and [statistics] modules are taken as given: a
    generator is a state that each draw advances. *)
Variable rng : Type.
Variable Random : Z -> rng.                      (* random.Random(seed) *)
Variable randint : Z -> Z -> rng -> Z * rng.     (* rgen.randint(a, b) *)
Variable random : rng -> float * rng.            (* rgen.random() *)
Variable NormalDist : Type.
Variable NormalDist_new : num -> num -> result NormalDist. (* NormalDist(mu=, sigma=) *)
Variable inv_cdf : NormalDist -> float -> result float.    (* dist.inv_cdf(p) *)

(** What a call may depend on besides its arguments: the generator behind
    the module-level functions [random.random()], [random.randint()]. *)
Record interpreter : Type := mkInterpreter {
  global_rng : rng
}.

(** [[rgen.randint(4, 10) for j in range(n_machines)]] *)
Fixpoint draw_jobs (count : nat) (rgen : rng) : list Z * rng :=
  match count with
  | O => ([], rgen)
  | S count' =>
      let (x, rgen) := randint 4 10 rgen in
      let (xs, rgen) := draw_jobs count' rgen in
      (x :: xs, rgen)
  end.

(** The loop [ret = -1.; while ret < 0: ret = dist.inv_cdf(rgen.random())]
    of [get_random_job_duration] and [get_random_noise_dosage]. [None]
    when it is still running after [fuel] draws. *)
Fixpoint resample (fuel : nat) (dist : NormalDist) (rgen : rng)
  : option (result (float * rng)) :=
  match fuel with
  | O => None
  | S fuel' =>
      let (p, rgen) := random rgen in
      match inv_cdf dist p with
      | Raise e => Some (Raise e)
      | Ok ret =>
          if float_ltb ret float_zero then resample fuel' dist rgen
          else Some (Ok (ret, rgen))
      end
  end.

(** [[get_random_...() for j in range(n_machines)]] *)
Fixpoint draw_floats (fuel : nat) (dist : NormalDist) (count : nat) (rgen : rng)
  : option (result (list float * rng)) :=
  match count with
  | O => Some (Ok ([], rgen))
  | S count' =>
      match resample fuel dist rgen with
      | None => None
      | Some (Raise e) => Some (Raise e)
      | Some (Ok (x, rgen)) =>
          match draw_floats fuel dist count' rgen with
          | None => None
          | Some (Raise e) => Some (Raise e)
          | Some (Ok (xs, rgen)) => Some (Ok (x :: xs, rgen))
          end
      end
  end.

(** [sum(d)] *)
Definition sum (l : list Z) : Z := fold_left Z.add l 0.

Definition instance_name (n_machines n_workers worker_hours seed : Z) : string :=
  "noise" ++ str_of_int n_machines ++ "_" ++ str_of_int n_workers ++ "_"
  ++ str_of_int worker_hours ++ "_s" ++ str_of_int seed.

(** What comes before the first resampling loop: the generator, the job
    counts and the distribution of job durations. *)
Definition prepare (n_machines n_workers worker_hours seed : Z)
  : result (list Z * NormalDist * rng) :=
  let total_hours_available := n_workers * worker_hours in
  aimed_total_hours <- int_truediv_float total_hours_available float_two ;;
  let rgen := Random seed in
  let (d, rgen) := draw_jobs (Z.to_nat n_machines) rgen in
  let total_jobs := sum d in
  mean_job_duration <- float_truediv_int aimed_total_hours total_jobs ;;
  let stdev_job_duration := fmul mean_job_duration float_fifth in
  dist <- NormalDist_new (Float mean_job_duration) (Float stdev_job_duration) ;;
  Ok (d, dist, rgen).

(** [generate_instance(n_machines, n_workers, worker_hours, seed)], run in
    the interpreter state [w]: the instance or the exception, and the
    state afterwards; [None] when a resampling loop outlasts [fuel]. *)
Definition generate_instance (fuel : nat)
    (n_machines n_workers worker_hours seed : Z) (w : interpreter)
  : option (result NoiseDosage * interpreter) :=
  let name := instance_name n_machines n_workers worker_hours seed in
  match prepare n_machines n_workers worker_hours seed with
  | Raise e => Some (Raise e, w)
  | Ok (d, dist, rgen) =>
      match draw_floats fuel dist (Z.to_nat n_machines) rgen with
      | None => None
      | Some (Raise e) => Some (Raise e, w)
      | Some (Ok (t, rgen)) =>
          match NormalDist_new (Int 18) (Int 4) with
          | Raise e => Some (Raise e, w)
          | Ok dist =>
              match draw_floats fuel dist (Z.to_nat n_machines) rgen with
              | None => None
              | Some (Raise e) => Some (Raise e, w)
              | Some (Ok (alpha, _)) =>
                  Some (NoiseDosage_init name n_machines n_workers alpha d t
                                         worker_hours, w)
              end
          end
      end
  end.

End Generator.

(** A stand-in for the two library modules, to run the model on: the
    generator is a counter, and the distribution hands back the draw. *)
Definition counter_randint (a b : Z) (g : Z) : Z * Z := (a + g mod (b - a + 1), g + 1).
Definition counter_random (g : Z) : float * Z := (float_half, g + 1).
Definition flat_dist (mu sigma : num) : result unit := Ok tt.
Definition flat_inv_cdf (dist : unit) (p : float) : result float := Ok p.

End DataGenerator.

(* ===================================================================== *)
(** * Part VIII. Properties of covering_designs/generate.py               *)
(* ===================================================================== *)

Module CoveringDesignsProofs.
Import Py PyStr PyFloat Scip CoveringDesigns.

Local Open Scope Z_scope.

(** ** The scan of [is_sorted_subset] *)

(** Where the [while] loop stops: at the first position from [i] on whose
    item is not below [a]. *)
Lemma scan_while_ok superset a i j :
  scan_while superset a i = Ok j ->
  (i <= j)%nat /\
  (exists s, nth_error superset j = Some s /\ a <= s) /\
  (forall k s, (i <= k < j)%nat -> nth_error superset k = Some s -> s < a).
Proof.
  funelim (scan_while superset a i); try discriminate.
  - intros Hj.
    match goal with IH : forall j, _ = Ok j -> _ |- _ =>
      destruct (IH _ Hj) as (Hle & Hs & Hlt) end.
    split; [lia|]. split; [exact Hs|].
    intros k s' Hk Hn.
    destruct (Nat.eq_dec k i) as [->|Hne].
    + apply Z.ltb_lt. congruence.
    + apply (Hlt k); [lia|assumption].
  - intros Hj. inversion Hj; subst.
    split; [lia|]. split.
    + exists s. split; [assumption|]. apply Z.ltb_ge. assumption.
    + intros; lia.
Qed.

(** The loop raises only by reading past the end, every item from [i] on
    being below [a]. *)
Lemma scan_while_raise superset a i e :
  scan_while superset a i = Raise e ->
  e = IndexError /\
  (forall k s, (i <= k)%nat -> nth_error superset k = Some s -> s < a).
Proof.
  funelim (scan_while superset a i); intros He; try discriminate.
  - (* past the end *)
    inversion He; subst. split; [reflexivity|].
    intros k s Hk Hn.
    assert (k < length superset)%nat by (apply nth_error_Some; congruence).
    assert (length superset <= i)%nat by (apply nth_error_None; assumption).
    lia.
  - (* superset[i] < a: the loop goes on *)
    match goal with IH : forall e, _ = Raise e -> _ |- _ =>
      destruct (IH _ He) as (-> & Hlt) end.
    split; [reflexivity|].
    intros k s' Hk Hn.
    destruct (Nat.eq_dec k i) as [->|Hne].
    + apply Z.ltb_lt. congruence.
    + apply (Hlt k); [lia|assumption].
Qed.

Lemma subset_loop_raise subset superset i e :
  subset_loop subset superset i = Raise e -> e = IndexError.
Proof.
  revert i. induction subset as [|a rest IH]; intros i; simpl; [discriminate|].
  destruct (scan_while superset a i) as [j|e'] eqn:Hscan; simpl.
  - destruct (scan_while_ok _ _ _ _ Hscan) as (_ & (s & Hs & _) & _).
    unfold index. rewrite Hs. simpl.
    destruct (s =? a); [apply IH | discriminate].
  - intros He. inversion He; subst.
    apply (scan_while_raise _ _ _ _ Hscan).
Qed.

(** The function always returns. *)
Lemma is_sorted_subset_total subset superset :
  exists b, is_sorted_subset subset superset = Ok b.
Proof.
  unfold is_sorted_subset.
  destruct (subset_loop subset superset 0) as [b|e] eqn:H.
  - exists b. reflexivity.
  - apply subset_loop_raise in H. subst. exists false. reflexivity.
Qed.

(** What the function answers [True] to: every item of [subset] is one of
    [superset]. *)
Lemma subset_loop_sound subset superset i :
  subset_loop subset superset i = Ok true ->
  forall a, In a subset -> In a superset.
Proof.
  revert i. induction subset as [|a rest IH]; intros i H b Hb; [destruct Hb|].
  simpl in H.
  destruct (scan_while superset a i) as [j|e'] eqn:Hscan; simpl in H; [|discriminate].
  destruct (scan_while_ok _ _ _ _ Hscan) as (_ & (s & Hs & _) & _).
  unfold index in H. rewrite Hs in H. simpl in H.
  destruct (s =? a) eqn:Hsa; [|discriminate].
  apply Z.eqb_eq in Hsa. subst s.
  destruct Hb as [<-|Hb].
  - eapply nth_error_In; eassumption.
  - eapply IH; eassumption.
Qed.

Lemma Sorted_ascending l : Sorted Z.le l -> ascending l.
Proof.
  intros H. apply Sorted_StronglySorted in H; [|intros x y z; apply Z.le_trans].
  induction H as [|a l Hl IH Ha]; intros i j x y Hij Hi Hj.
  - destruct i; discriminate.
  - destruct i as [|i], j as [|j]; simpl in *; try lia.
    + inversion Hi; inversion Hj; lia.
    + inversion Hi; subst. rewrite Forall_forall in Ha. apply Ha.
      eapply nth_error_In; eassumption.
    + apply (IH i j); [lia|assumption|assumption].
Qed.

(** On ascending sequences the answer is [True] as soon as every item of
    [subset] occurs in [superset] from the scan position on, however often
    it is repeated in [subset]. *)
Lemma subset_loop_complete superset :
  ascending superset ->
  forall subset i,
  ascending subset ->
  (forall a, In a subset ->
     exists k, (i <= k)%nat /\ nth_error superset k = Some a) ->
  subset_loop subset superset i = Ok true.
Proof.
  intros Hsup. induction subset as [|a rest IH]; intros i Hsub Hin; [reflexivity|].
  simpl.
  destruct (Hin a (or_introl eq_refl)) as (k & Hk & Hka).
  destruct (scan_while superset a i) as [j|e] eqn:Hscan; simpl.
  - destruct (scan_while_ok _ _ _ _ Hscan) as (Hij & (s & Hs & Has) & Hlt).
    unfold index. rewrite Hs. simpl.
    assert (Hjk : (j <= k)%nat).
    { destruct (Nat.le_gt_cases j k) as [|Hgt]; [assumption|].
      specialize (Hlt k a (conj Hk Hgt) Hka). lia. }
    assert (s = a) by (pose proof (Hsup j k s a Hjk Hs Hka); lia).
    subst s. rewrite Z.eqb_refl.
    apply IH.
    + intros p q x y Hpq Hp Hq. apply (Hsub (S p) (S q)); [lia|assumption|assumption].
    + intros b Hb.
      destruct (Hin b (or_intror Hb)) as (k' & Hk' & Hkb).
      exists k'. split; [|assumption].
      destruct (Nat.le_gt_cases j k') as [|Hgt]; [assumption|].
      specialize (Hlt k' b (conj Hk' Hgt) Hkb).
      destruct (In_nth_error _ _ Hb) as (q & Hq).
      pose proof (Hsub 0%nat (S q) a b ltac:(lia) eq_refl Hq). lia.
  - destruct (scan_while_raise _ _ _ _ Hscan) as (_ & Hlt).
    specialize (Hlt k a Hk Hka). lia.
Qed.

(** Claim C5. On the sorted sequences of the examples,
    [is_sorted_subset([2,4],[1,2,3,4,5])] is true, [is_sorted_subset([],xs)]
    is true for every [xs], and [is_sorted_subset([2,6],[1,2,3,4,5])] is
    false. In the last case the superset is exhausted before the subset: the
    scan raises [IndexError], the only exception it can raise, which the
    function catches to return false. So the function returns a boolean on
    every input and never fails. *)
Theorem is_sorted_subset_examples :
  is_sorted_subset [2; 4] [1; 2; 3; 4; 5] = Ok true /\
  (forall xs, is_sorted_subset [] xs = Ok true) /\
  is_sorted_subset [2; 6] [1; 2; 3; 4; 5] = Ok false /\
  subset_loop [2; 6] [1; 2; 3; 4; 5] 0 = Raise IndexError /\
  (forall subset superset e,
     subset_loop subset superset 0 = Raise e ->
     e = IndexError /\ is_sorted_subset subset superset = Ok false) /\
  (forall subset superset, exists b, is_sorted_subset subset superset = Ok b).
Proof.
  repeat split.
  - eapply subset_loop_raise; eassumption.
  - unfold is_sorted_subset.
    rewrite H. rewrite (subset_loop_raise _ _ _ _ H). reflexivity.
  - apply is_sorted_subset_total.
Qed.

(** Claim C10. The scan index is not advanced after a match, so a value
    repeated in the subset is matched with the same item of the superset
    again: for sorted sequences the result is true as soon as every value
    of the subset occurs in the superset, however often the subset repeats
    it. So it is for [[2,2]] and [[1,2,3]], where 2 occurs once in the
    superset. *)
Theorem repeated_values_accepted subset superset :
  Sorted Z.le subset -> Sorted Z.le superset ->
  (forall a, In a subset -> In a superset) ->
  is_sorted_subset subset superset = Ok true.
Proof.
  intros Hsub Hsup Hin. unfold is_sorted_subset.
  rewrite (subset_loop_complete superset (Sorted_ascending _ Hsup) subset 0
             (Sorted_ascending _ Hsub)); [reflexivity|].
  intros a Ha. destruct (In_nth_error _ _ (Hin a Ha)) as (k & Hk).
  exists k. split; [lia|assumption].
Qed.

Lemma repeated_values_accepted_witness :
  is_sorted_subset [2; 2] [1; 2; 3] = Ok true.
Proof.
  apply repeated_values_accepted.
  - repeat constructor; lia.
  - repeat constructor; lia.
  - intros a [<-|[<-|[]]]; simpl; tauto.
Defined.

Lemma binomial_above n : forall k, (n < k)%nat -> binomial n k = 0%nat.
Proof.
  induction n as [|n IH]; intros [|k] H; simpl; try lia.
  rewrite !IH by lia. reflexivity.
Qed.

(** [binomial] is the usual quotient of factorials. *)
Lemma binomial_fact n : forall k, (k <= n)%nat ->
  (binomial n k * (fact k * fact (n - k)) = fact n)%nat.
Proof.
  induction n as [|n IH]; intros [|k] H; try lia.
  - reflexivity.
  - change (binomial (S n) 0) with 1%nat. rewrite Nat.sub_0_r.
    change (fact 0) with 1%nat. lia.
  - change (binomial (S n) (S k)) with (binomial n k + binomial n (S k))%nat.
    replace (S n - S k)%nat with (n - k)%nat by lia.
    destruct (Nat.eq_dec k n) as [->|Hne].
    + rewrite (binomial_above n (S n)) by lia. rewrite Nat.sub_diag.
      pose proof (IH n (Nat.le_refl n)) as E. rewrite Nat.sub_diag in E.
      change (fact 0) with 1%nat in *.
      change (fact (S n)) with (S n * fact n)%nat. nia.
    + pose proof (IH k ltac:(lia)) as E1.
      pose proof (IH (S k) ltac:(lia)) as E2.
      replace (n - k)%nat with (S (n - S k)) in * by lia.
      change (fact (S n)) with (S n * fact n)%nat.
      change (fact (S (n - S k))) with (S (n - S k) * fact (n - S k))%nat in *.
      change (fact (S k)) with (S k * fact k)%nat in *.
      nia.
Qed.

Lemma combinations_nat_cons {A} r (x : A) xs :
  combinations_nat (S r) (x :: xs)
  = map (cons x) (combinations_nat r xs) ++ combinations_nat (S r) xs.
Proof. reflexivity. Qed.

Lemma combinations_nat_length {A} r : forall l : list A,
  length (combinations_nat r l) = binomial (length l) r.
Proof.
  induction r as [|r IHr]; intros l.
  - destruct l; reflexivity.
  - induction l as [|x xs IHl]; [reflexivity|].
    rewrite combinations_nat_cons, length_app, length_map, IHr, IHl.
    reflexivity.
Qed.

Lemma range_length n : length (range n) = Z.to_nat n.
Proof. unfold range. rewrite length_map, length_seq. reflexivity. Qed.

Lemma enumerate_length {A} (l : list A) : length (enumerate l) = length l.
Proof. unfold enumerate. rewrite length_combine, length_seq. lia. Qed.

Lemma enumerate_keys {A} (l : list A) : map fst (enumerate l) = seq 0 (length l).
Proof.
  unfold enumerate. generalize 0%nat.
  induction l as [|x xs IH]; intros s; simpl; [reflexivity|].
  rewrite IH. reflexivity.
Qed.

(** ** The variables and constraints of a covering design *)

Lemma add_block_vars_ok lamb ub :
  float_of_int lamb = Ok ub ->
  forall blocks model x,
  exists model' x',
    add_block_vars lamb model x blocks = Ok (model', x') /\
    length (vars model') = (length (vars model) + length blocks)%nat /\
    conss model' = conss model /\
    map fst x' = map fst x ++ map fst blocks.
Proof.
  intros Hub. induction blocks as [|[j entries] rest IH]; intros model x; simpl.
  - exists model, x. rewrite Nat.add_0_r, app_nil_r. auto.
  - rewrite Hub. simpl.
    match goal with |- context [add_block_vars lamb ?m ?y rest] =>
      destruct (IH m y) as (model' & x' & -> & Hv & Hc & Hk) end.
    exists model', x'. split; [reflexivity|].
    simpl in Hv, Hc. rewrite length_app in Hv. simpl in Hv.
    rewrite map_app in Hk. simpl in Hk. rewrite <- app_assoc in Hk.
    repeat split; [lia|assumption|assumption].
Qed.

Lemma add_block_vars_raise lamb e :
  float_of_int lamb = Raise e ->
  forall blocks model x, blocks <> [] ->
  add_block_vars lamb model x blocks = Raise e.
Proof.
  intros Hub [|[j entries] rest] model x Hne; [congruence|].
  simpl. rewrite Hub. reflexivity.
Qed.

Lemma lookup_ok x j : In j (map fst x) -> exists v, lookup x j = Ok v.
Proof.
  induction x as [|[j' v] x IH]; simpl; [tauto|].
  intros Hin. destruct (j' =? j)%nat eqn:E.
  - exists v. reflexivity.
  - apply IH. destruct Hin as [->|]; [|assumption].
    rewrite Nat.eqb_refl in E. discriminate.
Qed.

Lemma covering_terms_ok x entries_t blocks :
  incl (map fst blocks) (map fst x) ->
  exists terms, covering_terms x entries_t blocks = Ok terms.
Proof.
  induction blocks as [|[j entries_k] rest IH]; intros Hin; simpl.
  - exists []. reflexivity.
  - destruct IH as (terms & Hterms).
    { intros a Ha. apply Hin. right. assumption. }
    destruct (is_sorted_subset_total entries_t entries_k) as ([|] & ->); simpl.
    + destruct (lookup_ok x j) as (v & ->); [apply Hin; left; reflexivity|].
      simpl. rewrite Hterms. simpl. eexists. reflexivity.
    + exists terms. assumption.
Qed.

Lemma add_covering_conss_ok lamb x set_k :
  incl (map fst (enumerate set_k)) (map fst x) ->
  forall targets model,
  exists model',
    add_covering_conss lamb x set_k model targets = Ok model' /\
    length (conss model') = (length (conss model) + length targets)%nat /\
    vars model' = vars model.
Proof.
  intros Hkeys. induction targets as [|[i entries_t] rest IH]; intros model; simpl.
  - exists model. rewrite Nat.add_0_r. auto.
  - destruct (covering_terms_ok x entries_t _ Hkeys) as (terms & ->). simpl.
    match goal with |- context [add_covering_conss lamb x set_k ?m rest] =>
      destruct (IH m) as (model' & -> & Hc & Hv) end.
    exists model'. split; [reflexivity|].
    simpl in Hc, Hv. rewrite length_app in Hc. simpl in Hc.
    split; [lia|assumption].
Qed.

Lemma generate_covering_design_ok lamb v k t ub :
  0 <= k -> 0 <= t ->
  float_of_int lamb = Ok ub ->
  exists model,
    generate_covering_design lamb v k t = Ok model /\
    length (vars model) = binomial (Z.to_nat v) (Z.to_nat k) /\
    length (conss model) = binomial (Z.to_nat v) (Z.to_nat t).
Proof.
  intros Hk Ht Hub. unfold generate_covering_design, combinations.
  destruct (Z.ltb_spec k 0) as [|_]; [lia|].
  destruct (Z.ltb_spec t 0) as [|_]; [lia|]. simpl.
  set (set_k := combinations_nat (Z.to_nat k) (range v)).
  set (set_t := combinations_nat (Z.to_nat t) (range v)).
  destruct (add_block_vars_ok lamb ub Hub (enumerate set_k)
              (new_model (problem_name lamb v k t)) [])
    as (model1 & x & -> & Hv1 & Hc1 & Hkeys). simpl.
  destruct (add_covering_conss_ok lamb x set_k) with (targets := enumerate set_t) (model := model1)
    as (model2 & -> & Hc2 & Hv2).
  { rewrite Hkeys. simpl. apply incl_refl. }
  simpl. eexists. split; [reflexivity|]. simpl.
  rewrite Hv2, Hv1, Hc2, Hc1. simpl.
  rewrite !enumerate_length. unfold set_k, set_t.
  rewrite !combinations_nat_length, range_length. auto.
Qed.

Lemma binomial_pos n : forall k, (k <= n)%nat -> (0 < binomial n k)%nat.
Proof.
  induction n as [|n IH]; intros [|k] H; simpl; try lia.
  specialize (IH k ltac:(lia)). lia.
Qed.

Lemma generate_covering_design_raise lamb v k t e :
  0 <= k <= v -> 0 <= t ->
  float_of_int lamb = Raise e ->
  generate_covering_design lamb v k t = Raise e.
Proof.
  intros Hk Ht Hub. unfold generate_covering_design, combinations.
  destruct (Z.ltb_spec k 0) as [|_]; [lia|].
  destruct (Z.ltb_spec t 0) as [|_]; [lia|]. simpl.
  rewrite (add_block_vars_raise lamb e Hub); [reflexivity|].
  intros E. apply (f_equal (@length _)) in E.
  rewrite enumerate_length, combinations_nat_length, range_length in E. simpl in E.
  pose proof (binomial_pos (Z.to_nat v) (Z.to_nat k) ltac:(lia)). lia.
Qed.

(** Claim C6. For [v > k > t >= 0], a model returned by
    [generate_covering_design] has exactly [C(v,k)] variables, one per
    [k]-subset of the ground set, and exactly [C(v,t)] constraints, one per
    [t]-subset; and a model is returned whenever [float(lamb)], the upper
    bound of the variables, is defined. *)
Theorem covering_design_counts lamb v k t :
  v > k -> k > t -> t >= 0 ->
  (forall model, generate_covering_design lamb v k t = Ok model ->
     length (vars model) = binomial (Z.to_nat v) (Z.to_nat k) /\
     length (conss model) = binomial (Z.to_nat v) (Z.to_nat t)) /\
  (is_ok (float_of_int lamb) = true ->
   is_ok (generate_covering_design lamb v k t) = true).
Proof.
  intros Hvk Hkt Ht.
  destruct (float_of_int lamb) as [ub|e] eqn:Hub.
  - destruct (generate_covering_design_ok lamb v k t ub) as (model & Hm & Hcount);
      [lia|lia|assumption|].
    rewrite Hm. split; [|reflexivity].
    intros model' E. inversion E; subst. assumption.
  - rewrite (generate_covering_design_raise lamb v k t e) by (assumption || lia).
    split; [discriminate|trivial].
Qed.

Lemma covering_design_counts_witness :
  exists model,
    generate_covering_design 2 4 3 2 = Ok model /\
    length (vars model) = 4%nat /\ length (conss model) = 6%nat.
Proof.
  destruct (covering_design_counts 2 4 3 2) as (Hcount & Hok); [lia|lia|lia|].
  destruct (generate_covering_design 2 4 3 2) as [model|e] eqn:E.
  - exists model. split; [reflexivity|]. apply (Hcount model eq_refl).
  - specialize (Hok eq_refl). discriminate.
Defined.

(** ** The batch driver *)

Lemma in_range n i : In i (range n) <-> 0 <= i < n.
Proof.
  unfold range. rewrite in_map_iff. split.
  - intros (k & <- & Hk). apply in_seq in Hk. lia.
  - intros H. exists (Z.to_nat i). split; [lia|]. apply in_seq. lia.
Qed.

Lemma in_range2 a b i : In i (range2 a b) <-> a <= i < b.
Proof.
  unfold range2. rewrite in_map_iff. split.
  - intros (k & <- & Hk). apply in_range in Hk. lia.
  - intros H. exists (i - a). split; [lia|]. apply in_range. lia.
Qed.

Lemma in_product4 ls vs ks ts l v k t :
  In (l, v, k, t) (product4 ls vs ks ts)
  <-> In l ls /\ In v vs /\ In k ks /\ In t ts.
Proof.
  unfold product4. rewrite in_flat_map. split.
  - intros (l' & Hl & H). rewrite in_flat_map in H. destruct H as (v' & Hv & H).
    rewrite in_flat_map in H. destruct H as (k' & Hk & H).
    rewrite in_map_iff in H. destruct H as (t' & E & Ht).
    inversion E; subst. auto.
  - intros (Hl & Hv & Hk & Ht). exists l. split; [assumption|].
    rewrite in_flat_map. exists v. split; [assumption|].
    rewrite in_flat_map. exists k. split; [assumption|].
    rewrite in_map_iff. exists t. auto.
Qed.

(** A turn of the loop calls [generate_covering_design] at most once, and
    only behind the two guards. *)
Lemma driver_step_calls w p w' :
  driver_step w p = Ok w' ->
  calls w' = calls w \/
  (calls w' = calls w ++ [p] /\
   let '(_, v, k, t) := p in v > k /\ k > t).
Proof.
  destruct p as [[[lamb v] k] t]. unfold driver_step.
  destruct (exists_file w _); [intros E; inversion E; auto|].
  destruct (Z.leb_spec v k); [intros E; inversion E; auto|].
  destruct (Z.leb_spec k t); [intros E; inversion E; auto|].
  destruct (generate_covering_design lamb v k t); simpl; [|discriminate].
  intros E; inversion E; subst; simpl. right. split; [reflexivity|lia].
Qed.

Lemma driver_loop_calls ps : forall w w',
  driver_loop w ps = Ok w' ->
  forall lamb v k t, In (lamb, v, k, t) (calls w') ->
  In (lamb, v, k, t) (calls w) \/
  (In (lamb, v, k, t) ps /\ v > k /\ k > t).
Proof.
  induction ps as [|p rest IH]; intros w w' H lamb v k t Hin; simpl in H.
  - inversion H; subst. auto.
  - destruct (driver_step w p) as [w1|e] eqn:Hstep; simpl in H; [|discriminate].
    destruct (IH _ _ H _ _ _ _ Hin) as [Hin1|(Hp & Hg)].
    + destruct (driver_step_calls _ _ _ Hstep) as [E|(E & Hg)].
      * left. congruence.
      * rewrite E in Hin1. apply in_app_or in Hin1.
        destruct Hin1 as [|[->|[]]]; [auto|]. right. simpl in *. tauto.
    + right. simpl. auto.
Qed.

(** A turn of the loop succeeds when the multiplicity converts to a float
    and the sizes are not negative. *)
Lemma driver_step_ok w lamb v k t :
  is_ok (float_of_int lamb) = true -> 0 <= t ->
  exists w', driver_step w (lamb, v, k, t) = Ok w'.
Proof.
  intros Hlamb Ht. unfold driver_step.
  destruct (exists_file w _); [eauto|].
  destruct (Z.leb_spec v k); [eauto|].
  destruct (Z.leb_spec k t); [eauto|].
  destruct (float_of_int lamb) as [ub|] eqn:Hub; [|discriminate].
  destruct (generate_covering_design_ok lamb v k t ub) as (model & -> & _);
    [lia|lia|assumption|].
  simpl. eauto.
Qed.

Lemma driver_loop_ok ps :
  Forall (fun '(lamb, _, _, t) => is_ok (float_of_int lamb) = true /\ 0 <= t) ps ->
  forall w, exists w', driver_loop w ps = Ok w'.
Proof.
  induction 1 as [|[[[lamb v] k] t] rest (Hlamb & Ht) _ IH]; intros w;
    cbn [driver_loop].
  - eauto.
  - destruct (driver_step_ok w lamb v k t Hlamb Ht) as (w1 & ->).
    cbn [bind]. apply IH.
Qed.

(** Claim C9. Whatever files exist already, the batch driver runs to its
    end, and [generate_covering_design] was called on no tuple
    [(lamb, v, k, t)] that violates [v > k > t >= 0]: such tuples are
    skipped before any model is built. *)
Theorem driver_skips_invalid_parameters existing :
  exists w,
    main existing = Ok w /\
    forall lamb v k t,
      ~ (v > k /\ k > t /\ t >= 0) -> ~ In (lamb, v, k, t) (calls w).
Proof.
  unfold main.
  destruct (driver_loop_ok (product4 lambs vs ks ts)) with
    (w := mkWorld (map (fun n => (n, @None Model)) existing) []) as (w & Hw).
  { apply Forall_forall. intros [[[lamb v] k] t] Hin.
    apply in_product4 in Hin. destruct Hin as (Hl & _ & _ & Ht).
    apply in_range2 in Hl. apply in_range2 in Ht.
    split; [|lia].
    assert (lamb = 2 \/ lamb = 3) as [->| ->] by lia; reflexivity. }
  exists w. split; [assumption|].
  intros lamb v k t Hbad Hin.
  destruct (driver_loop_calls _ _ _ Hw _ _ _ _ Hin) as [[]|(Hp & Hvk & Hkt)].
  apply in_product4 in Hp. destruct Hp as (_ & _ & _ & Ht).
  apply in_range2 in Ht. lia.
Qed.

End CoveringDesignsProofs.

(* ===================================================================== *)
(** * Part IX. Properties of noise_dosage/generate.py: the constructor   *)
(**   and the model                                                       *)
(* ===================================================================== *)

Module NoiseDosageProofs.
Import Py PyStr PyFloat Scip NoiseDosageModel.

Local Open Scope Z_scope.

(** ** The constructor *)

Lemma forallb_trivial {A} (l : list A) : forallb (fun _ => true) l = true.
Proof. induction l; simpl; auto. Qed.

(** The constructor accepts exactly the arguments whose three lists have
    [m] items, and builds the instance from them unchanged. *)
Lemma NoiseDosage_init_spec name m n alpha d t total_hours :
  NoiseDosage_init name m n alpha d t total_hours
  = if len_is alpha m && len_is d m && len_is t m
    then Ok (mkNoiseDosage name m n alpha d t total_hours)
    else Raise AssertionError.
Proof.
  unfold NoiseDosage_init. rewrite !forallb_trivial.
  destruct (len_is alpha m), (len_is d m), (len_is t m); reflexivity.
Qed.

Lemma NoiseDosage_init_ok name m n alpha d t total_hours inst :
  NoiseDosage_init name m n alpha d t total_hours = Ok inst ->
  inst = mkNoiseDosage name m n alpha d t total_hours /\
  Z.of_nat (length alpha) = m /\ Z.of_nat (length d) = m /\
  Z.of_nat (length t) = m.
Proof.
  rewrite NoiseDosage_init_spec. unfold len_is.
  destruct (Z.eqb_spec (Z.of_nat (length alpha)) m); simpl; [|discriminate].
  destruct (Z.eqb_spec (Z.of_nat (length d)) m); simpl; [|discriminate].
  destruct (Z.eqb_spec (Z.of_nat (length t)) m); simpl; [|discriminate].
  intros E. inversion E. auto.
Qed.

(** Claim C7, as the code has it. The constructor accepts its arguments
    when [alpha], [d] and [t] have [m] items each, and raises
    [AssertionError] when they have not: the lengths are the only invariant
    it enforces, and it looks at no value. *)
Theorem constructor_checks_lengths_only name m n alpha d t total_hours :
  let lengths_agree :=
    Z.of_nat (length alpha) = m /\ Z.of_nat (length d) = m /\
    Z.of_nat (length t) = m in
  (lengths_agree ->
   NoiseDosage_init name m n alpha d t total_hours
   = Ok (mkNoiseDosage name m n alpha d t total_hours)) /\
  (~ lengths_agree ->
   NoiseDosage_init name m n alpha d t total_hours = Raise AssertionError).
Proof.
  intros lengths_agree. subst lengths_agree.
  rewrite NoiseDosage_init_spec. unfold len_is.
  destruct (Z.eqb_spec (Z.of_nat (length alpha)) m);
  destruct (Z.eqb_spec (Z.of_nat (length d)) m);
  destruct (Z.eqb_spec (Z.of_nat (length t)) m); simpl; split; tauto.
Qed.

(** Claim C7 as stated fails: the constructor accepts an instance with a
    negative dosage, a negative duration and a budget of zero hours. *)
Lemma constructor_accepts_broken_invariants :
  exists inst,
    NoiseDosage_init "bad"%string 1 1 [minus_one] [1] [minus_one] 0 = Ok inst /\
    ~ data_invariants inst /\
    ~ Forall nonnegative (alpha inst) /\
    ~ Forall nonnegative (t inst) /\
    ~ 0 < total_hours inst.
Proof.
  eexists. split; [reflexivity|]. simpl.
  assert (Hneg : ~ Forall nonnegative [minus_one]).
  { intros H. inversion H as [|? ? Hx]; subst. vm_compute in Hx. discriminate. }
  repeat split; try assumption; try lia.
  intros (_ & _ & _ & _ & _ & H). simpl in H. lia.
Qed.

(** ** The model without symmetry handling *)

Lemma mapM_ok {A B} (f : A -> result B) (g : A -> B) l :
  (forall a, In a l -> f a = Ok (g a)) -> mapM f l = Ok (map g l).
Proof.
  induction l as [|a l IH]; intros H; simpl; [reflexivity|].
  rewrite (H a (or_introl eq_refl)). simpl.
  rewrite IH by (intros; apply H; right; assumption). reflexivity.
Qed.

Lemma add_conss_ok model mk (g : Z -> Constraint) l :
  (forall i, In i l -> mk i = Ok (g i)) ->
  add_conss model mk l
  = Ok (mkModel (problemName model) (vars model) (conss model ++ map g l)
                (objective model)).
Proof.
  revert model. induction l as [|i l IH]; intros model H; simpl.
  - rewrite app_nil_r. destruct model; reflexivity.
  - rewrite (H i (or_introl eq_refl)). simpl.
    rewrite IH by (intros; apply H; right; assumption). simpl.
    rewrite <- app_assoc. reflexivity.
Qed.

Lemma at_index_ok {A} (l : list A) (i : Z) (dflt : A) :
  0 <= i < Z.of_nat (length l) ->
  at_index l i = Ok (nth (Z.to_nat i) l dflt).
Proof.
  intros H. unfold at_index, index.
  rewrite (nth_error_nth' l dflt) by lia. reflexivity.
Qed.

Lemma add_cycle_vars_spec pairs : forall model x,
  add_cycle_vars model x pairs
  = (mkModel (problemName model)
             (vars model ++ map (fun kij => created_var (fst kij) (snd kij))
                                (combine (seq (length (vars model)) (length pairs)) pairs))
             (conss model) (objective model),
     x ++ map created_entry (combine (seq (length (vars model)) (length pairs)) pairs)).
Proof.
  induction pairs as [|[i j] rest IH]; intros model x; simpl.
  - rewrite !app_nil_r. destruct model; reflexivity.
  - rewrite IH. simpl. rewrite length_app. simpl.
    rewrite Nat.add_1_r, <- !app_assoc. reflexivity.
Qed.

Lemma lookup_app_l x y i j v :
  lookup x i j = Ok v -> lookup (x ++ y) i j = Ok v.
Proof.
  induction x as [|[[i' j'] v'] x IH]; simpl; [discriminate|].
  destruct ((i' =? i) && (j' =? j)); auto.
Qed.

(** In a dictionary built from distinct keys, the key at position [p]
    finds the variable created at that position. *)
Lemma lookup_created pairs : forall s p i j,
  NoDup pairs ->
  nth_error pairs p = Some (i, j) ->
  lookup (map created_entry (combine (seq s (length pairs)) pairs)) i j
  = Ok (created_var (s + p) (i, j)).
Proof.
  induction pairs as [|[i' j'] rest IH]; intros s p i j Hnd Hp.
  - destruct p; discriminate.
  - inversion Hnd as [|? ? Hnotin Hnd']; subst.
    destruct p as [|p]; simpl in *.
    + inversion Hp; subst. rewrite !Z.eqb_refl. simpl. rewrite Nat.add_0_r. reflexivity.
    + destruct ((i' =? i) && (j' =? j)) eqn:E.
      * apply andb_true_iff in E. destruct E as (Ei & Ej).
        apply Z.eqb_eq in Ei, Ej. subst.
        exfalso. apply Hnotin. eapply nth_error_In; eassumption.
      * rewrite (IH (S s) p i j Hnd' Hp). f_equal. f_equal. lia.
Qed.

Lemma nth_error_flat_map_uniform {A B} (f : A -> list B) (w : nat) l :
  (forall a, In a l -> length (f a) = w) ->
  forall p q a, nth_error l p = Some a -> (q < w)%nat ->
  nth_error (flat_map f l) (p * w + q) = nth_error (f a) q.
Proof.
  induction l as [|a' l IH]; intros Hw p q a Hp Hq.
  - destruct p; discriminate.
  - simpl. destruct p as [|p]; simpl in *.
    + inversion Hp; subst. rewrite nth_error_app1; [reflexivity|].
      rewrite Hw by (left; reflexivity). assumption.
    + rewrite nth_error_app2 by (rewrite Hw by (left; reflexivity); lia).
      rewrite Hw by (left; reflexivity).
      replace (w + p * w + q - w)%nat with (p * w + q)%nat by lia.
      apply IH; auto.
Qed.

Lemma nth_error_range n i :
  0 <= i < n -> nth_error (range n) (Z.to_nat i) = Some i.
Proof.
  intros H. unfold range. rewrite nth_error_map, nth_error_seq.
  destruct (Nat.ltb_spec (Z.to_nat i) (Z.to_nat n)); [|lia].
  simpl. f_equal. lia.
Qed.

Lemma nth_error_pairs m n i j :
  0 <= i < m -> 0 <= j < n ->
  nth_error (machine_worker_pairs m n) (Z.to_nat (i * n + j)) = Some (i, j).
Proof.
  intros Hi Hj. unfold machine_worker_pairs.
  replace (Z.to_nat (i * n + j)) with (Z.to_nat i * Z.to_nat n + Z.to_nat j)%nat by nia.
  rewrite (nth_error_flat_map_uniform _ (Z.to_nat n) (range m)) with (a := i).
  - rewrite nth_error_map, nth_error_range by assumption. reflexivity.
  - intros a _. rewrite length_map. apply CoveringDesignsProofs.range_length.
  - apply nth_error_range. assumption.
  - lia.
Qed.

Lemma NoDup_range n : NoDup (range n).
Proof.
  unfold range. apply Injective_map_NoDup; [|apply seq_NoDup].
  intros a b. apply Nat2Z.inj.
Qed.

Lemma NoDup_pairs m n : NoDup (machine_worker_pairs m n).
Proof.
  unfold machine_worker_pairs.
  induction (NoDup_range m) as [|i l Hnotin _ IH]; simpl; [constructor|].
  apply NoDup_app.
  - apply Injective_map_NoDup; [|apply NoDup_range].
    intros a b E. inversion E. reflexivity.
  - exact IH.
  - intros [a b] Hin1 Hin2. apply in_map_iff in Hin1. destruct Hin1 as (j & E & _).
    inversion E; subst.
    apply in_flat_map in Hin2. destruct Hin2 as (i' & Hi' & Hin2).
    apply in_map_iff in Hin2. destruct Hin2 as (j' & E' & _).
    inversion E'; subst. contradiction.
Qed.

Lemma length_pairs m n :
  length (machine_worker_pairs m n) = (Z.to_nat m * Z.to_nat n)%nat.
Proof.
  unfold machine_worker_pairs.
  rewrite <- (CoveringDesignsProofs.range_length m).
  induction (range m) as [|i l IH]; simpl; [reflexivity|].
  rewrite length_app, length_map, CoveringDesignsProofs.range_length, IH. reflexivity.
Qed.

Lemma in_pairs m n i j :
  In (i, j) (machine_worker_pairs m n) <-> 0 <= i < m /\ 0 <= j < n.
Proof.
  unfold machine_worker_pairs. rewrite in_flat_map. split.
  - intros (i' & Hi & Hin). apply in_map_iff in Hin. destruct Hin as (j' & E & Hj).
    inversion E; subst. apply CoveringDesignsProofs.in_range in Hi, Hj. auto.
  - intros (Hi & Hj). exists i. split; [apply CoveringDesignsProofs.in_range; assumption|].
    apply in_map_iff. exists j. split; [reflexivity|].
    apply CoveringDesignsProofs.in_range; assumption.
Qed.

Lemma nth_error_combine_both {A B} (l1 : list A) : forall (l2 : list B) p,
  nth_error (combine l1 l2) p
  = match nth_error l1 p, nth_error l2 p with
    | Some a, Some b => Some (a, b)
    | _, _ => None
    end.
Proof.
  induction l1 as [|a l1 IH]; intros [|b l2] [|p]; simpl; try reflexivity.
  - destruct (nth_error l1 p); reflexivity.
  - apply IH.
Qed.

(** The variables of the model: one [x[i, j]] per pair, in the order of
    the pairs. *)
Lemma created_vars_described m n :
  map (fun kij => created_var (fst kij) (snd kij))
      (combine (seq 0 (length (machine_worker_pairs m n))) (machine_worker_pairs m n))
  = map (fun ij => cycle_var n (fst ij) (snd ij)) (machine_worker_pairs m n).
Proof.
  apply nth_error_ext. intros p.
  rewrite !nth_error_map, nth_error_combine_both, nth_error_seq.
  destruct (nth_error (machine_worker_pairs m n) p) as [[i j]|] eqn:Hp.
  - assert (Hin := nth_error_In _ _ Hp). apply in_pairs in Hin.
    assert (Hq := nth_error_pairs m n i j (proj1 Hin) (proj2 Hin)).
    assert (Hlt : (p < length (machine_worker_pairs m n))%nat)
      by (apply nth_error_Some; congruence).
    assert (p = Z.to_nat (i * n + j)).
    { eapply (proj1 (NoDup_nth_error _) (NoDup_pairs m n)); [assumption|congruence]. }
    subst p.
    destruct (Nat.ltb_spec (Z.to_nat (i * n + j)) (length (machine_worker_pairs m n)));
      [reflexivity|lia].
  - destruct (_ <? _)%nat; reflexivity.
Qed.

Lemma lookup_cycle_var m n i j :
  0 <= i < m -> 0 <= j < n ->
  lookup (map created_entry
            (combine (seq 0 (length (machine_worker_pairs m n)))
                     (machine_worker_pairs m n))) i j
  = Ok (cycle_var n i j).
Proof.
  intros Hi Hj.
  rewrite (lookup_created _ 0 (Z.to_nat (i * n + j)) i j (NoDup_pairs m n)
             (nth_error_pairs m n i j Hi Hj)).
  reflexivity.
Qed.

Lemma weighted_column_ok m n (coef : Z -> result num) (c : Z -> num) j :
  0 <= j < n ->
  (forall i, 0 <= i < m -> coef i = Ok (c i)) ->
  weighted_column
    (map created_entry
       (combine (seq 0 (length (machine_worker_pairs m n)))
                (machine_worker_pairs m n))) coef m j
  = Ok (Quicksum (map (fun i => Scale (c i) (Var (cycle_var n i j))) (range m))).
Proof.
  intros Hj Hcoef. unfold weighted_column.
  rewrite (mapM_ok _ (fun i => Scale (c i) (Var (cycle_var n i j)))); [reflexivity|].
  intros i Hi. apply CoveringDesignsProofs.in_range in Hi.
  rewrite (Hcoef i Hi). simpl. rewrite (lookup_cycle_var m n i j Hi Hj). reflexivity.
Qed.

Lemma row_sum_ok m n i :
  0 <= i < m ->
  row_sum
    (map created_entry
       (combine (seq 0 (length (machine_worker_pairs m n)))
                (machine_worker_pairs m n))) n i
  = Ok (Quicksum (map (fun j => Var (cycle_var n i j)) (range n))).
Proof.
  intros Hi. unfold row_sum.
  rewrite (mapM_ok _ (fun j => Var (cycle_var n i j))); [reflexivity|].
  intros j Hj. apply CoveringDesignsProofs.in_range in Hj.
  rewrite (lookup_cycle_var m n i j Hi Hj). reflexivity.
Qed.

(** Claim C2. Without symmetry handling, the model built for an instance
    of [m] machines and [n] workers is the described one: a non-negative
    integer variable [x[i,j]] per machine and worker and a non-negative
    continuous variable [z]; the constraints [z >= sum_i alpha[i]*x[i,j]]
    for each worker, [sum_j x[i,j] == d[i]] for each machine and
    [sum_i t[i]*x[i,j] <= total_hours] for each worker, and no other; the
    objective minimizes [z]. *)
Theorem plain_model_is_the_described_one name m n alpha d t total_hours inst :
  NoiseDosage_init name m n alpha d t total_hours = Ok inst ->
  generate_noise_dosage inst false = Ok (described_model inst).
Proof.
  intros Hinit. apply NoiseDosage_init_ok in Hinit.
  destruct Hinit as (-> & Halpha & Hd & Ht).
  unfold generate_noise_dosage, described_model. cbn [NoiseDosageModel.name
    NoiseDosageModel.m NoiseDosageModel.n NoiseDosageModel.alpha NoiseDosageModel.d
    NoiseDosageModel.t NoiseDosageModel.total_hours].
  rewrite add_cycle_vars_spec. cbn [new_model vars conss objective problemName app length].
  unfold addVar. cbn [vars conss objective problemName app].
  rewrite length_map, length_combine, length_seq, Nat.min_id, length_pairs.
  fold (dosage_var m n).
  rewrite (add_conss_ok _ _
    (fun j => mkConstraint None (Var (dosage_var m n)) GE
       (Quicksum (map (fun i => Scale (Float (nth (Z.to_nat i) alpha float_zero))
                                      (Var (cycle_var n i j))) (range m))))).
  2:{ intros j Hj. apply CoveringDesignsProofs.in_range in Hj.
      rewrite <- length_pairs.
      rewrite (weighted_column_ok m n _
                 (fun i => Float (nth (Z.to_nat i) alpha float_zero)) j Hj);
        [reflexivity|].
      intros i Hi. rewrite (at_index_ok alpha i float_zero) by lia. reflexivity. }
  cbn [bind vars conss objective problemName app].
  rewrite (add_conss_ok _ _
    (fun i => mkConstraint None
       (Quicksum (map (fun j => Var (cycle_var n i j)) (range n)))
       EQ (Const (Int (nth (Z.to_nat i) d 0))))).
  2:{ intros i Hi. apply CoveringDesignsProofs.in_range in Hi.
      rewrite <- length_pairs. rewrite (row_sum_ok m n i Hi). cbn [bind].
      rewrite (at_index_ok d i 0) by lia. reflexivity. }
  cbn [bind vars conss objective problemName app].
  rewrite (add_conss_ok _ _
    (fun j => mkConstraint None
       (Quicksum (map (fun i => Scale (Float (nth (Z.to_nat i) t float_zero))
                                      (Var (cycle_var n i j))) (range m)))
       LE (Const (Int total_hours)))).
  2:{ intros j Hj. apply CoveringDesignsProofs.in_range in Hj.
      rewrite <- length_pairs.
      rewrite (weighted_column_ok m n _
                 (fun i => Float (nth (Z.to_nat i) t float_zero)) j Hj);
        [reflexivity|].
      intros i Hi. rewrite (at_index_ok t i float_zero) by lia. reflexivity. }
  cbn [bind vars conss objective problemName app setObjective].
  rewrite <- length_pairs, created_vars_described, <- app_assoc. reflexivity.
Qed.

Lemma plain_model_witness :
  let alpha := [float_one; float_half] in
  let t := [float_two; float_one] in
  generate_noise_dosage (mkNoiseDosage "w"%string 2 3 alpha [4; 5] t 8) false
  = Ok (described_model (mkNoiseDosage "w"%string 2 3 alpha [4; 5] t 8)).
Proof.
  intros alpha t.
  apply (plain_model_is_the_described_one "w"%string 2 3 alpha [4; 5] t 8).
  reflexivity.
Defined.

End NoiseDosageProofs.

(* ===================================================================== *)
(** * Part X. Properties of noise_dosage/data_generator.py                *)
(* ===================================================================== *)

Module DataGeneratorProofs.
Import Py PyStr PyFloat NoiseDosageModel DataGenerator.

Local Open Scope Z_scope.

Section Determinism.

Variable rng : Type.
Variable Random : Z -> rng.
Variable randint : Z -> Z -> rng -> Z * rng.
Variable random : rng -> float * rng.
Variable NormalDist : Type.
Variable NormalDist_new : num -> num -> result NormalDist.
Variable inv_cdf : NormalDist -> float -> result float.

Local Abbreviation resample' := (resample rng random NormalDist inv_cdf).
Local Abbreviation draw_floats' := (draw_floats rng random NormalDist inv_cdf).
Local Abbreviation generate_instance' :=
  (generate_instance rng Random randint random NormalDist NormalDist_new inv_cdf).

(** A resampling loop that has ended within [fuel] draws ends the same way
    with more. *)
Lemma resample_more_fuel fuel : forall fuel' dist rgen r,
  (fuel <= fuel')%nat ->
  resample' fuel dist rgen = Some r -> resample' fuel' dist rgen = Some r.
Proof.
  induction fuel as [|fuel IH]; intros [|fuel'] dist rgen r Hle; simpl;
    try discriminate; try lia.
  destruct (random rgen) as [p rgen'].
  destruct (inv_cdf dist p) as [ret|e]; [|auto].
  destruct (float_ltb ret float_zero); [|auto].
  apply IH. lia.
Qed.

Lemma draw_floats_more_fuel fuel fuel' dist count : forall rgen r,
  (fuel <= fuel')%nat ->
  draw_floats' fuel dist count rgen = Some r ->
  draw_floats' fuel' dist count rgen = Some r.
Proof.
  induction count as [|count IH]; intros rgen r Hle; simpl; [auto|].
  destruct (resample' fuel dist rgen) as [[[x rgen']|e]|] eqn:Hr; try discriminate.
  - rewrite (resample_more_fuel _ _ _ _ _ Hle Hr).
    destruct (draw_floats' fuel dist count rgen') as [[[xs rgen'']|e]|] eqn:Hd;
      try discriminate; rewrite (IH _ _ Hle Hd); auto.
  - rewrite (resample_more_fuel _ _ _ _ _ Hle Hr). auto.
Qed.

Lemma generate_instance_more_fuel fuel fuel' n_machines n_workers worker_hours seed w r :
  (fuel <= fuel')%nat ->
  generate_instance' fuel n_machines n_workers worker_hours seed w = Some r ->
  generate_instance' fuel' n_machines n_workers worker_hours seed w = Some r.
Proof.
  intros Hle. unfold generate_instance.
  destruct (prepare _ _ _ _ _ _ _ _ _) as [[[d dist] rgen]|e]; [|auto].
  destruct (draw_floats' fuel dist _ rgen) as [[[t rgen']|e]|] eqn:Ht; try discriminate.
  - rewrite (draw_floats_more_fuel _ _ _ _ _ _ Hle Ht).
    destruct (NormalDist_new (Int 18) (Int 4)) as [dist'|e]; [|auto].
    destruct (draw_floats' fuel dist' _ rgen') as [[[alpha rgen'']|e]|] eqn:Ha;
      try discriminate; rewrite (draw_floats_more_fuel _ _ _ _ _ _ Hle Ha); auto.
  - rewrite (draw_floats_more_fuel _ _ _ _ _ _ Hle Ht). auto.
Qed.

(** The interpreter state is neither read nor changed. *)
Lemma generate_instance_frame fuel n_machines n_workers worker_hours seed w w' :
  generate_instance' fuel n_machines n_workers worker_hours seed w'
  = option_map (fun rw => (fst rw, w'))
      (generate_instance' fuel n_machines n_workers worker_hours seed w).
Proof.
  unfold generate_instance.
  destruct (prepare _ _ _ _ _ _ _ _ _) as [[[d dist] rgen]|e]; [|reflexivity].
  destruct (draw_floats _ _ _ _ fuel dist _ rgen) as [[[t rgen']|e]|];
    try reflexivity.
  destruct (NormalDist_new (Int 18) (Int 4)) as [dist'|e]; [|reflexivity].
  destruct (draw_floats _ _ _ _ fuel dist' _ rgen') as [[[alpha rgen'']|e]|];
    reflexivity.
Qed.

(** Claim C4. Two calls of [generate_instance] with the same
    [(n_machines, n_workers, worker_hours, seed)] that return give the same
    result, with the same name, [d], [t], [alpha] and [total_hours],
    whatever the state of the global random generator at either call; and
    they leave that state as it was, since every number is drawn from
    [random.Random(seed)]. *)
Theorem generate_instance_deterministic
    fuel1 fuel2 n_machines n_workers worker_hours seed w1 w2 r1 r2 w1' w2' :
  generate_instance rng Random randint random NormalDist NormalDist_new inv_cdf
    fuel1 n_machines n_workers worker_hours seed w1 = Some (r1, w1') ->
  generate_instance rng Random randint random NormalDist NormalDist_new inv_cdf
    fuel2 n_machines n_workers worker_hours seed w2 = Some (r2, w2') ->
  r1 = r2 /\ w1' = w1 /\ w2' = w2.
Proof.
  intros H1 H2.
  apply (generate_instance_more_fuel _ (Nat.max fuel1 fuel2)) in H1; [|lia].
  apply (generate_instance_more_fuel _ (Nat.max fuel1 fuel2)) in H2; [|lia].
  pose proof (generate_instance_frame (Nat.max fuel1 fuel2) n_machines n_workers
                worker_hours seed w1 w2) as F2.
  pose proof (generate_instance_frame (Nat.max fuel1 fuel2) n_machines n_workers
                worker_hours seed w1 w1) as F1.
  rewrite H1 in F1, F2. rewrite H2 in F2. simpl in F1, F2.
  inversion F1; inversion F2; subst. auto.
Qed.

End Determinism.

Local Abbreviation counter_run fuel w :=
  (generate_instance Z (fun seed => seed) counter_randint counter_random
                     unit flat_dist flat_inv_cdf fuel 2 3 480 7 w).

Lemma generate_instance_deterministic_witness :
  exists r, counter_run 1%nat (mkInterpreter Z 0) = Some (r, mkInterpreter Z 0) /\
            counter_run 5%nat (mkInterpreter Z 99) = Some (r, mkInterpreter Z 99).
Proof.
  destruct (counter_run 1%nat (mkInterpreter Z 0)) as [[r1 w1]|] eqn:E1;
    [|exfalso; revert E1; vm_compute; discriminate].
  destruct (counter_run 5%nat (mkInterpreter Z 99)) as [[r2 w2]|] eqn:E2;
    [|exfalso; revert E2; vm_compute; discriminate].
  destruct (generate_instance_deterministic Z (fun seed => seed) counter_randint
              counter_random unit flat_dist flat_inv_cdf 1%nat 5%nat 2 3 480 7
              (mkInterpreter Z 0) (mkInterpreter Z 99) r1 r2 w1 w2 E1 E2)
    as (E & E' & E'').
  subst. exists r2. split; reflexivity.
Defined.

End DataGeneratorProofs.

(* ===================================================================== *)
(** * Part XI. Properties of Python strings and integers as text          *)
(* ===================================================================== *)

Module PyStrProofs.
Import Py PyStr.

Local Open Scope string_scope.
Local Open Scope Z_scope.
Local Notation "s +++ t" := (String.append s t) (at level 60, right associativity).

(** ** Characters *)

Lemma isdigit_range c :
  isdigit c = true <-> (48 <= nat_of_ascii c <= 57)%nat.
Proof.
  unfold isdigit. rewrite andb_true_iff, !Nat.leb_le. tauto.
Qed.

Lemma isspace_range c :
  isspace c = true <->
  ((9 <= nat_of_ascii c <= 13) \/ (28 <= nat_of_ascii c <= 32)
   \/ nat_of_ascii c = 133 \/ nat_of_ascii c = 160)%nat.
Proof.
  unfold isspace. rewrite !orb_true_iff, !andb_true_iff, !Nat.leb_le, !Nat.eqb_eq.
  tauto.
Qed.

Lemma digit_not_space c : isdigit c = true -> isspace c = false.
Proof.
  intros H. apply isdigit_range in H.
  destruct (isspace c) eqn:E; [|reflexivity].
  apply isspace_range in E. lia.
Qed.

Lemma nat_of_digit_char d :
  0 <= d <= 9 -> nat_of_ascii (digit_char d) = (48 + Z.to_nat d)%nat.
Proof.
  intros H. unfold digit_char. apply nat_ascii_embedding. lia.
Qed.

Lemma isdigit_digit_char d : 0 <= d <= 9 -> isdigit (digit_char d) = true.
Proof.
  intros H. apply isdigit_range. rewrite nat_of_digit_char by assumption. lia.
Qed.

Lemma digit_value_digit_char d : 0 <= d <= 9 -> digit_value (digit_char d) = d.
Proof.
  intros H. unfold digit_value. rewrite nat_of_digit_char by assumption. lia.
Qed.

Lemma eqb_not_digit c c' :
  isdigit c' = false -> isdigit c = true -> Ascii.eqb c c' = false.
Proof.
  intros H' H. destruct (Ascii.eqb_spec c c'); [congruence|reflexivity].
Qed.

(** ** Strings *)

Lemma append_nil_r s : s +++ "" = s.
Proof. induction s; simpl; congruence. Qed.

Lemma append_assoc s t u : (s +++ t) +++ u = s +++ (t +++ u).
Proof. induction s; simpl; congruence. Qed.

Lemma all_chars_app p s t :
  all_chars p (s +++ t) = all_chars p s && all_chars p t.
Proof.
  induction s as [|c s IH]; simpl; [reflexivity|].
  rewrite IH, andb_assoc. reflexivity.
Qed.

Lemma all_chars_weaken (p q : ascii -> bool) s :
  (forall c, p c = true -> q c = true) ->
  all_chars p s = true -> all_chars q s = true.
Proof.
  intros Hpq. induction s as [|c s IH]; simpl; [auto|].
  rewrite !andb_true_iff. intros (Hc & Hs). auto.
Qed.

Lemma is_token_cons c r :
  is_token (String c r) = negb (isspace c) && all_chars (fun c => negb (isspace c)) r.
Proof. reflexivity. Qed.

(** ** [strip] *)

Lemma rstrip_plain s :
  all_chars (fun c => negb (isspace c)) s = true -> rstrip s = s.
Proof.
  induction s as [|c r IH]; simpl; [reflexivity|].
  rewrite andb_true_iff, negb_true_iff. intros (Hc & Hr).
  rewrite (IH Hr), Hc. destruct r; reflexivity.
Qed.

Lemma lstrip_plain s :
  all_chars (fun c => negb (isspace c)) s = true -> lstrip s = s.
Proof.
  destruct s as [|c r]; simpl; [reflexivity|].
  rewrite andb_true_iff, negb_true_iff. intros (-> & _). reflexivity.
Qed.

Lemma strip_plain s :
  all_chars (fun c => negb (isspace c)) s = true -> strip s = s.
Proof.
  intros H. unfold strip. rewrite (lstrip_plain s H). apply rstrip_plain. assumption.
Qed.

(** ** [split] *)

Lemma split_lstrip s : split (lstrip s) = split s.
Proof.
  induction s as [|c r IH]; [reflexivity|].
  simpl lstrip. destruct (isspace c) eqn:E; [|reflexivity].
  rewrite IH. simpl. rewrite E. reflexivity.
Qed.

Lemma rstrip_head c r c' r' : rstrip (String c r) = String c' r' -> c' = c.
Proof.
  simpl. destruct (rstrip r); [destruct (isspace c)|]; intros E; inversion E; reflexivity.
Qed.

Lemma split_rstrip s : split (rstrip s) = split s.
Proof.
  induction s as [|c r IH]; [reflexivity|].
  simpl rstrip.
  destruct (rstrip r) as [|c1 r1] eqn:Hr.
  - (* nothing but blanks after [c] *)
    simpl in IH. destruct (isspace c) eqn:Ec.
    + simpl. rewrite Ec. assumption.
    + simpl. rewrite Ec. destruct r as [|c' r']; [reflexivity|].
      rewrite <- IH. destruct (isspace c'); reflexivity.
  - destruct r as [|c' r']; [discriminate|].
    assert (c1 = c') by (eapply rstrip_head; eassumption). subst c1.
    change (split (String c (String c' r1))) with
      (if isspace c then split (String c' r1)
       else if isspace c' then String c "" :: split (String c' r1)
       else match split (String c' r1) with
            | tok :: toks => String c tok :: toks
            | [] => [String c ""]
            end).
    rewrite IH. reflexivity.
Qed.

Lemma split_strip s : split (strip s) = split s.
Proof. unfold strip. rewrite split_rstrip. apply split_lstrip. Qed.

(** A token followed by a blank is the first field. *)
Lemma split_token_blank tok sp rest :
  is_token tok = true -> isspace sp = true ->
  split (tok +++ String sp rest) = tok :: split rest.
Proof.
  intros Htok Hsp. destruct tok as [|c r]; [discriminate|].
  rewrite is_token_cons in Htok. apply andb_true_iff in Htok.
  destruct Htok as (Hc & Hr). apply negb_true_iff in Hc.
  revert c Hc. induction r as [|c' r IH]; intros c Hc.
  - simpl. rewrite Hc, Hsp. simpl. 
    destruct rest as [|c2 r2]; [reflexivity|]. reflexivity.
  - simpl in Hr. apply andb_true_iff in Hr. destruct Hr as (Hc' & Hr).
    apply negb_true_iff in Hc'.
    change (split (String c (String c' r) +++ String sp rest)) with
      (if isspace c then split (String c' r +++ String sp rest)
       else if isspace c' then String c "" :: split (String c' r +++ String sp rest)
       else match split (String c' r +++ String sp rest) with
            | tok :: toks => String c tok :: toks
            | [] => [String c ""]
            end).
    rewrite Hc, Hc', (IH Hr c' Hc'). reflexivity.
Qed.

Lemma split_blank sp : isspace sp = true -> split (String sp "") = [].
Proof. intros H. simpl. rewrite H. reflexivity. Qed.

Lemma split_token tok : is_token tok = true -> split tok = [tok].
Proof.
  intros Htok. destruct tok as [|c r]; [discriminate|].
  rewrite is_token_cons in Htok. apply andb_true_iff in Htok.
  destruct Htok as (Hc & Hr). apply negb_true_iff in Hc.
  revert c Hc. induction r as [|c' r IH]; intros c Hc.
  - simpl. rewrite Hc. reflexivity.
  - simpl in Hr. apply andb_true_iff in Hr. destruct Hr as (Hc' & Hr).
    apply negb_true_iff in Hc'.
    change (split (String c (String c' r))) with
      (if isspace c then split (String c' r)
       else if isspace c' then String c "" :: split (String c' r)
       else match split (String c' r) with
            | tok :: toks => String c tok :: toks
            | [] => [String c ""]
            end).
    rewrite Hc, Hc', (IH Hr c' Hc'). reflexivity.
Qed.

(** The fields of a written line are the items that were joined. *)
Lemma split_join_line toks sp :
  Forall (fun tok => is_token tok = true) toks -> isspace sp = true ->
  split (join " " toks +++ String sp "") = toks.
Proof.
  intros Htoks Hsp. induction Htoks as [|tok toks Htok Htoks IH].
  - simpl. rewrite Hsp. reflexivity.
  - destruct toks as [|tok' toks'].
    + simpl. rewrite (split_token_blank tok sp "" Htok Hsp). reflexivity.
    + change (join " " (tok :: tok' :: toks'))
        with (tok +++ " " +++ join " " (tok' :: toks')).
      rewrite append_assoc. 
      change ((" " +++ join " " (tok' :: toks')) +++ String sp "")
        with (String " " (join " " (tok' :: toks') +++ String sp "")).
      rewrite (split_token_blank tok " " _ Htok eq_refl), IH. reflexivity.
Qed.

(** ** Lines *)

Lemma universal_newlines_plain s :
  all_chars (fun c => negb (Ascii.eqb c carriage_return)) s = true ->
  universal_newlines s = s.
Proof.
  induction s as [|c r IH]; simpl; [reflexivity|].
  rewrite andb_true_iff, negb_true_iff. intros (-> & Hr).
  rewrite (IH Hr). reflexivity.
Qed.

Lemma lines_of_line l rest :
  all_chars (fun c => negb (Ascii.eqb c newline)) l = true ->
  lines_of (l +++ String newline rest) = (l +++ String newline "") :: lines_of rest.
Proof.
  induction l as [|c r IH]; simpl.
  - intros _. reflexivity.
  - rewrite andb_true_iff, negb_true_iff. intros (-> & Hr).
    rewrite (IH Hr). reflexivity.
Qed.

(** ** Decimal digits *)

Lemma decimal_value_app s : forall acc t,
  decimal_value acc (s +++ t) = decimal_value (decimal_value acc s) t.
Proof. induction s as [|c r IH]; intros acc t; simpl; auto. Qed.

Lemma digits_onto_acc fuel : forall n acc,
  digits_onto fuel n acc = digits_onto fuel n "" +++ acc.
Proof.
  induction fuel as [|fuel IH]; intros n acc; simpl; [reflexivity|].
  destruct (n <? 10); [reflexivity|].
  rewrite (IH _ (String _ acc)), (IH _ (String _ "")), append_assoc. reflexivity.
Qed.

Lemma digits_onto_fuel f1 : forall f2 n acc,
  0 <= n < 10 ^ Z.of_nat (S f1) -> 0 <= n < 10 ^ Z.of_nat (S f2) ->
  digits_onto (S f1) n acc = digits_onto (S f2) n acc.
Proof.
  induction f1 as [|f1 IH]; intros f2 n acc H1 H2.
  - simpl in H1. simpl. destruct (Z.ltb_spec n 10); [reflexivity|lia].
  - destruct f2 as [|f2].
    + simpl in H2. simpl. destruct (Z.ltb_spec n 10); [reflexivity|lia].
    + cbn [digits_onto]. destruct (Z.ltb_spec n 10); [reflexivity|].
      rewrite (Nat2Z.inj_succ (S f1)), Z.pow_succ_r in H1 by lia.
      rewrite (Nat2Z.inj_succ (S f2)), Z.pow_succ_r in H2 by lia.
      apply IH; split; try (apply Z.div_pos; lia);
        apply Z.div_lt_upper_bound; lia.
Qed.

Lemma pow2_le_pow10 k : 0 <= k -> 2 ^ k <= 10 ^ k.
Proof. intros H. apply Z.pow_le_mono_l. lia. Qed.

Lemma str_of_nonneg_fuel n :
  0 <= n -> n < 10 ^ Z.of_nat (S (Z.to_nat (Z.log2 n))).
Proof.
  intros H. rewrite Nat2Z.inj_succ, Z2Nat.id by apply Z.log2_nonneg.
  destruct (Z.eq_dec n 0) as [->|]; [reflexivity|].
  pose proof (Z.log2_spec n ltac:(lia)) as (_ & Hlt).
  pose proof (pow2_le_pow10 (Z.succ (Z.log2 n)) ltac:(pose proof (Z.log2_nonneg n); lia)).
  lia.
Qed.

Lemma str_of_nonneg_digit n :
  0 <= n < 10 -> str_of_nonneg n = String (digit_char n) "".
Proof.
  intros H. unfold str_of_nonneg. simpl.
  rewrite Z.mod_small by lia.
  destruct (Z.ltb_spec n 10); [reflexivity|lia].
Qed.

Lemma str_of_nonneg_step n :
  10 <= n ->
  str_of_nonneg n = str_of_nonneg (n / 10) +++ String (digit_char (n mod 10)) "".
Proof.
  intros H. unfold str_of_nonneg at 1. cbn [digits_onto].
  destruct (Z.ltb_spec n 10); [lia|].
  rewrite digits_onto_acc. f_equal.
  assert (0 <= n / 10) by (apply Z.div_pos; lia).
  assert (0 < Z.log2 n) by (apply Z.log2_pos; lia).
  replace (Z.to_nat (Z.log2 n)) with (S (Z.to_nat (Z.log2 n - 1))) by lia.
  apply digits_onto_fuel.
  - pose proof (str_of_nonneg_fuel n ltac:(lia)) as Hf.
    replace (Z.to_nat (Z.log2 n)) with (S (Z.to_nat (Z.log2 n - 1))) in Hf by lia.
    rewrite (Nat2Z.inj_succ (S _)), Z.pow_succ_r in Hf by lia.
    split; [assumption|]. apply Z.div_lt_upper_bound; lia.
  - split; [assumption|]. apply str_of_nonneg_fuel. assumption.
Qed.

(** Induction on a number along its decimal digits. *)
Lemma decimal_induction (P : Z -> Prop) :
  (forall n, 0 <= n < 10 -> P n) ->
  (forall n, 10 <= n -> P (n / 10) -> P n) ->
  forall n, 0 <= n -> P n.
Proof.
  intros Hbase Hstep n Hn.
  assert (H : forall k, forall n, 0 <= n < 10 ^ Z.of_nat k -> P n).
  { induction k as [|k IH]; intros n' Hn'.
    - apply Hbase. simpl in Hn'. lia.
    - destruct (Z_lt_ge_dec n' 10); [apply Hbase; lia|].
      apply Hstep; [lia|]. apply IH.
      rewrite Nat2Z.inj_succ, Z.pow_succ_r in Hn' by lia.
      split; [apply Z.div_pos; lia|apply Z.div_lt_upper_bound; lia]. }
  apply (H (S (Z.to_nat (Z.log2 n)))). split; [assumption|].
  apply str_of_nonneg_fuel. assumption.
Qed.

Lemma str_of_nonneg_digits n :
  0 <= n -> all_chars isdigit (str_of_nonneg n) = true.
Proof.
  revert n. apply decimal_induction.
  - intros n H. rewrite str_of_nonneg_digit by assumption. cbn [all_chars].
    rewrite isdigit_digit_char by lia. reflexivity.
  - intros n H IH. rewrite str_of_nonneg_step, all_chars_app, IH by assumption.
    cbn [all_chars andb]. rewrite isdigit_digit_char; [reflexivity|].
    pose proof (Z.mod_pos_bound n 10). lia.
Qed.

Lemma str_of_nonneg_not_empty n : str_of_nonneg n <> "".
Proof.
  unfold str_of_nonneg. simpl. destruct (n <? 10); [discriminate|].
  rewrite digits_onto_acc. destruct (digits_onto _ _ ""); discriminate.
Qed.

Lemma decimal_value_str n :
  0 <= n -> decimal_value 0 (str_of_nonneg n) = n.
Proof.
  revert n. apply decimal_induction.
  - intros n H. rewrite str_of_nonneg_digit by assumption. cbn [decimal_value].
    rewrite digit_value_digit_char; lia.
  - intros n H IH. rewrite str_of_nonneg_step, decimal_value_app, IH by assumption.
    cbn [decimal_value].
    rewrite digit_value_digit_char by (pose proof (Z.mod_pos_bound n 10); lia).
    pose proof (Z.div_mod n 10). lia.
Qed.

Lemma length_append s t : String.length (s +++ t) = (String.length s + String.length t)%nat.
Proof. induction s; simpl; congruence. Qed.

(** A number of [k] digits is written with [k] characters. *)
Lemma str_of_nonneg_length k : forall n,
  10 ^ Z.of_nat k <= n < 10 ^ Z.of_nat (S k) ->
  String.length (str_of_nonneg n) = S k.
Proof.
  induction k as [|k IH]; intros n H.
  - rewrite str_of_nonneg_digit; [reflexivity|]. simpl in H. lia.
  - rewrite (Nat2Z.inj_succ (S k)), Z.pow_succ_r in H by lia.
    rewrite (Nat2Z.inj_succ k), Z.pow_succ_r in H by lia.
    assert (0 < 10 ^ Z.of_nat k) by (apply Z.pow_pos_nonneg; lia).
    rewrite str_of_nonneg_step, length_append by lia.
    rewrite IH; [simpl; lia|].
    rewrite (Nat2Z.inj_succ k), Z.pow_succ_r by lia.
    split; [apply Z.div_le_lower_bound; lia|apply Z.div_lt_upper_bound; lia].
Qed.

(** ** Reading digits *)

Lemma take_digits_digits ds : forall rest acc k b,
  all_chars isdigit ds = true ->
  take_digits (ds +++ rest) acc k b
  = take_digits rest (decimal_value acc ds) (k + String.length ds)
      (match ds with "" => b | _ => true end)%string.
Proof.
  induction ds as [|c r IH]; intros rest acc k b H; simpl.
  - rewrite Nat.add_0_r. reflexivity.
  - simpl in H. apply andb_true_iff in H. destruct H as (Hc & Hr).
    rewrite Hc, (IH rest _ _ _ Hr).
    replace (S k + String.length r)%nat with (k + S (String.length r))%nat by lia.
    destruct r; reflexivity.
Qed.

Lemma take_digits_end rest acc k :
  ends_digits rest = true -> take_digits rest acc k true = Some (acc, k, rest).
Proof.
  destruct rest as [|c r]; simpl; [reflexivity|].
  rewrite andb_true_iff, !negb_true_iff. intros (-> & ->). reflexivity.
Qed.

Lemma take_digits_str n rest :
  0 <= n -> ends_digits rest = true ->
  take_digits (str_of_nonneg n +++ rest) 0 0 false
  = Some (n, String.length (str_of_nonneg n), rest).
Proof.
  intros Hn Hrest.
  rewrite take_digits_digits by (apply str_of_nonneg_digits; assumption).
  rewrite decimal_value_str by assumption.
  pose proof (str_of_nonneg_not_empty n).
  destruct (str_of_nonneg n) eqn:E; [congruence|].
  apply take_digits_end. assumption.
Qed.

Lemma parse_unsigned_str n : 0 <= n -> parse_unsigned (str_of_nonneg n) = Some n.
Proof.
  intros Hn. unfold parse_unsigned.
  rewrite <- (append_nil_r (str_of_nonneg n)) at 1.
  rewrite take_digits_str by auto.
  pose proof (str_of_nonneg_not_empty n).
  destruct (str_of_nonneg n); [congruence|reflexivity].
Qed.

(** ** [int(str(z))] *)

Lemma str_of_nonneg_token n : 0 <= n -> is_token (str_of_nonneg n) = true.
Proof.
  intros Hn. unfold is_token.
  pose proof (str_of_nonneg_not_empty n).
  destruct (String.eqb_spec (str_of_nonneg n) ""); [congruence|]. simpl.
  apply (all_chars_weaken isdigit); [|apply str_of_nonneg_digits; assumption].
  intros c Hc. rewrite digit_not_space by assumption. reflexivity.
Qed.

Lemma str_of_int_token z : is_token (str_of_int z) = true.
Proof.
  unfold str_of_int. destruct (Z.ltb_spec z 0).
  - pose proof (str_of_nonneg_token (- z) ltac:(lia)) as Htok.
    unfold is_token in *. simpl.
    apply andb_true_iff in Htok. apply Htok.
  - apply str_of_nonneg_token. assumption.
Qed.

Lemma token_plain s :
  is_token s = true -> all_chars (fun c => negb (isspace c)) s = true.
Proof. unfold is_token. rewrite andb_true_iff. tauto. Qed.

Lemma take_sign_digit c r :
  isdigit c = true -> take_sign (String c r) = (false, String c r).
Proof.
  intros H. unfold take_sign.
  rewrite !(eqb_not_digit c) by (assumption || reflexivity). reflexivity.
Qed.

(** Writing an integer and reading it back gives the integer. *)
Lemma int_of_str_of_int z : int_of_str (str_of_int z) = Ok z.
Proof.
  unfold int_of_str.
  rewrite (strip_plain _ (token_plain _ (str_of_int_token z))).
  unfold str_of_int. destruct (Z.ltb_spec z 0).
  - simpl. rewrite parse_unsigned_str by lia. f_equal. lia.
  - pose proof (str_of_nonneg_digits z H) as Hd.
    pose proof (str_of_nonneg_not_empty z) as Hne.
    pose proof (parse_unsigned_str z H) as Hp.
    destruct (str_of_nonneg z) as [|c r]; [congruence|].
    simpl in Hd. apply andb_true_iff in Hd.
    rewrite take_sign_digit by apply Hd. rewrite Hp. reflexivity.
Qed.

End PyStrProofs.

(* ===================================================================== *)
(** * Part XII. Properties of Python floats: rounding and text            *)
(* ===================================================================== *)

Module PyFloatProofs.
Import Py PyStr PyFloat PyStrProofs.

Local Open Scope string_scope.
Local Open Scope Z_scope.
Local Notation "s +++ t" := (String.append s t) (at level 60, right associativity).

(** ** Rounding a quotient to an integer *)

Lemma round_ne_div_half n d :
  0 < d -> 2 * Z.abs (round_ne_div n d * d - n) <= d.
Proof.
  intros Hd. unfold round_ne_div.
  pose proof (Z.div_mod n d ltac:(lia)) as E.
  pose proof (Z.mod_pos_bound n d Hd) as Hr.
  destruct (Z.ltb_spec (2 * (n mod d)) d); [lia|].
  destruct (Z.ltb_spec d (2 * (n mod d))); [lia|].
  destruct (Z.even (n / d)); lia.
Qed.

Lemma round_ne_div_nonneg n d : 0 <= n -> 0 < d -> 0 <= round_ne_div n d.
Proof.
  intros Hn Hd. unfold round_ne_div.
  pose proof (Z.div_pos n d Hn Hd).
  destruct (_ <? _); [lia|]. destruct (_ <? _); [lia|]. destruct (Z.even _); lia.
Qed.

(** No integer is nearer to [n / d]. *)
Lemma round_ne_div_nearest n d j :
  0 < d -> Z.abs (round_ne_div n d * d - n) <= Z.abs (j * d - n).
Proof.
  intros Hd. pose proof (round_ne_div_half n d Hd) as H.
  destruct (Z.eq_dec j (round_ne_div n d)) as [->|Hne]; [lia|].
  assert (d <= Z.abs (j * d - round_ne_div n d * d)) by nia.
  lia.
Qed.

Lemma round_ne_div_exact j d : 0 < d -> round_ne_div (j * d) d = j.
Proof.
  intros Hd. pose proof (round_ne_div_nearest (j * d) d j Hd) as H.
  replace (j * d - j * d) with 0 in H by lia. nia.
Qed.

(** A quotient below [b - 1/2] does not round up to [b]. *)
Lemma round_ne_div_below n d b :
  0 < d -> 2 * n < (2 * b - 1) * d -> round_ne_div n d < b.
Proof.
  intros Hd H. pose proof (round_ne_div_half n d Hd). nia.
Qed.

Lemma round_ne_div_le n d b :
  0 < d -> n <= b * d -> round_ne_div n d <= b.
Proof.
  intros Hd H. pose proof (round_ne_div_nearest n d b Hd).
  pose proof (round_ne_div_half n d Hd). nia.
Qed.

Lemma round_ne_div_ge n d b :
  0 < d -> b * d <= n -> b <= round_ne_div n d.
Proof.
  intros Hd H. pose proof (round_ne_div_nearest n d b Hd).
  pose proof (round_ne_div_half n d Hd). nia.
Qed.

(** ** The binary logarithm of a quotient *)

Lemma floor_log2_ratio_spec n d :
  0 < n -> 0 < d ->
  let c := floor_log2_ratio n d in
  (0 <= c -> d * 2 ^ c <= n < d * 2 ^ (c + 1)) /\
  (c < 0 -> d <= n * 2 ^ (- c) /\ n * 2 ^ (- c - 1) < d).
Proof.
  intros Hn Hd. unfold floor_log2_ratio.
  pose proof (Z.log2_spec n Hn) as (Hn1 & Hn2).
  pose proof (Z.log2_spec d Hd) as (Hd1 & Hd2).
  pose proof (Z.log2_nonneg n). pose proof (Z.log2_nonneg d).
  set (ln := Z.log2 n) in *. set (ld := Z.log2 d) in *.
  rewrite Z.pow_succ_r in Hn2, Hd2 by assumption.
  destruct (Z.leb_spec 0 (ln - ld)) as [Hc|Hc].
  - (* n has at least as many bits as d *)
    assert (E : 2 ^ ln = 2 ^ ld * 2 ^ (ln - ld))
      by (rewrite <- Z.pow_add_r by lia; f_equal; lia).
    assert (0 < 2 ^ (ln - ld)) by (apply Z.pow_pos_nonneg; lia).
    assert (0 < 2 ^ ld) by (apply Z.pow_pos_nonneg; lia).
    destruct (Z.leb_spec (d * 2 ^ (ln - ld)) n) as [Hge|Hlt]; cbv zeta.
    + split; [intros _|lia].
      split; [assumption|].
      rewrite Z.pow_add_r by lia. change (2 ^ 1) with 2. nia.
    + destruct (Z.eq_dec (ln - ld) 0) as [E0|Hne].
      * rewrite E0 in *. change (2 ^ 0) with 1 in *. split; [lia|intros _].
        change (- (0 - 1)) with 1. change (- (0 - 1) - 1) with 0.
        change (2 ^ 1) with 2. change (2 ^ 0) with 1. nia.
      * split; [intros _|lia].
        replace (ln - ld - 1 + 1) with (ln - ld) by lia.
        split; [|assumption].
        assert (E' : 2 ^ (ln - ld) = 2 * 2 ^ (ln - ld - 1))
          by (rewrite <- Z.pow_succ_r by lia; f_equal; lia).
        nia.
  - assert (E : 2 ^ ld = 2 ^ ln * 2 ^ (ld - ln))
      by (rewrite <- Z.pow_add_r by lia; f_equal; lia).
    replace (- (ln - ld)) with (ld - ln) by lia.
    assert (E' : 2 ^ (ld - ln) = 2 * 2 ^ (ld - ln - 1))
      by (rewrite <- Z.pow_succ_r by lia; f_equal; lia).
    assert (0 < 2 ^ (ld - ln - 1)) by (apply Z.pow_pos_nonneg; lia).
    assert (0 < 2 ^ ln) by (apply Z.pow_pos_nonneg; lia).
    destruct (Z.leb_spec d (n * 2 ^ (ld - ln))) as [Hge|Hlt]; cbv zeta.
    + split; [lia|intros _].
      replace (- (ln - ld)) with (ld - ln) by lia.
      replace (- (ln - ld) - 1) with (ld - ln - 1) by lia.
      split; [assumption|]. nia.
    + split; [lia|intros _].
      replace (- (ln - ld - 1)) with (ld - ln + 1) by lia.
      replace (ld - ln + 1 - 1) with (ld - ln) by lia.
      split; [|assumption].
      rewrite Z.pow_add_r by lia. change (2 ^ 1) with 2. nia.
Qed.

Lemma valid_finite_bounds s m e :
  valid (S754_finite s m e) = true ->
  Zpos m < 2 ^ 53 /\ -1074 <= e <= 971.
Proof.
  unfold valid, canonical. rewrite !andb_true_iff, Z.ltb_lt, !Z.leb_le. tauto.
Qed.

Lemma valid_representable f :
  valid f = true -> representable (Z.abs (ulps f)).
Proof.
  destruct f as [s|s| |s m e]; intros Hv;
    try (exists 0, 0; split; [lia|]; split; [lia|reflexivity]).
  apply valid_finite_bounds in Hv. destruct Hv as (Hm & He).
  exists (Zpos m), (e + 1074). split; [lia|]. split; [lia|].
  unfold ulps.
  assert (0 < 2 ^ (e + 1074)) by (apply Z.pow_pos_nonneg; lia).
  destruct s; nia.
Qed.

(** ** Rounding to the binary64 grid *)

(** No representable magnitude is nearer to [n / d] than the rounded
    mantissa and exponent. *)
Lemma round_pos_nearest n d u :
  0 < n -> 0 < d -> representable u ->
  let '(m, e) := round_pos n d in
  Z.abs (m * 2 ^ (e + 1074) * d - n * 2 ^ 1074)
  <= Z.abs (u * d - n * 2 ^ 1074).
Proof.
  intros Hn Hd (mu & j & Hmu & Hj & ->). unfold round_pos.
  set (n' := n * 2 ^ 1074).
  assert (Hn' : 0 < n') by (unfold n'; apply Z.mul_pos_pos; [assumption|reflexivity]).
  set (c := floor_log2_ratio n' d).
  set (k := Z.max (c - 52) 0).
  replace (k - 1074 + 1074) with k by lia.
  assert (Hk : 0 <= k) by lia.
  assert (H2k : 0 < 2 ^ k) by (apply Z.pow_pos_nonneg; lia).
  assert (Hdk : 0 < d * 2 ^ k) by lia.
  destruct (Z_le_gt_dec k j) as [Hkj|Hkj].
  - (* [u] lies on the grid of step [2^k] *)
    pose proof (round_ne_div_nearest n' (d * 2 ^ k) (mu * 2 ^ (j - k)) Hdk) as H.
    replace (2 ^ j) with (2 ^ (j - k) * 2 ^ k)
      by (rewrite <- Z.pow_add_r by lia; f_equal; lia).
    replace (mu * (2 ^ (j - k) * 2 ^ k) * d) with (mu * 2 ^ (j - k) * (d * 2 ^ k)) by ring.
    replace (round_ne_div n' (d * 2 ^ k) * 2 ^ k * d)
      with (round_ne_div n' (d * 2 ^ k) * (d * 2 ^ k)) by ring.
    exact H.
  - (* [u] is finer than the grid, so it is below [2^52 * 2^k <= n / d] *)
    assert (Hc : k = c - 52) by lia.
    pose proof (floor_log2_ratio_spec n' d Hn' Hd) as (Hpos & _).
    fold c in Hpos. specialize (Hpos ltac:(lia)). destruct Hpos as (Hlow & _).
    assert (E : 2 ^ c = 2 ^ 52 * 2 ^ k)
      by (rewrite <- Z.pow_add_r by lia; f_equal; lia).
    pose proof (round_ne_div_nearest n' (d * 2 ^ k) (2 ^ 52) Hdk) as H.
    assert (Hu : mu * 2 ^ j < 2 ^ c).
    { assert (2 ^ j * 2 <= 2 ^ k).
      { replace (2 ^ k) with (2 ^ j * 2 ^ (k - j))
          by (rewrite <- Z.pow_add_r by lia; f_equal; lia).
        assert (2 ^ 1 <= 2 ^ (k - j)) by (apply Z.pow_le_mono_r; lia).
        assert (0 < 2 ^ j) by (apply Z.pow_pos_nonneg; lia).
        change (2 ^ 1) with 2 in *. nia. }
      assert (0 < 2 ^ j) by (apply Z.pow_pos_nonneg; lia).
      change (2 ^ 53) with (2 ^ 52 * 2) in Hmu. change (2 ^ 52) with 4503599627370496 in *.
      nia. }
    replace (round_ne_div n' (d * 2 ^ k) * 2 ^ k * d)
      with (round_ne_div n' (d * 2 ^ k) * (d * 2 ^ k)) by ring.
    assert (0 <= mu * 2 ^ j) by (apply Z.mul_nonneg_nonneg; [lia|apply Z.pow_nonneg; lia]).
    assert (mu * 2 ^ j * d < d * 2 ^ c) by nia.
    replace (2 ^ 52 * (d * 2 ^ k)) with (d * 2 ^ c) in H by (rewrite E; ring).
    lia.
Qed.

(** The rounded mantissa has at most 53 bits, all of them used above the
    smallest exponent. *)
Lemma round_pos_range n d :
  0 < n -> 0 < d ->
  let '(m, e) := round_pos n d in
  0 <= m <= 2 ^ 53 /\ -1074 <= e /\ (-1074 < e -> 2 ^ 52 <= m).
Proof.
  intros Hn Hd. unfold round_pos.
  set (n' := n * 2 ^ 1074).
  assert (Hn' : 0 < n') by (unfold n'; apply Z.mul_pos_pos; [assumption|reflexivity]).
  set (c := floor_log2_ratio n' d).
  set (k := Z.max (c - 52) 0).
  assert (H2k : 0 < 2 ^ k) by (apply Z.pow_pos_nonneg; lia).
  assert (Hdk : 0 < d * 2 ^ k) by lia.
  pose proof (floor_log2_ratio_spec n' d Hn' Hd) as (Hpos & Hneg). fold c in Hpos, Hneg.
  split; [split|split].
  - apply round_ne_div_nonneg; lia.
  - apply round_ne_div_le; [assumption|].
    destruct (Z_le_gt_dec 0 c) as [Hc|Hc].
    + destruct (Hpos Hc) as (_ & Hup).
      assert (2 ^ (c + 1) <= 2 ^ 53 * 2 ^ k).
      { rewrite <- Z.pow_add_r by lia. apply Z.pow_le_mono_r; lia. }
      nia.
    + destruct (Hneg ltac:(lia)) as (_ & Hup).
      replace k with 0 by lia. change (2 ^ 0) with 1.
      assert (1 <= 2 ^ (- c - 1)) by (apply (Z.pow_le_mono_r 2 0); lia).
      change (2 ^ 53) with 9007199254740992. nia.
  - lia.
  - intros Hk. assert (Hc : k = c - 52) by lia.
    apply round_ne_div_ge; [assumption|].
    destruct (Hpos ltac:(lia)) as (Hlow & _).
    replace (2 ^ 52 * (d * 2 ^ k)) with (d * 2 ^ c); [assumption|].
    replace c with (52 + k) by lia. rewrite Z.pow_add_r by lia. ring.
Qed.

(** What [make_float] packs stands for [m * 2^e], unless it overflows. *)
Lemma make_float_ulps s m e :
  0 <= m -> -1074 <= e ->
  is_finite (make_float s m e) = true ->
  ulps (make_float s m e) = (if s then -1 else 1) * (m * 2 ^ (e + 1074)).
Proof.
  intros Hm He. unfold make_float.
  destruct (Z.eqb_spec m 0) as [->|Hm0]; [simpl; intros _; destruct s; lia|].
  destruct (Z.eqb_spec m (2 ^ 53)) as [->|Hm53].
  - destruct (Z.ltb_spec 971 (e + 1)); [discriminate|]. intros _.
    unfold ulps. rewrite Z2Pos.id by reflexivity.
    replace (e + 1 + 1074) with (1 + (e + 1074)) by lia.
    rewrite Z.pow_add_r by lia. change (2 ^ 53) with (2 ^ 52 * 2 ^ 1). ring.
  - destruct (Z.ltb_spec 971 e); [discriminate|]. intros _.
    unfold ulps. rewrite Z2Pos.id by lia. reflexivity.
Qed.

Lemma make_float_finite s m e :
  0 <= m <= 2 ^ 53 -> e <= 971 -> (e = 971 -> m < 2 ^ 53) ->
  is_finite (make_float s m e) = true.
Proof.
  intros Hm He Hm53. unfold make_float.
  destruct (Z.eqb_spec m 0); [reflexivity|].
  destruct (Z.eqb_spec m (2 ^ 53)).
  - destruct (Z.ltb_spec 971 (e + 1)); [lia|reflexivity].
  - destruct (Z.ltb_spec 971 e); [lia|reflexivity].
Qed.

Lemma canonical_intro m e :
  0 < m < 2 ^ 53 -> -1074 <= e <= 971 -> (2 ^ 52 <= m \/ e = -1074) ->
  canonical (Z.to_pos m) e = true.
Proof.
  intros Hm He Hfull. unfold canonical. rewrite Z2Pos.id by lia.
  apply andb_true_intro. split; [apply andb_true_intro; split;
    [apply andb_true_intro; split|]|].
  - apply Z.ltb_lt. lia.
  - apply Z.leb_le. lia.
  - apply Z.leb_le. lia.
  - apply orb_true_iff. destruct Hfull; [left; apply Z.leb_le|right; apply Z.eqb_eq];
      assumption.
Qed.

(** What [make_float] packs is a valid float. *)
Lemma make_float_valid s m e :
  0 <= m <= 2 ^ 53 -> -1074 <= e -> (-1074 < e -> 2 ^ 52 <= m) ->
  valid (make_float s m e) = true.
Proof.
  intros Hm He Hfull. unfold make_float.
  destruct (Z.eqb_spec m 0); [reflexivity|].
  destruct (Z.eqb_spec m (2 ^ 53)) as [->|].
  - destruct (Z.ltb_spec 971 (e + 1)); [reflexivity|].
    apply canonical_intro; [split; reflexivity|lia|left; reflexivity].
  - destruct (Z.ltb_spec 971 e); [reflexivity|].
    apply canonical_intro; [lia|lia|].
    destruct (Z.eq_dec e (-1074)); [right; assumption|left; apply Hfull; lia].
Qed.

(** ** From units of [2^-1074] to rationals *)

Lemma ulp_scale_pos : Zpos ulp_scale = 2 ^ 1074.
Proof. unfold ulp_scale. rewrite Z2Pos.id; reflexivity. Qed.

Lemma Qpower_2_shift e :
  -1074 <= e -> (2 ^ e == inject_Z (2 ^ (e + 1074)) / inject_Z (2 ^ 1074))%Q.
Proof.
  intros He.
  assert (E : (2 ^ e == 2 ^ (e + 1074) * 2 ^ (-1074))%Q).
  { rewrite <- Qpower_plus by discriminate.
    replace (e + 1074 + -1074) with e by lia. reflexivity. }
  rewrite E, !Zpower_Qpower by lia.
  unfold Qdiv. apply Qmult_comp; [reflexivity|].
  apply (Qpower_opp 2 1074).
Qed.

Lemma F2Q_ulps f :
  valid f = true -> (F2Q f == ulps f # ulp_scale)%Q.
Proof.
  destruct f as [s|s| |s m e]; intros Hv; try reflexivity.
  apply valid_finite_bounds in Hv. destruct Hv as (_ & He).
  unfold F2Q, ulps.
  rewrite (Qpower_2_shift e) by lia.
  rewrite (Qmake_Qdiv _ ulp_scale), ulp_scale_pos.
  destruct s.
  - rewrite <- inject_Z_opp.
    replace (-1 * (Z.pos m * 2 ^ (e + 1074))) with (- Z.pos m * 2 ^ (e + 1074)) by ring.
    rewrite inject_Z_mult. field. discriminate.
  - replace (1 * (Z.pos m * 2 ^ (e + 1074))) with (Z.pos m * 2 ^ (e + 1074)) by ring.
    rewrite inject_Z_mult. field. discriminate.
Qed.

Lemma Qabs_diff_scaled (a g n : Z) (T d : positive) :
  Z.abs (a * Zpos d - n * Zpos T) <= Z.abs (g * Zpos d - n * Zpos T) ->
  (Qabs ((a # T) - (n # d)) <= Qabs ((g # T) - (n # d)))%Q.
Proof.
  intros H. unfold Qle, Qabs, Qminus, Qplus, Qopp. cbn [Qnum Qden].
  rewrite !Pos2Z.inj_mul.
  replace (a * Zpos d + - n * Zpos T) with (a * Zpos d - n * Zpos T) by ring.
  replace (g * Zpos d + - n * Zpos T) with (g * Zpos d - n * Zpos T) by ring.
  apply Z.mul_le_mono_nonneg_r; [lia|assumption].
Qed.

(** ** Rounding gives a nearest float *)

Lemma round_binary64_ulps s n d :
  0 < n -> 0 < d ->
  is_finite (round_binary64 s n d) = true ->
  let '(m, e) := round_pos n d in
  ulps (round_binary64 s n d) = (if s then -1 else 1) * (m * 2 ^ (e + 1074)).
Proof.
  intros Hn Hd. unfold round_binary64.
  destruct (Z.eqb_spec n 0); [lia|].
  pose proof (round_pos_range n d Hn Hd) as Hr.
  destruct (round_pos n d) as [m e]. destruct Hr as (Hm & He & _).
  apply make_float_ulps; lia.
Qed.

Lemma round_binary64_valid s n d :
  0 <= n -> 0 < d -> valid (round_binary64 s n d) = true.
Proof.
  intros Hn Hd. unfold round_binary64.
  destruct (Z.eqb_spec n 0); [reflexivity|].
  pose proof (round_pos_range n d ltac:(lia) Hd) as Hr.
  destruct (round_pos n d) as [m e]. destruct Hr as (Hm & He & Hfull).
  apply make_float_valid; assumption.
Qed.

(** No valid float is nearer to the value than the float it rounds to. *)
Theorem round_binary64_nearest s n d g :
  0 < n -> 0 < d -> valid g = true ->
  is_finite (round_binary64 s n d) = true ->
  (Qabs (F2Q (round_binary64 s n d) - signed_ratio s n d)
   <= Qabs (F2Q g - signed_ratio s n d))%Q.
Proof.
  intros Hn Hd Hg Hfin.
  rewrite (F2Q_ulps g Hg).
  rewrite (F2Q_ulps _ (round_binary64_valid s n d ltac:(lia) Hd)).
  pose proof (round_binary64_ulps s n d Hn Hd Hfin) as Hu.
  pose proof (round_pos_nearest n d (Z.abs (ulps g)) Hn Hd (valid_representable g Hg)) as Hnear.
  pose proof (round_pos_nearest n d 0 Hn Hd) as Hzero.
  destruct (round_pos n d) as [m e]. rewrite Hu.
  specialize (Hzero ltac:(exists 0, 0; split; [lia|split; [lia|reflexivity]])).
  unfold signed_ratio.
  destruct s; apply Qabs_diff_scaled; rewrite Z2Pos.id by assumption;
    rewrite ulp_scale_pos; lia.
Qed.

(** ** The decimal logarithm of a quotient *)

Lemma ilog10_up_spec fuel : forall n d,
  0 < d <= n -> n < d * 10 ^ Z.of_nat fuel ->
  let k := ilog10_up fuel n d in
  0 <= k /\ d * 10 ^ k <= n < d * 10 ^ (k + 1).
Proof.
  induction fuel as [|fuel IH]; intros n d Hd Hn.
  - simpl in Hn. lia.
  - cbn [ilog10_up]. rewrite Nat2Z.inj_succ, Z.pow_succ_r in Hn by lia.
    destruct (Z.leb_spec (10 * d) n) as [Hge|Hlt]; cbv zeta.
    + destruct (IH n (10 * d) ltac:(lia) ltac:(lia)) as (Hk & Hlo & Hhi).
      set (k := ilog10_up fuel n (10 * d)) in *.
      split; [lia|].
      rewrite !Z.pow_add_r, Z.pow_1_r by lia.
      rewrite Z.pow_add_r, Z.pow_1_r in Hhi by lia.
      change (10 ^ 1) with 10. lia.
    + change (10 ^ 0) with 1. change (10 ^ (0 + 1)) with 10. lia.
Qed.

Lemma ilog10_down_spec fuel : forall n d,
  0 < n < d -> d <= n * 10 ^ Z.of_nat fuel ->
  let k := ilog10_down fuel n d in
  k < 0 /\ d <= n * 10 ^ (- k) /\ n * 10 ^ (- k - 1) < d.
Proof.
  induction fuel as [|fuel IH]; intros n d Hd Hn.
  - simpl in Hn. lia.
  - cbn [ilog10_down]. rewrite Nat2Z.inj_succ, Z.pow_succ_r in Hn by lia.
    destruct (Z.leb_spec d (10 * n)) as [Hge|Hlt]; cbv zeta.
    + change (10 ^ (- -1)) with 10. change (10 ^ (- -1 - 1)) with 1. lia.
    + destruct (IH (10 * n) d ltac:(lia) ltac:(lia)) as (Hk & Hlo & Hhi).
      set (k := ilog10_down fuel (10 * n) d) in *.
      split; [lia|].
      replace (- (-1 + k)) with (1 + - k) by lia.
      replace (1 + - k - 1) with (1 + (- k - 1)) by lia.
      rewrite !Z.pow_add_r by lia. change (10 ^ 1) with 10. lia.
Qed.

Lemma ilog10_fuel a b :
  0 < a -> 0 < b -> a < b * 10 ^ Z.of_nat (S (Z.to_nat (Z.log2 (Z.max a b)))).
Proof.
  intros Ha Hb.
  pose proof (str_of_nonneg_fuel_bound := Z.log2_spec (Z.max a b) ltac:(lia)).
  pose proof (Z.log2_nonneg (Z.max a b)).
  rewrite Nat2Z.inj_succ, Z2Nat.id by assumption.
  assert (2 ^ Z.succ (Z.log2 (Z.max a b)) <= 10 ^ Z.succ (Z.log2 (Z.max a b)))
    by (apply Z.pow_le_mono_l; lia).
  nia.
Qed.

Lemma ilog10_spec n d :
  0 < n -> 0 < d ->
  let E := ilog10 n d in
  (0 <= E -> d * 10 ^ E <= n < d * 10 ^ (E + 1)) /\
  (E < 0 -> d <= n * 10 ^ (- E) /\ n * 10 ^ (- E - 1) < d).
Proof.
  intros Hn Hd. unfold ilog10.
  destruct (Z.leb_spec d n) as [Hge|Hlt]; cbv zeta.
  - destruct (ilog10_up_spec _ n d ltac:(lia) (ilog10_fuel n d Hn Hd)) as (Hk & H).
    split; [auto|lia].
  - pose proof (ilog10_fuel d n Hd Hn) as Hf. rewrite Z.max_comm in Hf.
    destruct (ilog10_down_spec (S (Z.to_nat (Z.log2 (Z.max n d)))) n d
                ltac:(lia) ltac:(lia)) as (Hk & H).
    split; [lia|auto].
Qed.

(** ** Seven significant digits *)

Lemma decimal_round_raw n d :
  decimal_round n d
  = if raw_digits n d =? 10 ^ 7 then (10 ^ 6, ilog10 n d + 1)
    else (raw_digits n d, ilog10 n d).
Proof. reflexivity. Qed.

Lemma raw_digits_range n d :
  0 < n -> 0 < d -> 10 ^ 6 <= raw_digits n d <= 10 ^ 7.
Proof.
  intros Hn Hd. unfold raw_digits.
  pose proof (ilog10_spec n d Hn Hd) as (Hpos & Hneg).
  set (E := ilog10 n d) in *.
  destruct (Z.leb_spec E 6) as [H6|H6].
  - assert (Hp : 0 < 10 ^ (6 - E)) by (apply Z.pow_pos_nonneg; lia).
    destruct (Z_le_gt_dec 0 E) as [HE|HE].
    + destruct (Hpos HE) as (Hlo & Hhi).
      assert (E6 : 10 ^ 6 = 10 ^ E * 10 ^ (6 - E))
        by (rewrite <- Z.pow_add_r by lia; f_equal; lia).
      assert (E7 : 10 ^ 7 = 10 ^ (E + 1) * 10 ^ (6 - E))
        by (rewrite <- Z.pow_add_r by lia; f_equal; lia).
      split; [apply round_ne_div_ge|apply round_ne_div_le]; try assumption.
      * rewrite E6. nia.
      * rewrite E7. nia.
    + destruct (Hneg ltac:(lia)) as (Hlo & Hhi).
      assert (E6 : 10 ^ (6 - E) = 10 ^ 6 * 10 ^ (- E))
        by (rewrite <- Z.pow_add_r by lia; f_equal; lia).
      assert (E7 : 10 ^ 7 * 10 ^ (- E - 1) = 10 ^ (6 - E))
        by (rewrite <- Z.pow_add_r by lia; f_equal; lia).
      assert (0 < 10 ^ (- E - 1)) by (apply Z.pow_pos_nonneg; lia).
      split; [apply round_ne_div_ge|apply round_ne_div_le]; try assumption.
      * rewrite E6. nia.
      * rewrite <- E7. nia.
  - destruct (Hpos ltac:(lia)) as (Hlo & Hhi).
    assert (Hp : 0 < 10 ^ (E - 6)) by (apply Z.pow_pos_nonneg; lia).
    assert (E6 : 10 ^ E = 10 ^ 6 * 10 ^ (E - 6))
      by (rewrite <- Z.pow_add_r by lia; f_equal; lia).
    assert (E7 : 10 ^ (E + 1) = 10 ^ 7 * 10 ^ (E - 6))
      by (rewrite <- Z.pow_add_r by lia; f_equal; lia).
    split; [apply round_ne_div_ge|apply round_ne_div_le]; try nia.
Qed.

Lemma decimal_round_digits n d :
  0 < n -> 0 < d ->
  let '(D, E) := decimal_round n d in 10 ^ 6 <= D < 10 ^ 7.
Proof.
  intros Hn Hd. rewrite decimal_round_raw.
  pose proof (raw_digits_range n d Hn Hd).
  destruct (Z.eqb_spec (raw_digits n d) (10 ^ 7)); [split; reflexivity|lia].
Qed.

(** ** The error of seven significant digits *)

(** Rounding a quotient of at least [10^6] to an integer is exact or moves
    it by less than half a millionth of itself. *)
Lemma round_relative_error a b :
  0 < b -> 10 ^ 6 * b <= a ->
  round_ne_div a b * b = a \/
  2 * 10 ^ 6 * Z.abs (round_ne_div a b * b - a) < a.
Proof.
  intros Hb Ha.
  destruct (Z.eq_dec a (10 ^ 6 * b)) as [->|Hne].
  - left. rewrite round_ne_div_exact by assumption. reflexivity.
  - right. pose proof (round_ne_div_half a b Hb). lia.
Qed.

(** The same error, seen from any fraction [n' / d'] equal to the rounded
    digits times the power of ten [pn / pd]. *)
Lemma relative_error_transfer n d pn pd r n' d' :
  0 < d -> 0 < pn -> 0 < pd -> 0 < d' ->
  (r * (d * pn) = n * pd \/
   2 * 10 ^ 6 * Z.abs (r * (d * pn) - n * pd) < n * pd) ->
  n' * pd = r * pn * d' ->
  n' * d = n * d' \/ 2 * 10 ^ 6 * Z.abs (n' * d - n * d') < n * d'.
Proof.
  intros Hd Hpn Hpd Hd' Herr Hval.
  assert (E : (n' * d - n * d') * pd = d' * (r * (d * pn) - n * pd)) by nia.
  destruct Herr as [Hx|Hlt].
  - left. nia.
  - right.
    assert (Z.abs (n' * d - n * d') * pd = d' * Z.abs (r * (d * pn) - n * pd)).
    { rewrite <- (Z.abs_eq pd) at 1 by lia. rewrite <- Z.abs_mul, E, Z.abs_mul.
      rewrite (Z.abs_eq d') by lia. reflexivity. }
    apply (Z.mul_lt_mono_pos_r pd); [assumption|].
    replace (2 * 10 ^ 6 * Z.abs (n' * d - n * d') * pd)
      with (2 * 10 ^ 6 * (Z.abs (n' * d - n * d') * pd)) by ring.
    rewrite H. nia.
Qed.

Lemma pow10_fraction_pos E0 :
  let '(pn, pd) := pow10_fraction E0 in 0 < pn /\ 0 < pd.
Proof.
  unfold pow10_fraction. destruct (Z.leb_spec E0 6);
    (split; [|]); try lia; apply Z.pow_pos_nonneg; lia.
Qed.

Lemma raw_digits_fraction n d :
  let '(pn, pd) := pow10_fraction (ilog10 n d) in
  raw_digits n d = round_ne_div (n * pd) (d * pn).
Proof.
  unfold pow10_fraction, raw_digits.
  destruct (Z.leb_spec (ilog10 n d) 6).
  - rewrite Z.mul_1_r. reflexivity.
  - rewrite Z.mul_1_r. reflexivity.
Qed.

Lemma raw_digits_lower n d :
  0 < n -> 0 < d ->
  let '(pn, pd) := pow10_fraction (ilog10 n d) in
  10 ^ 6 * (d * pn) <= n * pd.
Proof.
  intros Hn Hd. unfold pow10_fraction.
  pose proof (ilog10_spec n d Hn Hd) as (Hpos & Hneg).
  set (E := ilog10 n d) in *.
  destruct (Z.leb_spec E 6) as [H6|H6].
  - destruct (Z_le_gt_dec 0 E) as [HE|HE].
    + destruct (Hpos HE) as (Hlo & _).
      assert (E6 : 10 ^ 6 = 10 ^ E * 10 ^ (6 - E))
        by (rewrite <- Z.pow_add_r by lia; f_equal; lia).
      assert (0 < 10 ^ (6 - E)) by (apply Z.pow_pos_nonneg; lia).
      rewrite E6. nia.
    + destruct (Hneg ltac:(lia)) as (Hlo & _).
      assert (E6 : 10 ^ (6 - E) = 10 ^ 6 * 10 ^ (- E))
        by (rewrite <- Z.pow_add_r by lia; f_equal; lia).
      rewrite E6. nia.
  - destruct (Hpos ltac:(lia)) as (Hlo & _).
    assert (E6 : 10 ^ E = 10 ^ 6 * 10 ^ (E - 6))
      by (rewrite <- Z.pow_add_r by lia; f_equal; lia).
    rewrite E6 in Hlo. nia.
Qed.

(** What is written has the value of the raw digits, carry or not. *)
Lemma written_fraction_value n d :
  0 < n -> 0 < d ->
  let '(D, E) := decimal_round n d in
  let '(n', d') := written_fraction D E in
  let '(pn, pd) := pow10_fraction (ilog10 n d) in
  0 < d' /\ n' * pd = raw_digits n d * pn * d'.
Proof.
  intros Hn Hd. rewrite decimal_round_raw.
  unfold written_fraction, pow10_fraction.
  set (E := ilog10 n d). set (r := raw_digits n d).
  destruct (Z.eqb_spec r (10 ^ 7)) as [Hr|Hr].
  - (* a carry: 10^6 with the next exponent *)
    rewrite Hr.
    destruct (Z.leb_spec 0 (E + 1 - 6)) as [H5|H5];
      destruct (Z.leb_spec E 6) as [H6|H6]; try lia.
    + split; [lia|].
      assert (E = 5 \/ E = 6) as [-> | ->] by lia; reflexivity.
    + split; [lia|].
      replace (E + 1 - 6) with (1 + (E - 6)) by lia.
      rewrite Z.pow_add_r by lia. change (10 ^ 7) with (10 ^ 6 * 10 ^ 1). ring.
    + split; [apply Z.pow_pos_nonneg; lia|].
      replace (6 - E) with (1 + (6 - (E + 1))) by lia.
      rewrite Z.pow_add_r by lia. change (10 ^ 7) with (10 ^ 6 * 10 ^ 1). ring.
  - destruct (Z.leb_spec 0 (E - 6)) as [H5|H5];
      destruct (Z.leb_spec E 6) as [H6|H6]; try lia;
      (split; [first [lia | apply Z.pow_pos_nonneg; lia]|]); try ring.
    assert (E = 6) as -> by lia. change (10 ^ (6 - 6)) with 1. ring.
Qed.

(** Seven digits are exact or off by less than half a millionth. *)
Lemma decimal_round_error n d :
  0 < n -> 0 < d ->
  let '(D, E) := decimal_round n d in
  let '(n', d') := written_fraction D E in
  0 < d' /\
  (n' * d = n * d' \/ 2 * 10 ^ 6 * Z.abs (n' * d - n * d') < n * d').
Proof.
  intros Hn Hd.
  pose proof (written_fraction_value n d Hn Hd) as Hval.
  pose proof (raw_digits_fraction n d) as Hraw.
  pose proof (raw_digits_lower n d Hn Hd) as Hlow.
  pose proof (pow10_fraction_pos (ilog10 n d)) as Hp.
  destruct (decimal_round n d) as [D E].
  destruct (written_fraction D E) as [n' d'].
  destruct (pow10_fraction (ilog10 n d)) as [pn pd].
  destruct Hval as (Hd' & Hval). destruct Hp as (Hpn & Hpd).
  split; [assumption|].
  apply (relative_error_transfer n d pn pd (raw_digits n d) n' d'); try assumption.
  rewrite Hraw. apply round_relative_error; [lia|assumption].
Qed.

(** ** Overflow *)

Lemma floor_log2_ratio_upper n d b :
  0 < n -> 0 < d -> 0 <= b -> n < d * 2 ^ b -> floor_log2_ratio n d < b.
Proof.
  intros Hn Hd Hb H.
  pose proof (floor_log2_ratio_spec n d Hn Hd) as (Hpos & _).
  set (c := floor_log2_ratio n d) in *.
  destruct (Z_lt_ge_dec c b) as [|Hge]; [assumption|exfalso].
  destruct (Hpos ltac:(lia)) as (Hlo & _).
  assert (2 ^ b <= 2 ^ c) by (apply Z.pow_le_mono_r; lia).
  nia.
Qed.

(** A value below the threshold rounds to a finite float. *)
Lemma round_binary64_finite s n d :
  0 <= n -> 0 < d -> n < overflow_threshold * d ->
  is_finite (round_binary64 s n d) = true.
Proof.
  intros Hn Hd Hlt. unfold round_binary64.
  destruct (Z.eqb_spec n 0); [reflexivity|].
  pose proof (round_pos_range n d ltac:(lia) Hd) as Hr.
  unfold round_pos in *.
  set (n' := n * 2 ^ 1074) in *.
  assert (Hn' : 0 < n') by (unfold n'; apply Z.mul_pos_pos; [lia|reflexivity]).
  set (c := floor_log2_ratio n' d) in *.
  set (k := Z.max (c - 52) 0) in *.
  destruct Hr as (Hm & He & _).
  assert (Hthr : overflow_threshold * 2 ^ 1074 = (2 ^ 54 - 1) * 2 ^ 2044) by reflexivity.
  assert (Hn'lt : n' < (2 ^ 54 - 1) * 2 ^ 2044 * d).
  { unfold n'. rewrite <- Hthr. 
    assert (0 < 2 ^ 1074) by reflexivity. nia. }
  assert (Hc : c < 2098).
  { assert ((2 ^ 54 - 1) * 2 ^ 2044 < 2 ^ 2098) by reflexivity.
    apply floor_log2_ratio_upper; [assumption|assumption|lia|nia]. }
  apply make_float_finite; [assumption|lia|].
  intros Hk. assert (Ek : k = 2045) by lia.
  apply round_ne_div_below.
  - rewrite Ek. assert (0 < 2 ^ 2045) by reflexivity. lia.
  - rewrite Ek.
    assert (E2 : (2 * 2 ^ 53 - 1) * 2 ^ 2045 = 2 * ((2 ^ 54 - 1) * 2 ^ 2044)) by reflexivity.
    replace ((2 * 2 ^ 53 - 1) * (d * 2 ^ 2045)) with ((2 * 2 ^ 53 - 1) * 2 ^ 2045 * d) by ring.
    rewrite E2. lia.
Qed.

(** ** What [format_e] writes reads back close to the float *)

Lemma magnitude_fraction_pos m e :
  let '(n, d) := magnitude_fraction m e in 0 < n /\ 0 < d.
Proof.
  unfold magnitude_fraction. destruct (Z.leb_spec 0 e).
  - assert (0 < 2 ^ e) by (apply Z.pow_pos_nonneg; lia). split; lia.
  - assert (0 < 2 ^ (- e)) by (apply Z.pow_pos_nonneg; lia). split; lia.
Qed.

Lemma magnitude_fraction_max s m e :
  valid (S754_finite s m e) = true ->
  let '(n, d) := magnitude_fraction m e in n <= max_float_value * d.
Proof.
  intros Hv. apply valid_finite_bounds in Hv. destruct Hv as (Hm & He).
  unfold magnitude_fraction, max_float_value. destruct (Z.leb_spec 0 e).
  - assert (2 ^ e <= 2 ^ 971) by (apply Z.pow_le_mono_r; lia).
    assert (0 < 2 ^ e) by (apply Z.pow_pos_nonneg; lia).
    rewrite Z.mul_1_r. apply Z.mul_le_mono_nonneg; lia.
  - assert (0 < 2 ^ (- e)) by (apply Z.pow_pos_nonneg; lia).
    assert (2 ^ 53 <= (2 ^ 53 - 1) * 2 ^ 971) by (vm_compute; discriminate).
    nia.
Qed.

Lemma F2Q_magnitude s m e :
  let '(n, d) := magnitude_fraction m e in
  (F2Q (S754_finite s m e) == signed_ratio s n d)%Q.
Proof.
  unfold magnitude_fraction, F2Q, signed_ratio.
  change 2%Q with (inject_Z 2).
  destruct (Z.leb_spec 0 e).
  - change (Z.to_pos 1) with 1%positive.
    rewrite <- Zpower_Qpower by assumption.
    destruct s.
    + rewrite <- inject_Z_opp, <- inject_Z_mult. unfold inject_Z.
      replace (- Z.pos m * 2 ^ e) with (- (Z.pos m * 2 ^ e)) by ring. reflexivity.
    + rewrite <- inject_Z_mult. reflexivity.
  - assert (Hp : 0 < 2 ^ (- e)) by (apply Z.pow_pos_nonneg; lia).
    assert (E : (inject_Z 2 ^ e == / inject_Z (2 ^ (- e)))%Q).
    { rewrite Zpower_Qpower by lia. rewrite <- Qpower_opp.
      replace (- - e) with e by lia. reflexivity. }
    rewrite E.
    destruct s.
    + rewrite (Qmake_Qdiv (- Z.pos m)), Z2Pos.id by assumption.
      rewrite inject_Z_opp. reflexivity.
    + rewrite (Qmake_Qdiv (Z.pos m)), Z2Pos.id by assumption. reflexivity.
Qed.

Lemma ilog10_upper n d b :
  0 < n -> 0 < d -> 0 <= b -> n < d * 10 ^ b -> ilog10 n d < b.
Proof.
  intros Hn Hd Hb H.
  pose proof (ilog10_spec n d Hn Hd) as (Hpos & _).
  set (E := ilog10 n d) in *.
  destruct (Z_lt_ge_dec E b) as [|Hge]; [assumption|exfalso].
  destruct (Hpos ltac:(lia)) as (Hlo & _).
  assert (10 ^ b <= 10 ^ E) by (apply Z.pow_le_mono_r; lia).
  nia.
Qed.

(** The decimal written for a valid float is below the overflow
    threshold: the largest float is written 1.797693e+308. *)
Lemma written_below_overflow n d :
  0 < n -> 0 < d -> n <= max_float_value * d ->
  let '(D, E) := decimal_round n d in
  let '(n', d') := written_fraction D E in
  n' < overflow_threshold * d'.
Proof.
  intros Hn Hd Hmax.
  pose proof (raw_digits_range n d Hn Hd) as Hr.
  assert (HE0 : ilog10 n d < 309).
  { apply ilog10_upper; [assumption|assumption|lia|].
    assert (max_float_value < 10 ^ 309) by reflexivity. nia. }
  assert (Htop : ilog10 n d = 308 -> raw_digits n d <= 1797693).
  { intros E308. unfold raw_digits. rewrite E308.
    change (308 <=? 6) with false. cbv iota.
    assert (0 < 10 ^ (308 - 6)) by reflexivity.
    apply Z.lt_succ_r. apply round_ne_div_below; [lia|].
    assert (2 * max_float_value < (2 * Z.succ 1797693 - 1) * 10 ^ (308 - 6)) by reflexivity.
    nia. }
  rewrite decimal_round_raw.
  set (E0 := ilog10 n d) in *. set (r := raw_digits n d) in *.
  assert (Hbig : 10 ^ 7 * 10 ^ 301 < overflow_threshold) by reflexivity.
  assert (Htop' : 1797693 * 10 ^ 302 < overflow_threshold) by reflexivity.
  assert (H7 : 10 ^ 7 < overflow_threshold) by reflexivity.
  assert (H6 : 10 ^ 6 < 10 ^ 7) by reflexivity.
  destruct (Z.eqb_spec r (10 ^ 7)) as [Hc|Hc]; unfold written_fraction.
  - (* carry *)
    assert (E0 < 308) by (destruct (Z.eq_dec E0 308) as [E|]; [specialize (Htop E)|]; lia).
    destruct (Z.leb_spec 0 (E0 + 1 - 6)).
    + assert (10 ^ (E0 + 1 - 6) <= 10 ^ 302) by (apply Z.pow_le_mono_r; lia).
      assert (0 < 10 ^ (E0 + 1 - 6)) by (apply Z.pow_pos_nonneg; lia).
      change (10 ^ 302) with (10 * 10 ^ 301) in *. nia.
    + assert (0 < 10 ^ (6 - (E0 + 1))) by (apply Z.pow_pos_nonneg; lia). nia.
  - destruct (Z.leb_spec 0 (E0 - 6)).
    + destruct (Z.eq_dec E0 308) as [E|].
      * specialize (Htop E). rewrite E. change (10 ^ (308 - 6)) with (10 ^ 302). nia.
      * assert (10 ^ (E0 - 6) <= 10 ^ 301) by (apply Z.pow_le_mono_r; lia).
        assert (0 < 10 ^ (E0 - 6)) by (apply Z.pow_pos_nonneg; lia).
        nia.
    + assert (0 < 10 ^ (6 - E0)) by (apply Z.pow_pos_nonneg; lia). nia.
Qed.

Lemma signed_ratio_close s n d n' d' :
  0 < n -> 0 < d -> 0 < d' ->
  (n' * d = n * d' \/ 2 * 10 ^ 6 * Z.abs (n' * d - n * d') < n * d') ->
  (signed_ratio s n' d' == signed_ratio s n d \/
   Qabs (signed_ratio s n' d' - signed_ratio s n d)
   < (1 # 2000000) * Qabs (signed_ratio s n d))%Q.
Proof.
  intros Hn Hd Hd' [Heq|Hlt].
  - left. unfold signed_ratio, Qeq. destruct s; cbn [Qnum Qden];
      rewrite !Z2Pos.id by assumption; lia.
  - right. unfold signed_ratio, Qlt, Qabs, Qminus, Qplus, Qopp, Qmult.
    destruct s; cbn [Qnum Qden]; rewrite !Pos2Z.inj_mul, !Z2Pos.id by assumption.
    + replace (- n' * d + - - n * d') with (- (n' * d - n * d')) by ring.
      rewrite Z.abs_opp, Z.abs_opp, (Z.abs_eq n) by lia.
      change (Z.pos 2000000) with (2 * 10 ^ 6). nia.
    + replace (n' * d + - n * d') with (n' * d - n * d') by ring.
      rewrite (Z.abs_eq n) by lia.
      change (Z.pos 2000000) with (2 * 10 ^ 6). nia.
Qed.

Theorem seven_digits_close s m e :
  valid (S754_finite s m e) = true ->
  float_close (S754_finite s m e) (read_back s m e).
Proof.
  intros Hv. unfold read_back, float_close.
  pose proof (magnitude_fraction_pos m e) as Hpos.
  pose proof (magnitude_fraction_max s m e Hv) as Hmax.
  pose proof (F2Q_magnitude s m e) as Hx.
  destruct (magnitude_fraction m e) as [n d]. destruct Hpos as (Hn & Hd).
  pose proof (decimal_round_error n d Hn Hd) as Herr.
  pose proof (written_below_overflow n d Hn Hd Hmax) as Hover.
  pose proof (decimal_round_digits n d Hn Hd) as Hdig.
  destruct (decimal_round n d) as [D E].
  assert (Hn' : 0 < fst (written_fraction D E)).
  { unfold written_fraction. destruct (Z.leb_spec 0 (E - 6)); simpl; [|lia].
    assert (0 < 10 ^ (E - 6)) by (apply Z.pow_pos_nonneg; lia).
    assert (0 < 10 ^ 6) by reflexivity. nia. }
  destruct (written_fraction D E) as [n' d']. simpl in Hn'.
  destruct Herr as (Hd' & Herr).
  assert (Hfin : is_finite (round_binary64 s n' d') = true)
    by (apply round_binary64_finite; [lia|assumption|assumption]).
  split; [assumption|].
  pose proof (round_binary64_nearest s n' d' (S754_finite s m e) Hn' Hd' Hv Hfin) as Hnear.
  pose proof (signed_ratio_close s n d n' d' Hn Hd Hd' Herr) as Hclose.
  assert (HX : ~ (signed_ratio s n d == 0)%Q).
  { unfold signed_ratio, Qeq. destruct s; cbn [Qnum Qden]; lia. }
  rewrite Hx in *.
  set (X := signed_ratio s n d) in *. set (Y := signed_ratio s n' d') in *.
  set (a := F2Q (round_binary64 s n' d')) in *.
  assert (HXpos : (0 < Qabs X)%Q).
  { destruct (Qlt_le_dec 0 (Qabs X)) as [|Hle]; [assumption|exfalso].
    apply HX. apply Qabs_Qle_condition in Hle. lra. }
  destruct Hclose as [Heq|Hlt].
  - (* the digits are exact, and so is the float read back *)
    rewrite Heq in Hnear.
    assert (E0 : (X - X == 0)%Q) by ring. rewrite E0 in Hnear.
    assert (Ha : (Qabs (a - X) == 0)%Q).
    { pose proof (Qabs_nonneg (a - X)). change (Qabs 0) with 0%Q in Hnear. lra. }
    rewrite Ha. lra.
  - assert (Htri : (Qabs (a - X) <= Qabs (a - Y) + Qabs (Y - X))%Q).
    { assert (E1 : (a - X == (a - Y) + (Y - X))%Q) by ring.
      rewrite E1. apply Qabs_triangle. }
    assert (Hsym : (Qabs (X - Y) == Qabs (Y - X))%Q).
    { assert (E2 : (X - Y == - (Y - X))%Q) by ring. rewrite E2. apply Qabs_opp. }
    rewrite Hsym in Hnear. lra.
Qed.

(** ** Reading what [format_e] writes *)

Lemma format_e_finite s m e :
  format_e (S754_finite s m e)
  = let '(n, d) := magnitude_fraction m e in
    let '(D, E) := decimal_round n d in
    sign_str s +++ mantissa_str D +++ String "e" (exponent_str E).
Proof. reflexivity. Qed.

(** The seven digits: a first one and six more. *)
Lemma seven_digits D :
  10 ^ 6 <= D < 10 ^ 7 ->
  exists c0 r6,
    str_of_nonneg D = String c0 r6 /\ isdigit c0 = true /\
    all_chars isdigit r6 = true /\ String.length r6 = 6%nat /\
    decimal_value (digit_value c0) r6 = D.
Proof.
  intros HD.
  pose proof (str_of_nonneg_length 6 D HD) as Hlen.
  pose proof (str_of_nonneg_digits D ltac:(lia)) as Hdig.
  pose proof (decimal_value_str D ltac:(lia)) as Hval.
  destruct (str_of_nonneg D) as [|c0 r6]; [discriminate|].
  exists c0, r6. cbn [all_chars] in Hdig. apply andb_true_iff in Hdig.
  cbn [decimal_value] in Hval. rewrite Z.mul_0_r, Z.add_0_l in Hval.
  simpl in Hlen. repeat split; try tauto. lia.
Qed.

Lemma parse_unsigned_padded n :
  0 <= n -> parse_unsigned (String "0" (str_of_nonneg n)) = Some n.
Proof.
  intros Hn. unfold parse_unsigned. cbn [take_digits].
  change (isdigit "0") with true. cbv iota.
  rewrite <- (append_nil_r (str_of_nonneg n)).
  rewrite take_digits_digits by (apply str_of_nonneg_digits; assumption).
  change (10 * 0 + digit_value "0") with 0.
  rewrite decimal_value_str by assumption.
  destruct (str_of_nonneg n); reflexivity.
Qed.

Lemma parse_exponent E :
  let (eneg, ebody) := take_sign (exponent_str E) in
  match parse_unsigned ebody with
  | Some x => Some (if eneg then - x else x)
  | None => None
  end = Some E.
Proof.
  unfold exponent_str.
  assert (Hp : parse_unsigned
                 (if Z.abs E <? 10 then String "0" (str_of_nonneg (Z.abs E))
                  else str_of_nonneg (Z.abs E)) = Some (Z.abs E)).
  { destruct (Z.abs E <? 10);
      [apply parse_unsigned_padded|apply parse_unsigned_str]; lia. }
  destruct (Z.ltb_spec E 0); cbn [take_sign]; 
    [change (Ascii.eqb "-" "-") with true
    |change (Ascii.eqb "+" "-") with false; change (Ascii.eqb "+" "+") with true];
    cbv iota; rewrite Hp; f_equal; lia.
Qed.

Lemma parse_decimal_written D E :
  10 ^ 6 <= D < 10 ^ 7 ->
  parse_decimal (mantissa_str D +++ String "e" (exponent_str E)) = Some (D, E - 6).
Proof.
  intros HD. destruct (seven_digits D HD) as (c0 & r6 & Hs & Hc0 & Hr6 & Hlen & Hval).
  unfold mantissa_str. rewrite Hs. unfold parse_decimal.
  cbn [String.append take_digits]. rewrite Hc0.
  change (isdigit ".") with false. change (Ascii.eqb "." "_") with false.
  change (Ascii.eqb "." ".") with true. cbv iota. cbn [orb].
  rewrite Z.mul_0_r, Z.add_0_l.
  rewrite take_digits_digits by assumption.
  rewrite Hval, Hlen.
  assert (Hend : take_digits (String "e" (exponent_str E)) D (0 + 6)
                   (match r6 with "" => false | _ => true end)
                 = Some (D, 6%nat, String "e" (exponent_str E))).
  { destruct r6; [discriminate|]. apply take_digits_end. reflexivity. }
  rewrite Hend.
  change (Ascii.eqb "." ".") with true. cbv iota.
  change (1 + 6 =? 0)%nat with false. cbv iota.
  change (Ascii.eqb (lower "e") "e") with true. cbv iota.
  pose proof (parse_exponent E) as Hexp.
  destruct (take_sign (exponent_str E)) as [eneg ebody].
  destruct (parse_unsigned ebody) as [x|]; [|discriminate].
  inversion Hexp as [Hx]. rewrite Hx. reflexivity.
Qed.

Lemma lower_digit c : isdigit c = true -> lower c = c.
Proof.
  intros H. apply isdigit_range in H. unfold lower.
  destruct (Nat.leb_spec 65 (nat_of_ascii c)); [lia|reflexivity].
Qed.

Lemma digits_plain s :
  all_chars isdigit s = true -> all_chars (fun c => negb (isspace c)) s = true.
Proof.
  apply all_chars_weaken. intros c Hc. rewrite digit_not_space by assumption.
  reflexivity.
Qed.

Lemma exponent_str_plain E :
  all_chars (fun c => negb (isspace c)) (exponent_str E) = true.
Proof.
  unfold exponent_str. cbn [all_chars].
  apply andb_true_iff. split.
  - destruct (E <? 0); reflexivity.
  - destruct (Z.abs E <? 10); cbn [all_chars];
      rewrite digits_plain by (apply str_of_nonneg_digits; lia); reflexivity.
Qed.

Lemma mantissa_str_plain D :
  10 ^ 6 <= D < 10 ^ 7 ->
  all_chars (fun c => negb (isspace c)) (mantissa_str D) = true.
Proof.
  intros HD. destruct (seven_digits D HD) as (c0 & r6 & Hs & Hc0 & Hr6 & _).
  unfold mantissa_str. rewrite Hs. cbn [all_chars].
  rewrite (digit_not_space c0 Hc0), (digits_plain r6 Hr6). reflexivity.
Qed.

Lemma written_plain s D E :
  10 ^ 6 <= D < 10 ^ 7 ->
  all_chars (fun c => negb (isspace c))
    (sign_str s +++ mantissa_str D +++ String "e" (exponent_str E)) = true.
Proof.
  intros HD. rewrite !all_chars_app. cbn [all_chars].
  rewrite (mantissa_str_plain D HD), exponent_str_plain.
  destruct s; reflexivity.
Qed.

Lemma mantissa_str_head D :
  10 ^ 6 <= D < 10 ^ 7 ->
  exists c0 r, mantissa_str D = String c0 r /\ isdigit c0 = true.
Proof.
  intros HD. destruct (seven_digits D HD) as (c0 & r6 & Hs & Hc0 & _).
  unfold mantissa_str. rewrite Hs. eauto.
Qed.

(** What is written for a finite float is read as the float nearest to the
    seven digits. *)
Lemma float_of_str_written s D E :
  10 ^ 6 <= D < 10 ^ 7 ->
  float_of_str (sign_str s +++ mantissa_str D +++ String "e" (exponent_str E))
  = Ok (let '(n', d') := written_fraction D E in round_binary64 s n' d').
Proof.
  intros HD. unfold float_of_str.
  rewrite (strip_plain _ (written_plain s D E HD)).
  pose proof (parse_decimal_written D E HD) as Hparse.
  destruct (mantissa_str_head D HD) as (c0 & r & Hm & Hc0).
  set (body := mantissa_str D +++ String "e" (exponent_str E)) in *.
  assert (Hbody : body = String c0 (r +++ String "e" (exponent_str E)))
    by (unfold body; rewrite Hm; reflexivity).
  assert (Hsign : take_sign (sign_str s +++ body) = (s, body)).
  { destruct s; [reflexivity|]. cbn [sign_str String.append].
    rewrite Hbody. apply take_sign_digit. assumption. }
  rewrite Hsign.
  assert (Hname : forall name, String.eqb (lowercase body) (String "i" name) = false
                               /\ String.eqb (lowercase body) (String "n" name) = false).
  { intros name. rewrite Hbody. cbn [lowercase String.eqb].
    rewrite (lower_digit c0 Hc0).
    rewrite !(eqb_not_digit c0) by (assumption || reflexivity). auto. }
  rewrite (proj1 (Hname "nf")), (proj1 (Hname "nfinity")), (proj2 (Hname "an")).
  cbn [orb]. rewrite Hparse. unfold written_fraction.
  replace (- (E - 6)) with (6 - E) by lia.
  destruct (0 <=? E - 6); reflexivity.
Qed.

(** Writing a float and reading it back: a close float. *)
Theorem float_of_str_format_e x :
  valid x = true ->
  exists y, float_of_str (format_e x) = Ok y /\ float_close x y.
Proof.
  intros Hv. destruct x as [s|s| |s m e].
  - exists (S754_zero s). destruct s; split; reflexivity.
  - exists (S754_infinity s). destruct s; split; reflexivity.
  - exists S754_nan. split; reflexivity.
  - exists (read_back s m e). split; [|apply seven_digits_close; assumption].
    rewrite format_e_finite. unfold read_back.
    pose proof (magnitude_fraction_pos m e) as Hpos.
    destruct (magnitude_fraction m e) as [n d]. destruct Hpos as (Hn & Hd).
    pose proof (decimal_round_digits n d Hn Hd) as HD.
    destruct (decimal_round n d) as [D E].
    apply float_of_str_written. assumption.
Qed.

(** What is written for a float is one field. *)
Lemma format_e_token x : is_token (format_e x) = true.
Proof.
  destruct x as [s|s| |s m e]; try (destruct s; reflexivity); try reflexivity.
  rewrite format_e_finite.
  pose proof (magnitude_fraction_pos m e) as Hpos.
  destruct (magnitude_fraction m e) as [n d]. destruct Hpos as (Hn & Hd).
  pose proof (decimal_round_digits n d Hn Hd) as HD.
  destruct (decimal_round n d) as [D E].
  unfold is_token. rewrite (written_plain s D E HD), andb_true_r.
  destruct (mantissa_str_head D HD) as (c0 & r & Hm & _). rewrite Hm.
  destruct s; reflexivity.
Qed.

(** ** Adding one to a float below [2^53] *)







End PyFloatProofs.

(* ===================================================================== *)
(** * Part XIII. Properties of noise_dosage/generate.py: instance files   *)
(* ===================================================================== *)

Module InstanceFileProofs.
Import Py PyStr PyFloat NoiseDosageModel PyStrProofs PyFloatProofs.

Local Open Scope Z_scope.
Local Notation "s +++ t" := (String.append s t) (at level 60, right associativity).

(** ** Lines of fields *)

Lemma line_break_is_space c : is_line_break c = true -> isspace c = true.
Proof.
  unfold is_line_break. rewrite orb_true_iff.
  intros [H|H]; apply Ascii.eqb_eq in H; subst; reflexivity.
Qed.

Lemma token_no_break tok :
  is_token tok = true ->
  all_chars (fun c => negb (is_line_break c)) tok = true.
Proof.
  intros H. apply token_plain in H. revert H. apply all_chars_weaken.
  intros c Hc. destruct (is_line_break c) eqn:E; [|reflexivity].
  apply line_break_is_space in E. rewrite E in Hc. discriminate.
Qed.

Lemma join_no_break toks :
  Forall (fun tok => is_token tok = true) toks ->
  all_chars (fun c => negb (is_line_break c)) (join " " toks) = true.
Proof.
  induction 1 as [|tok toks Htok Htoks IH]; [reflexivity|].
  destruct toks as [|tok' toks'].
  - simpl. apply token_no_break. assumption.
  - change (join " " (tok :: tok' :: toks'))
      with (tok +++ String " " (join " " (tok' :: toks'))).
    rewrite all_chars_app. cbn [all_chars].
    rewrite (token_no_break tok Htok), IH. reflexivity.
Qed.

Lemma no_break_no_newline s :
  all_chars (fun c => negb (is_line_break c)) s = true ->
  all_chars (fun c => negb (Ascii.eqb c newline)) s = true.
Proof.
  apply all_chars_weaken. intros c. unfold is_line_break.
  rewrite !negb_true_iff, orb_false_iff. tauto.
Qed.

Lemma no_break_no_return s :
  all_chars (fun c => negb (is_line_break c)) s = true ->
  all_chars (fun c => negb (Ascii.eqb c carriage_return)) s = true.
Proof.
  apply all_chars_weaken. intros c. unfold is_line_break.
  rewrite !negb_true_iff, orb_false_iff. tauto.
Qed.

Lemma text_of_no_return ls :
  Forall (fun l => all_chars (fun c => negb (is_line_break c)) l = true) ls ->
  all_chars (fun c => negb (Ascii.eqb c carriage_return)) (text_of ls) = true.
Proof.
  induction 1 as [|l rest Hl _ IH]; [reflexivity|].
  cbn [text_of]. rewrite all_chars_app. cbn [all_chars].
  rewrite (no_break_no_return l Hl), IH. reflexivity.
Qed.

Lemma lines_of_text ls :
  Forall (fun l => all_chars (fun c => negb (is_line_break c)) l = true) ls ->
  lines_of (text_of ls) = map (fun l => l +++ String newline EmptyString) ls.
Proof.
  induction 1 as [|l rest Hl _ IH]; [reflexivity|].
  cbn [text_of map]. rewrite lines_of_line by (apply no_break_no_newline; assumption).
  rewrite IH. reflexivity.
Qed.

Lemma readlines_text ls :
  Forall (fun l => all_chars (fun c => negb (is_line_break c)) l = true) ls ->
  readlines (text_of ls) = map (fun l => l +++ String newline EmptyString) ls.
Proof.
  intros H. unfold readlines.
  rewrite (universal_newlines_plain _ (text_of_no_return ls H)).
  apply lines_of_text. assumption.
Qed.

Lemma rstrip_token_blank tok sp :
  is_token tok = true -> isspace sp = true ->
  rstrip (tok +++ String sp EmptyString) = tok.
Proof.
  intros Htok Hsp. destruct tok as [|c r]; [discriminate|].
  rewrite is_token_cons in Htok. apply andb_true_iff in Htok.
  destruct Htok as (Hc & Hr). apply negb_true_iff in Hc.
  revert c Hc. induction r as [|c' r IH]; intros c Hc.
  - simpl. rewrite Hsp, Hc. reflexivity.
  - simpl in Hr. apply andb_true_iff in Hr. destruct Hr as (Hc' & Hr).
    apply negb_true_iff in Hc'.
    change (rstrip (String c (String c' r) +++ String sp EmptyString))
      with (match rstrip (String c' r +++ String sp EmptyString) with
            | EmptyString => if isspace c then EmptyString else String c EmptyString
            | r' => String c r'
            end).
    rewrite (IH Hr c' Hc'). reflexivity.
Qed.

Lemma strip_token_blank tok sp :
  is_token tok = true -> isspace sp = true ->
  strip (tok +++ String sp EmptyString) = tok.
Proof.
  intros Htok Hsp. unfold strip.
  assert (Hl : lstrip (tok +++ String sp EmptyString) = tok +++ String sp EmptyString).
  { destruct tok as [|c r]; [discriminate|].
    rewrite is_token_cons in Htok. apply andb_true_iff in Htok.
    destruct Htok as (Hc & _). apply negb_true_iff in Hc.
    simpl. rewrite Hc. reflexivity. }
  rewrite Hl. apply rstrip_token_blank; assumption.
Qed.

(** The fields of a written line, as the reader splits it. *)
Lemma fields_of_written_line toks :
  Forall (fun tok => is_token tok = true) toks ->
  split (strip (join " " toks +++ os_linesep)) = toks.
Proof.
  intros H. rewrite split_strip. apply split_join_line; [assumption|reflexivity].
Qed.

(** ** Reading back lists of numbers *)

Lemma mapM_int_of_str l : mapM int_of_str (map str_of_int l) = Ok l.
Proof.
  induction l as [|z l IH]; [reflexivity|].
  cbn [map mapM]. rewrite int_of_str_of_int. cbn [bind]. rewrite IH. reflexivity.
Qed.

Lemma mapM_float_of_str l :
  Forall (fun x => valid x = true) l ->
  exists l', mapM float_of_str (map format_e l) = Ok l' /\ Forall2 float_close l l'.
Proof.
  induction 1 as [|x l Hx _ (l' & IH & Hclose)].
  - exists []. split; [reflexivity|constructor].
  - destruct (float_of_str_format_e x Hx) as (y & Hy & Hxy).
    exists (y :: l'). cbn [map mapM]. rewrite Hy. cbn [bind]. rewrite IH.
    split; [reflexivity|constructor; assumption].
Qed.

Lemma tokens_of_ints l : Forall (fun tok => is_token tok = true) (map str_of_int l).
Proof. apply Forall_map, Forall_forall. intros z _. apply str_of_int_token. Qed.

Lemma tokens_of_floats l : Forall (fun tok => is_token tok = true) (map format_e l).
Proof. apply Forall_map, Forall_forall. intros x _. apply format_e_token. Qed.

(** What [write] puts on a fresh stream: five lines. *)
Lemma write_text inst :
  write inst EmptyString
  = text_of [ join " " [str_of_int (m inst); str_of_int (n inst)];
              join " " (map format_e (alpha inst));
              join " " (map str_of_int (d inst));
              join " " (map format_e (t inst));
              join " " [str_of_int (total_hours inst)] ].
Proof.
  unfold write, fh_write, os_linesep. cbn [text_of join String.concat String.append].
  repeat (rewrite !append_assoc; cbn [String.append]). reflexivity.
Qed.

Lemma Forall2_length_eq {A B} (R : A -> B -> Prop) l l' :
  Forall2 R l l' -> length l' = length l.
Proof. induction 1; simpl; congruence. Qed.

(** Claim C1. An instance of binary64 floats, written with
    [NoiseDosage.write] and read back with [read_noise_dosage], is
    reproduced: [m], [n], [d] and [total_hours] exactly, and every item of
    [alpha] and [t] with a relative error below [10^-6] (an infinity, a NaN
    and a zero are read back as they were). *)
Theorem write_read_round_trip name m n alpha d t total_hours inst stem :
  Forall (fun x => valid x = true) alpha ->
  Forall (fun x => valid x = true) t ->
  NoiseDosage_init name m n alpha d t total_hours = Ok inst ->
  exists inst',
    read_noise_dosage stem (write inst EmptyString) = Ok inst' /\
    NoiseDosageModel.m inst' = NoiseDosageModel.m inst /\
    NoiseDosageModel.n inst' = NoiseDosageModel.n inst /\
    NoiseDosageModel.d inst' = NoiseDosageModel.d inst /\
    NoiseDosageModel.total_hours inst' = NoiseDosageModel.total_hours inst /\
    Forall2 float_close (NoiseDosageModel.alpha inst) (NoiseDosageModel.alpha inst') /\
    Forall2 float_close (NoiseDosageModel.t inst) (NoiseDosageModel.t inst').
Proof.
  intros Hvalpha Hvt Hinit.
  apply NoiseDosageProofs.NoiseDosage_init_ok in Hinit.
  destruct Hinit as (-> & Hlalpha & Hld & Hlt).
  destruct (mapM_float_of_str alpha Hvalpha) as (alpha' & Halpha & Hca).
  destruct (mapM_float_of_str t Hvt) as (t' & Ht & Hct).
  exists (mkNoiseDosage stem m n alpha' d t' total_hours).
  split; [|cbn; auto 10].
  unfold read_noise_dosage. rewrite write_text.
  cbn [NoiseDosageModel.m NoiseDosageModel.n NoiseDosageModel.alpha
       NoiseDosageModel.d NoiseDosageModel.t NoiseDosageModel.total_hours].
  rewrite readlines_text.
  2:{ repeat constructor; apply join_no_break;
        try apply tokens_of_ints; try apply tokens_of_floats;
        repeat constructor; apply str_of_int_token. }
  cbn [map index nth_error bind].
  change (String newline EmptyString) with os_linesep.
  rewrite (fields_of_written_line [str_of_int m; str_of_int n])
    by (repeat constructor; apply str_of_int_token).
  cbn [unpack2]. rewrite !int_of_str_of_int. cbn [bind].
  rewrite (fields_of_written_line _ (tokens_of_floats alpha)), Halpha. cbn [bind].
  rewrite (fields_of_written_line _ (tokens_of_ints d)), mapM_int_of_str. cbn [bind].
  rewrite (fields_of_written_line _ (tokens_of_floats t)), Ht. cbn [bind].
  cbn [join String.concat]. unfold os_linesep.
  rewrite (strip_token_blank _ newline (str_of_int_token total_hours) eq_refl).
  rewrite int_of_str_of_int. cbn [bind].
  rewrite NoiseDosageProofs.NoiseDosage_init_spec. unfold len_is.
  rewrite (Forall2_length_eq _ _ _ Hca), (Forall2_length_eq _ _ _ Hct).
  rewrite Hlalpha, Hld, Hlt, Z.eqb_refl. reflexivity.
Qed.

Lemma write_read_round_trip_witness :
  let alpha := [float_one; float_fifth] in
  let t := [float_half; float_two] in
  let inst := mkNoiseDosage "noise2_3" 2 3 alpha [4; 7] t 480 in
  exists inst',
    read_noise_dosage "noise2_3" (write inst EmptyString) = Ok inst' /\
    m inst' = m inst /\ n inst' = n inst /\ d inst' = d inst /\
    total_hours inst' = total_hours inst /\
    Forall2 float_close (NoiseDosageModel.alpha inst) (NoiseDosageModel.alpha inst') /\
    Forall2 float_close (NoiseDosageModel.t inst) (NoiseDosageModel.t inst').
Proof.
  intros alpha t inst.
  apply (write_read_round_trip "noise2_3" 2 3 alpha [4; 7] t 480 inst "noise2_3").
  - repeat constructor.
  - repeat constructor.
  - reflexivity.
Defined.

End InstanceFileProofs.

(* ===================================================================== *)
(** * Part XIV. Properties of noise_dosage/generate.py: the weighting base *)
(* ===================================================================== *)

Module WeightingBaseProofs.
Import Py PyStr PyFloat NoiseDosageModel PyStrProofs PyFloatProofs.

Local Open Scope Z_scope.

(** ** Comparing numbers *)




(** ** [max] *)



(** ** [max(u.values()) + 1] *)



(** ** The bounds are computed *)








End WeightingBaseProofs.

(* ===================================================================== *)
(** * Part XV. Properties of noise_dosage/generate.py: malformed files    *)
(* ===================================================================== *)

Module ReaderProofs.
Import Py PyStr PyFloat NoiseDosageModel PyStrProofs PyFloatProofs.

Local Open Scope Z_scope.
Local Notation "s +++ t" := (String.append s t) (at level 60, right associativity).

(** ** Tokens *)

Lemma split_tokens s : Forall (fun tok => is_token tok = true) (split s).
Proof.
  induction s as [|c r IH]; [constructor|].
  cbn [split]. destruct (isspace c) eqn:Ec; [assumption|].
  destruct r as [|c' r']; [repeat constructor; unfold is_token; simpl; rewrite Ec; reflexivity|].
  destruct (isspace c') eqn:Ec'.
  - constructor; [|assumption]. unfold is_token. simpl. rewrite Ec. reflexivity.
  - destruct (split (String c' r')) as [|tok toks].
    + repeat constructor. unfold is_token. simpl. rewrite Ec. reflexivity.
    + inversion IH as [|? ? Htok Htoks]; subst. constructor; [|assumption].
      rewrite is_token_cons, Ec. simpl. apply token_plain. assumption.
Qed.

(** ** Runs of digits *)

Lemma is_digitpart_cons c r : is_digitpart (String c r) = isdigit c && more_digits r.
Proof. reflexivity. Qed.

Lemma underscore_not_digit : isdigit "_" = false.
Proof. reflexivity. Qed.

Ltac nothing_read :=
  exists EmptyString;
  repeat (split; [first [reflexivity|assumption|lia]|]);
  first [reflexivity|assumption|right; repeat split; reflexivity].

(** What [take_digits] reads is a [digitpart], or nothing at the start. *)
Lemma take_digits_reads s : forall acc n b v n' rest,
  (b = true -> (0 < n)%nat) ->
  take_digits s acc n b = Some (v, n', rest) ->
  exists pre, s = pre +++ rest /\ ends_digits rest = true /\ (n <= n')%nat /\
    if b then more_digits pre = true
    else (is_digitpart pre = true /\ (n < n')%nat) \/
         (pre = EmptyString /\ n = O /\ n' = O).
Proof.
  induction s as [|c r IH]; intros acc n b v n' rest Hb; cbn [take_digits].
  - destruct b; cbn [orb].
    + intros E. inversion E; subst. nothing_read.
    + destruct (Nat.eqb_spec n 0); [|discriminate].
      intros E. inversion E; subst. nothing_read.
  - destruct (isdigit c) eqn:Ed.
    + intros E. apply IH in E; [|lia].
      destruct E as (pre & -> & Hend & Hle & Hpre).
      exists (String c pre). split; [reflexivity|]. split; [assumption|].
      split; [lia|].
      destruct b.
      * cbn [more_digits].
        destruct (Ascii.eqb_spec c "_") as [->|_]; [discriminate|].
        rewrite is_digitpart_cons, Ed. assumption.
      * left. rewrite is_digitpart_cons, Ed. split; [assumption|lia].
    + destruct (Ascii.eqb_spec c "_") as [->|Hc].
      * destruct b; [|discriminate]. specialize (Hb eq_refl).
        intros E. apply IH in E; [|discriminate].
        destruct E as (pre & -> & Hend & Hle & [(Hpre & Hlt)|(_ & Hn & _)]); [|lia].
        exists (String "_" pre). split; [reflexivity|]. split; [assumption|].
        split; [lia|]. cbn [more_digits]. rewrite Ascii.eqb_refl. assumption.
      * assert (Hends : ends_digits (String c r) = true).
        { cbn [ends_digits]. rewrite Ed.
          destruct (Ascii.eqb_spec c "_"); [contradiction|reflexivity]. }
        destruct b; cbn [orb].
        -- intros E. inversion E; subst. nothing_read.
        -- destruct (Nat.eqb_spec n 0); [|discriminate].
           intros E. inversion E; subst. nothing_read.
Qed.

(** A [digitpart] is read whole by [take_digits], up to what ends it. *)
Lemma take_digits_digitpart pre : forall rest acc n,
  ends_digits rest = true ->
  (more_digits pre = true ->
   exists v n', take_digits (pre +++ rest) acc n true = Some (v, n', rest)
                /\ (n <= n')%nat) /\
  (is_digitpart pre = true ->
   exists v n', take_digits (pre +++ rest) acc n false = Some (v, n', rest)
                /\ (n < n')%nat).
Proof.
  induction pre as [|c r IH]; intros rest acc n Hend.
  - split; [|discriminate]. intros _. cbn [String.append].
    rewrite take_digits_end by assumption. eauto.
  - assert (Hdigit : is_digitpart (String c r) = true ->
      forall b, exists v n',
        take_digits (String c r +++ rest) acc n b = Some (v, n', rest) /\ (n < n')%nat).
    { rewrite is_digitpart_cons. intros H b. apply andb_true_iff in H.
      destruct H as (Ed & Hmore). cbn [String.append take_digits]. rewrite Ed.
      destruct (proj1 (IH rest (10 * acc + digit_value c) (S n) Hend) Hmore)
        as (v & n' & E & Hle).
      exists v, n'. split; [assumption|lia]. }
    split.
    + cbn [more_digits]. destruct (Ascii.eqb_spec c "_") as [->|_].
      * intros Hr. cbn [String.append take_digits]. rewrite underscore_not_digit.
        cbn [Ascii.eqb Bool.eqb].
        destruct (proj2 (IH rest acc n Hend) Hr) as (v & n' & E & Hlt).
        exists v, n'. split; [assumption|lia].
      * intros H. destruct (Hdigit H true) as (v & n' & E & Hlt).
        exists v, n'. split; [assumption|lia].
    + intros H. apply (Hdigit H false).
Qed.

Lemma parse_unsigned_digitpart s :
  is_digitpart s = true <-> exists v, parse_unsigned s = Some v.
Proof.
  unfold parse_unsigned. split.
  - intros H.
    destruct (proj2 (take_digits_digitpart s EmptyString 0 0 eq_refl) H)
      as (v & n' & E & Hlt).
    rewrite append_nil_r in E. rewrite E.
    destruct n' as [|k]; [lia|]. eauto.
  - intros (v & H).
    destruct (take_digits s 0 0 false) as [[[v' k] rest]|] eqn:E; [|discriminate].
    destruct k as [|k]; [discriminate|]. destruct rest; [|discriminate].
    apply take_digits_reads in E; [|discriminate].
    destruct E as (pre & -> & _ & _ & [(Hpre & _)|(_ & _ & Hk)]); [|discriminate].
    rewrite append_nil_r. assumption.
Qed.

Lemma digitpart_chars s :
  (more_digits s = true -> all_chars digit_or_underscore s = true) /\
  (is_digitpart s = true -> all_chars digit_or_underscore s = true).
Proof.
  induction s as [|c r (IHm & IHd)]; [split; reflexivity|].
  assert (Hd : is_digitpart (String c r) = true ->
               all_chars digit_or_underscore (String c r) = true).
  { rewrite is_digitpart_cons. intros H. apply andb_true_iff in H.
    destruct H as (Ed & Hm). cbn [all_chars]. unfold digit_or_underscore at 1.
    rewrite Ed, (IHm Hm). reflexivity. }
  split; [|assumption].
  cbn [more_digits]. destruct (Ascii.eqb_spec c "_") as [->|_]; [|assumption].
  intros H. cbn [all_chars]. rewrite (IHd H). reflexivity.
Qed.

Lemma digitpart_not_empty s : is_digitpart s = true -> s <> EmptyString.
Proof. destruct s; [discriminate|discriminate]. Qed.

(** ** Signs *)

Lemma take_sign_unsigned s : snd (take_sign s) = unsigned_part s.
Proof.
  destruct s as [|c r]; [reflexivity|]. cbn [take_sign unsigned_part]. unfold is_sign.
  destruct (Ascii.eqb c "-"); [rewrite orb_true_r; reflexivity|].
  destruct (Ascii.eqb c "+"); reflexivity.
Qed.

(** ** Integers *)

(** [int] reads the integers of the grammar, and nothing else. *)
Lemma int_of_str_integer s :
  (exists z, int_of_str s = Ok z) <-> is_integer (strip s) = true.
Proof.
  unfold int_of_str, is_integer. rewrite <- take_sign_unsigned.
  destruct (take_sign (strip s)) as [neg body]. cbn [snd].
  rewrite parse_unsigned_digitpart. split.
  - intros (z & H). destruct (parse_unsigned body) as [v|]; [eauto|discriminate].
  - intros (v & ->). eauto.
Qed.

(** ** Cutting a string *)

Lemma break_at_none p s :
  all_chars (fun c => negb (p c)) s = true -> break_at p s = (s, None).
Proof.
  induction s as [|c r IH]; [reflexivity|]. cbn [all_chars break_at].
  intros H. apply andb_true_iff in H. destruct H as (Hc & Hr).
  apply negb_true_iff in Hc. rewrite Hc, (IH Hr). reflexivity.
Qed.

Lemma break_at_app p a c b :
  all_chars (fun c => negb (p c)) a = true -> p c = true ->
  break_at p (a +++ String c b) = (a, Some b).
Proof.
  intros Ha Hc. induction a as [|c' r IH]; cbn [String.append break_at].
  - rewrite Hc. reflexivity.
  - cbn [all_chars] in Ha. apply andb_true_iff in Ha. destruct Ha as (Hc' & Hr).
    apply negb_true_iff in Hc'. rewrite Hc', (IH Hr). reflexivity.
Qed.

Lemma break_at_inv p s a b :
  break_at p s = (a, b) ->
  all_chars (fun c => negb (p c)) a = true /\
  match b with
  | None => s = a
  | Some r => exists c, p c = true /\ s = a +++ String c r
  end.
Proof.
  revert a b. induction s as [|c r IH]; intros a b; cbn [break_at].
  - intros E. inversion E; subst. auto.
  - destruct (p c) eqn:Hc.
    + intros E. inversion E; subst. split; [reflexivity|]. exists c. auto.
    + destruct (break_at p r) as [a' b'] eqn:Hr. intros E. inversion E; subst.
      destruct (IH _ _ eq_refl) as (Ha & Hb). split.
      * cbn [all_chars]. rewrite Hc, Ha. reflexivity.
      * destruct b as [r'|].
        -- destruct Hb as (c' & Hc' & ->). exists c'. auto.
        -- subst. reflexivity.
Qed.

(** ** Characters of numerals *)

Lemma exponent_mark_plain c :
  is_exponent_mark c = true ->
  isdigit c = false /\ Ascii.eqb c "_" = false /\ Ascii.eqb c "." = false /\
  Ascii.eqb "." c = false.
Proof.
  destruct c as [[] [] [] [] [] [] [] []]; vm_compute; intros H;
    try discriminate H; repeat split.
Qed.

Lemma digit_or_underscore_plain c :
  digit_or_underscore c = true ->
  negb (Ascii.eqb "." c) = true /\ negb (is_exponent_mark c) = true.
Proof.
  destruct c as [[] [] [] [] [] [] [] []]; vm_compute; intros H;
    try discriminate H; repeat split.
Qed.

Lemma digitpart_no_dot a :
  a = EmptyString \/ is_digitpart a = true ->
  all_chars (fun c => negb (Ascii.eqb "." c)) a = true.
Proof.
  intros [->|H]; [reflexivity|].
  apply (all_chars_weaken digit_or_underscore);
    [intros c Hc; apply digit_or_underscore_plain; assumption|].
  apply digitpart_chars. assumption.
Qed.

Lemma digitpart_no_mark a :
  a = EmptyString \/ is_digitpart a = true ->
  all_chars (fun c => negb (is_exponent_mark c)) a = true.
Proof.
  intros [->|H]; [reflexivity|].
  apply (all_chars_weaken digit_or_underscore);
    [intros c Hc; apply digit_or_underscore_plain; assumption|].
  apply digitpart_chars. assumption.
Qed.

(** ** Numbers with a point and an exponent *)

Lemma take_digits_nothing rest acc :
  ends_digits rest = true -> take_digits rest acc 0 false = Some (acc, O, rest).
Proof.
  destruct rest as [|c r]; [reflexivity|]. cbn [ends_digits take_digits].
  intros H. apply andb_true_iff in H. destruct H as (Hd & Hu).
  apply negb_true_iff in Hd, Hu. rewrite Hd, Hu. reflexivity.
Qed.

(** A [digitpart] or nothing, in front of what ends it. *)
Lemma take_digits_run pre rest acc :
  ends_digits rest = true -> pre = EmptyString \/ is_digitpart pre = true ->
  exists v n', take_digits (pre +++ rest) acc 0 false = Some (v, n', rest) /\
               (n' = O <-> pre = EmptyString).
Proof.
  intros Hend [->|Hpre].
  - cbn [String.append]. rewrite take_digits_nothing by assumption.
    exists acc, O. split; [reflexivity|tauto].
  - destruct (proj2 (take_digits_digitpart pre rest acc 0 Hend) Hpre)
      as (v & n' & E & Hlt).
    exists v, n'. split; [assumption|].
    split; [lia|]. intros ->. discriminate.
Qed.

Lemma parse_exponent_tail (mant : Z) (nf : nat) tail :
  (exists NX,
     match tail with
     | EmptyString => Some (mant, - Z.of_nat nf)
     | String c r =>
         if Ascii.eqb (lower c) "e" then
           let (eneg, ebody) := take_sign r in
           match parse_unsigned ebody with
           | Some x => Some (mant, (if eneg then - x else x) - Z.of_nat nf)
           | None => None
           end
         else None
     end = Some NX) <-> is_exponent tail = true.
Proof.
  destruct tail as [|c r]; [split; eauto|].
  cbn [is_exponent]. unfold is_exponent_mark, is_integer.
  rewrite <- take_sign_unsigned.
  destruct (Ascii.eqb (lower c) "e"); [|split; [intros (NX & H)|]; discriminate].
  cbn [andb]. destruct (take_sign r) as [eneg ebody]. cbn [snd].
  rewrite parse_unsigned_digitpart. split.
  - intros (NX & H). destruct (parse_unsigned ebody) as [x|]; [eauto|discriminate].
  - intros (x & ->). eauto.
Qed.

Lemma is_exponent_ends tail : is_exponent tail = true -> ends_digits tail = true.
Proof.
  destruct tail as [|c x]; [reflexivity|]. cbn [is_exponent ends_digits].
  intros H. apply andb_true_iff in H. destruct H as (Hc & _).
  destruct (exponent_mark_plain c Hc) as (-> & -> & _). reflexivity.
Qed.

(** A float number is a number and an exponent. *)
Lemma is_floatnumber_app m tail :
  all_chars (fun c => negb (is_exponent_mark c)) m = true ->
  is_exponent tail = true ->
  is_floatnumber (m +++ tail) = is_number m.
Proof.
  intros Hm Htail. unfold is_floatnumber. destruct tail as [|c x].
  - rewrite append_nil_r, (break_at_none _ _ Hm). reflexivity.
  - cbn [is_exponent] in Htail. apply andb_true_iff in Htail.
    destruct Htail as (Hc & Hx).
    rewrite (break_at_app _ _ _ _ Hm Hc), Hx. apply andb_true_r.
Qed.

Lemma is_floatnumber_inv s :
  is_floatnumber s = true ->
  exists m tail, s = m +++ tail /\ is_number m = true /\ is_exponent tail = true.
Proof.
  unfold is_floatnumber.
  destruct (break_at is_exponent_mark s) as [m [x|]] eqn:E;
    apply break_at_inv in E; destruct E as (Hm & Hs).
  - destruct Hs as (c & Hc & ->). intros H. apply andb_true_iff in H.
    destruct H as (Hnum & Hx). exists m, (String c x). split; [reflexivity|].
    split; [assumption|]. cbn [is_exponent]. rewrite Hc, Hx. reflexivity.
  - subst. intros H. exists m, EmptyString. rewrite append_nil_r. auto.
Qed.

Lemma is_number_whole a : is_digitpart a = true -> is_number a = true.
Proof.
  intros H. unfold is_number.
  rewrite (break_at_none _ _ (digitpart_no_dot a (or_intror H))). assumption.
Qed.

Lemma is_number_point a b :
  a = EmptyString \/ is_digitpart a = true ->
  b = EmptyString \/ is_digitpart b = true ->
  ~ (a = EmptyString /\ b = EmptyString) ->
  is_number (a +++ String "." b) = true.
Proof.
  intros Ha Hb Hab. unfold is_number.
  rewrite (break_at_app _ a "." b (digitpart_no_dot a Ha) (Ascii.eqb_refl ".")).
  destruct Ha as [->|Ha].
  - destruct Hb as [->|Hb]; [tauto|]. rewrite Hb. apply orb_true_r.
  - rewrite Ha. destruct Hb as [->|Hb]; [reflexivity|].
    rewrite Hb, orb_true_r. reflexivity.
Qed.

Lemma is_number_inv m :
  is_number m = true ->
  is_digitpart m = true \/
  exists a b, m = a +++ String "." b /\
    (a = EmptyString \/ is_digitpart a = true) /\
    (b = EmptyString \/ is_digitpart b = true) /\
    ~ (a = EmptyString /\ b = EmptyString).
Proof.
  unfold is_number.
  destruct (break_at (Ascii.eqb ".") m) as [a [b|]] eqn:E;
    apply break_at_inv in E; destruct E as (Ha & Hm).
  - destruct Hm as (c & Hc & ->). apply Ascii.eqb_eq in Hc. subst c.
    intros H. right. exists a, b. split; [reflexivity|].
    apply orb_true_iff in H. destruct H as [H|H]; apply andb_true_iff in H;
      destruct H as (H1 & H2).
    + split; [right; assumption|]. split.
      * apply orb_true_iff in H2. destruct H2 as [H2|H2];
          [left; apply String.eqb_eq; assumption|right; assumption].
      * intros (-> & _). discriminate.
    + apply String.eqb_eq in H1. subst a. split; [left; reflexivity|].
      split; [right; assumption|]. intros (_ & ->). discriminate.
  - subst. auto.
Qed.

(** [parse_decimal] reads the float numbers of the grammar, and nothing
    else. *)
Lemma parse_decimal_floatnumber s :
  (exists NX, parse_decimal s = Some NX) <-> is_floatnumber s = true.
Proof.
  split.
  - intros ((N & X) & H). revert H. unfold parse_decimal.
    destruct (take_digits s 0 0 false) as [[[ip ni] rest]|] eqn:E1; [|discriminate].
    apply take_digits_reads in E1; [|discriminate].
    destruct E1 as (pre1 & -> & Hend1 & _ & H1).
    assert (Hpre1 : pre1 = EmptyString \/ is_digitpart pre1 = true)
      by (destruct H1 as [(H1 & _)|(H1 & _)]; auto).
    assert (Hfrac : forall mant nf rest',
      match rest with
      | String c r => if Ascii.eqb c "." then take_digits r ip 0 false else Some (ip, O, rest)
      | EmptyString => Some (ip, O, rest)
      end = Some (mant, nf, rest') ->
      (ni + nf)%nat <> O ->
      exists m, pre1 +++ rest = m +++ rest' /\ is_number m = true /\
        all_chars (fun c => negb (is_exponent_mark c)) m = true).
    { intros mant nf rest' E Hcount.
      assert (Hwhole : (ni + 0)%nat <> O -> exists m,
                pre1 +++ rest = m +++ rest /\ is_number m = true /\
                all_chars (fun c => negb (is_exponent_mark c)) m = true).
      { intros Hni. exists pre1. split; [reflexivity|].
        destruct H1 as [(H1 & _)|(_ & _ & H1)]; [|lia].
        split; [apply is_number_whole; assumption|].
        apply digitpart_no_mark. auto. }
      destruct rest as [|c r].
      - inversion E; subst. auto.
      - destruct (Ascii.eqb_spec c ".") as [->|_]; [|inversion E; subst; auto].
        apply take_digits_reads in E; [|discriminate].
        destruct E as (pre2 & -> & Hend2 & _ & H2).
        assert (Hpre2 : pre2 = EmptyString \/ is_digitpart pre2 = true)
          by (destruct H2 as [(H2 & _)|(H2 & _)]; auto).
        exists (pre1 +++ String "." pre2). split.
        + rewrite append_assoc. reflexivity.
        + split.
          * apply is_number_point; try assumption.
            intros (-> & ->).
            destruct H1 as [(H1 & _)|(_ & _ & H1)]; [discriminate|].
            destruct H2 as [(H2 & _)|(_ & _ & H2)]; [discriminate|]. lia.
          * rewrite all_chars_app. cbn [all_chars].
            rewrite (digitpart_no_mark _ Hpre1), (digitpart_no_mark _ Hpre2).
            reflexivity. }
    destruct (match rest with
              | String c r => if Ascii.eqb c "." then take_digits r ip 0 false else Some (ip, O, rest)
              | EmptyString => Some (ip, O, rest)
              end) as [[[mant nf] rest']|] eqn:E2; [|discriminate].
    destruct (ni + nf =? 0)%nat eqn:Hcount; [discriminate|].
    apply Nat.eqb_neq in Hcount.
    destruct (Hfrac _ _ _ eq_refl Hcount) as (m & -> & Hnum & Hm).
    intros Htail.
    assert (Hexp : is_exponent rest' = true)
      by (apply (parse_exponent_tail mant nf); eauto).
    rewrite (is_floatnumber_app _ _ Hm Hexp). assumption.
  - intros H. apply is_floatnumber_inv in H.
    destruct H as (m & tail & -> & Hnum & Hexp).
    pose proof (is_exponent_ends _ Hexp) as Hend.
    unfold parse_decimal.
    assert (Hdone : forall (mant : Z) (nf : nat),
      exists NX : Z * Z,
        match tail with
        | EmptyString => Some (mant, - Z.of_nat nf)
        | String c r =>
            if Ascii.eqb (lower c) "e" then
              let (eneg, ebody) := take_sign r in
              match parse_unsigned ebody with
              | Some x => Some (mant, (if eneg then - x else x) - Z.of_nat nf)
              | None => None
              end
            else None
        end = Some NX).
    { intros mant nf. apply parse_exponent_tail. assumption. }
    assert (Htail_dot : match tail with
                        | String c _ => Ascii.eqb c "." = false
                        | EmptyString => True
                        end).
    { destruct tail as [|c x]; [exact I|]. cbn [is_exponent] in Hexp.
      apply andb_true_iff in Hexp. destruct Hexp as (Hc & _).
      apply exponent_mark_plain in Hc. tauto. }
    apply is_number_inv in Hnum. destruct Hnum as [Hd|(a & b & -> & Ha & Hb & Hab)].
    + destruct (take_digits_run m tail 0 Hend (or_intror Hd)) as (v & ni & E & Hni).
      rewrite E.
      assert (Hni' : ni <> O) by (intros Hz; apply Hni in Hz; subst; discriminate).
      destruct tail as [|c x].
      * replace (ni + 0 =? 0)%nat with false by (symmetry; apply Nat.eqb_neq; lia).
        apply (Hdone v O).
      * rewrite Htail_dot.
        replace (ni + 0 =? 0)%nat with false by (symmetry; apply Nat.eqb_neq; lia).
        apply (Hdone v O).
    + rewrite append_assoc. cbn [String.append].
      destruct (take_digits_run a (String "." (b +++ tail)) 0 eq_refl Ha)
        as (v & ni & E & Hni).
      rewrite E. rewrite Ascii.eqb_refl.
      destruct (take_digits_run b tail v Hend Hb) as (v' & nf & E' & Hnf).
      rewrite E'.
      replace (ni + nf =? 0)%nat with false.
      * apply (Hdone v' nf).
      * symmetry. apply Nat.eqb_neq. intros Hz. apply Hab. split.
        -- apply Hni. lia.
        -- apply Hnf. lia.
Qed.

(** ** Floats *)

(** [float] reads the float values of the grammar, and nothing else. *)
Lemma float_of_str_floatvalue s :
  (exists f, float_of_str s = Ok f) <-> is_floatvalue (strip s) = true.
Proof.
  unfold float_of_str, is_floatvalue, is_special. rewrite <- take_sign_unsigned.
  destruct (take_sign (strip s)) as [neg body]. cbn [snd existsb].
  destruct (String.eqb (lowercase body) "inf"); cbn [orb];
    [split; intros _; [reflexivity|eexists; reflexivity]|].
  destruct (String.eqb (lowercase body) "infinity"); cbn [orb];
    [split; intros _; [reflexivity|eexists; reflexivity]|].
  destruct (String.eqb (lowercase body) "nan"); cbn [orb];
    [split; intros _; [reflexivity|eexists; reflexivity]|].
  rewrite <- parse_decimal_floatnumber. split.
  - intros (f & H). destruct (parse_decimal body) as [NX|]; [eauto|discriminate].
  - intros ((N & X) & ->). eauto.
Qed.

(** ** Tokens that are numerals *)

Lemma sign_not_space c : is_sign c = true -> isspace c = false.
Proof.
  unfold is_sign. intros H. apply orb_true_iff in H.
  destruct H as [H|H]; apply Ascii.eqb_eq in H; subst; reflexivity.
Qed.

Lemma digit_or_underscore_not_space c :
  digit_or_underscore c = true -> negb (isspace c) = true.
Proof.
  unfold digit_or_underscore. intros H. apply orb_true_iff in H. apply negb_true_iff.
  destruct H as [H|H]; [apply digit_not_space; assumption|].
  apply Ascii.eqb_eq in H. subst. reflexivity.
Qed.

Lemma digitpart_token s : is_digitpart s = true -> is_token s = true.
Proof.
  intros H. unfold is_token. apply andb_true_iff. split.
  - destruct s; [discriminate|reflexivity].
  - apply (all_chars_weaken digit_or_underscore);
      [apply digit_or_underscore_not_space|apply digitpart_chars; assumption].
Qed.

Lemma is_integer_token s : is_integer s = true -> is_token s = true.
Proof.
  unfold is_integer. destruct s as [|c r]; [discriminate|]. cbn [unsigned_part].
  destruct (is_sign c) eqn:Hc; [|apply digitpart_token].
  intros H. apply digitpart_token in H. rewrite is_token_cons.
  rewrite (sign_not_space c Hc). apply token_plain. assumption.
Qed.

(** What [int] reads is a single field. *)
Lemma int_of_str_token s z : int_of_str s = Ok z -> is_token (strip s) = true.
Proof.
  intros H. apply is_integer_token. apply int_of_str_integer. eauto.
Qed.

(** A token is not numeric exactly when [int], or [float], refuses it. *)
Lemma non_numeric_int_refused tok :
  is_token tok = true ->
  non_numeric_int tok = true <-> exists e, int_of_str tok = Raise e.
Proof.
  intros Htok. unfold non_numeric_int.
  pose proof (int_of_str_integer tok) as H.
  rewrite (strip_plain _ (token_plain _ Htok)) in H.
  rewrite negb_true_iff. split.
  - intros Hno. destruct (int_of_str tok) as [z|e] eqn:E; [|eauto].
    rewrite (proj1 H) in Hno by eauto. discriminate.
  - intros (e & He). destruct (is_integer tok); [|reflexivity].
    destruct (proj2 H eq_refl) as (z & Hz). congruence.
Qed.

Lemma non_numeric_float_refused tok :
  is_token tok = true ->
  non_numeric_float tok = true <-> exists e, float_of_str tok = Raise e.
Proof.
  intros Htok. unfold non_numeric_float.
  pose proof (float_of_str_floatvalue tok) as H.
  rewrite (strip_plain _ (token_plain _ Htok)) in H.
  rewrite negb_true_iff. split.
  - intros Hno. destruct (float_of_str tok) as [z|e] eqn:E; [|eauto].
    rewrite (proj1 H) in Hno by eauto. discriminate.
  - intros (e & He). destruct (is_floatvalue tok); [|reflexivity].
    destruct (proj2 H eq_refl) as (z & Hz). congruence.
Qed.

(** A token [int], or [float], reads is numeric. *)
Lemma int_of_str_numeric tok z :
  is_token tok = true -> int_of_str tok = Ok z -> non_numeric_int tok = false.
Proof.
  intros Htok H. destruct (non_numeric_int tok) eqn:E; [|reflexivity].
  apply (non_numeric_int_refused tok Htok) in E. destruct E as (e & He). congruence.
Qed.

Lemma float_of_str_numeric tok f :
  is_token tok = true -> float_of_str tok = Ok f -> non_numeric_float tok = false.
Proof.
  intros Htok H. destruct (non_numeric_float tok) eqn:E; [|reflexivity].
  apply (non_numeric_float_refused tok Htok) in E. destruct E as (e & He). congruence.
Qed.

(** ** [mapM] *)

Lemma mapM_ok_inv {A B} (f : A -> result B) l : forall l',
  mapM f l = Ok l' ->
  length l' = length l /\ Forall (fun x => exists y, f x = Ok y) l.
Proof.
  induction l as [|x xs IH]; intros l'; cbn [mapM].
  - intros E. inversion E. split; [reflexivity|constructor].
  - destruct (f x) as [y|e] eqn:Hy; [|discriminate]. cbn [bind].
    destruct (mapM f xs) as [ys|e] eqn:Hys; [|discriminate]. cbn [bind].
    intros E. inversion E; subst. destruct (IH _ eq_refl) as (Hlen & Hall).
    split; [simpl; congruence|]. constructor; [eauto|assumption].
Qed.

Lemma mapM_raise {A B} (f : A -> result B) (P : exn -> Prop) l e :
  (forall x e, f x = Raise e -> P e) -> mapM f l = Raise e -> P e.
Proof.
  intros Hf. induction l as [|x xs IH]; cbn [mapM]; [discriminate|].
  destruct (f x) as [y|e'] eqn:Hy; cbn [bind].
  - destruct (mapM f xs) as [ys|e'']; cbn [bind]; [discriminate|].
    intros E. inversion E; subst. apply IH. reflexivity.
  - intros E. inversion E; subst. eapply Hf. eassumption.
Qed.

Lemma int_of_str_raise s e : int_of_str s = Raise e -> builtin_error e = true.
Proof.
  unfold int_of_str. destruct (take_sign (strip s)) as [neg body].
  destruct (parse_unsigned body); [discriminate|].
  intros E. inversion E. reflexivity.
Qed.

Lemma float_of_str_raise s e : float_of_str s = Raise e -> builtin_error e = true.
Proof.
  unfold float_of_str. destruct (take_sign (strip s)) as [neg body].
  destruct (_ || _); [discriminate|]. destruct (String.eqb _ _); [discriminate|].
  destruct (parse_decimal body) as [[N X]|]; [discriminate|].
  intros E. inversion E. reflexivity.
Qed.

Lemma index_raise {A} (l : list A) k e : index l k = Raise e -> builtin_error e = true.
Proof.
  unfold index. destruct (nth_error l k); [discriminate|].
  intros E. inversion E. reflexivity.
Qed.

Lemma index_ok {A} (l : list A) k x dflt :
  index l k = Ok x -> (k < length l)%nat /\ nth k l dflt = x.
Proof.
  unfold index. destruct (nth_error l k) as [y|] eqn:E; [|discriminate].
  intros H. inversion H; subst. split.
  - apply nth_error_Some. congruence.
  - apply nth_error_nth. assumption.
Qed.

Lemma unpack2_raise {A} (f : string -> result A) toks e :
  (forall x e, f x = Raise e -> builtin_error e = true) ->
  unpack2 f toks = Raise e -> builtin_error e = true.
Proof.
  intros Hf. unfold unpack2.
  destruct toks as [|a [|b rest]].
  - intros E. inversion E. reflexivity.
  - destruct (f a) eqn:Ha; cbn [bind]; intros E; inversion E; subst; [reflexivity|eauto].
  - destruct (f a) eqn:Ha; cbn [bind]; [|intros E; inversion E; subst; eauto].
    destruct (f b) eqn:Hb; cbn [bind]; [|intros E; inversion E; subst; eauto].
    destruct rest as [|c rest]; [discriminate|].
    destruct (f c) eqn:Hc; cbn [bind]; intros E; inversion E; subst; [reflexivity|eauto].
Qed.

Lemma unpack2_ok {A} (f : string -> result A) toks a' b' :
  unpack2 f toks = Ok (a', b') ->
  exists a b, toks = [a; b] /\ f a = Ok a' /\ f b = Ok b'.
Proof.
  unfold unpack2. destruct toks as [|a [|b rest]]; [discriminate| |].
  - destruct (f a); discriminate.
  - destruct (f a) eqn:Ha; cbn [bind]; [|discriminate].
    destruct (f b) eqn:Hb; cbn [bind]; [|discriminate].
    destruct rest as [|c rest]; [|destruct (f c); discriminate].
    intros E. inversion E; subst. exists a, b. auto.
Qed.

(** ** The reader *)

(** Whatever the reader raises comes from a builtin. *)
Lemma read_noise_dosage_raise stem content e :
  read_noise_dosage stem content = Raise e -> builtin_error e = true.
Proof.
  unfold read_noise_dosage.
  destruct (index (readlines content) 0) as [line0|e0] eqn:H0; cbn [bind];
    [|intros E; inversion E; subst; eapply index_raise; eassumption].
  destruct (unpack2 int_of_str (split (strip line0))) as [[m n]|e0] eqn:Hmn; cbn [bind];
    [|intros E; inversion E; subst; eapply unpack2_raise; [apply int_of_str_raise|eassumption]].
  destruct (index (readlines content) 1) as [line1|e0] eqn:H1; cbn [bind];
    [|intros E; inversion E; subst; eapply index_raise; eassumption].
  destruct (mapM float_of_str (split (strip line1))) as [alpha|e0] eqn:Ha; cbn [bind];
    [|intros E; inversion E; subst;
      eapply (mapM_raise float_of_str (fun e => builtin_error e = true));
      [apply float_of_str_raise|eassumption]].
  destruct (index (readlines content) 2) as [line2|e0] eqn:H2; cbn [bind];
    [|intros E; inversion E; subst; eapply index_raise; eassumption].
  destruct (mapM int_of_str (split (strip line2))) as [d|e0] eqn:Hd; cbn [bind];
    [|intros E; inversion E; subst;
      eapply (mapM_raise int_of_str (fun e => builtin_error e = true));
      [apply int_of_str_raise|eassumption]].
  destruct (index (readlines content) 3) as [line3|e0] eqn:H3; cbn [bind];
    [|intros E; inversion E; subst; eapply index_raise; eassumption].
  destruct (mapM float_of_str (split (strip line3))) as [t|e0] eqn:Ht; cbn [bind];
    [|intros E; inversion E; subst;
      eapply (mapM_raise float_of_str (fun e => builtin_error e = true));
      [apply float_of_str_raise|eassumption]].
  destruct (index (readlines content) 4) as [line4|e0] eqn:H4; cbn [bind];
    [|intros E; inversion E; subst; eapply index_raise; eassumption].
  destruct (int_of_str (strip line4)) as [th|e0] eqn:Hth; cbn [bind];
    [|intros E; inversion E; subst; eapply int_of_str_raise; eassumption].
  rewrite NoiseDosageProofs.NoiseDosage_init_spec.
  destruct (_ && _); [discriminate|]. intros E. inversion E. reflexivity.
Qed.

(** What a file that is read holds. *)
Lemma read_noise_dosage_ok stem content inst :
  read_noise_dosage stem content = Ok inst ->
  let lines := readlines content in
  (5 <= length lines)%nat /\
  (exists tm tn, fields lines 0 = [tm; tn] /\
     int_of_str tm = Ok (m inst) /\ int_of_str tn = Ok (n inst)) /\
  mapM float_of_str (fields lines 1) = Ok (alpha inst) /\
  mapM int_of_str (fields lines 2) = Ok (d inst) /\
  mapM float_of_str (fields lines 3) = Ok (t inst) /\
  int_of_str (strip (nth 4 lines EmptyString)) = Ok (total_hours inst) /\
  Z.of_nat (length (alpha inst)) = m inst /\
  Z.of_nat (length (d inst)) = m inst /\
  Z.of_nat (length (t inst)) = m inst.
Proof.
  unfold read_noise_dosage, fields.
  destruct (index (readlines content) 0) as [line0|e0] eqn:H0; cbn [bind]; [|discriminate].
  destruct (unpack2 int_of_str (split (strip line0))) as [[m0 n0]|e0] eqn:Hmn; cbn [bind];
    [|discriminate].
  destruct (index (readlines content) 1) as [line1|e0] eqn:H1; cbn [bind]; [|discriminate].
  destruct (mapM float_of_str (split (strip line1))) as [alpha0|e0] eqn:Ha; cbn [bind];
    [|discriminate].
  destruct (index (readlines content) 2) as [line2|e0] eqn:H2; cbn [bind]; [|discriminate].
  destruct (mapM int_of_str (split (strip line2))) as [d0|e0] eqn:Hd; cbn [bind];
    [|discriminate].
  destruct (index (readlines content) 3) as [line3|e0] eqn:H3; cbn [bind]; [|discriminate].
  destruct (mapM float_of_str (split (strip line3))) as [t0|e0] eqn:Ht; cbn [bind];
    [|discriminate].
  destruct (index (readlines content) 4) as [line4|e0] eqn:H4; cbn [bind]; [|discriminate].
  destruct (int_of_str (strip line4)) as [th|e0] eqn:Hth; cbn [bind]; [|discriminate].
  intros Hinit. apply NoiseDosageProofs.NoiseDosage_init_ok in Hinit.
  destruct Hinit as (-> & Hla & Hld & Hlt). cbn.
  destruct (index_ok _ _ _ EmptyString H0) as (_ & ->).
  destruct (index_ok _ _ _ EmptyString H1) as (_ & ->).
  destruct (index_ok _ _ _ EmptyString H2) as (_ & ->).
  destruct (index_ok _ _ _ EmptyString H3) as (_ & ->).
  destruct (index_ok _ _ _ EmptyString H4) as (Hlen & ->).
  destruct (unpack2_ok _ _ _ _ Hmn) as (tm & tn & Hf0 & Htm & Htn).
  repeat split; try assumption; try lia.
  exists tm, tn. auto.
Qed.

Lemma existsb_numeric (f : string -> bool) (A : Type) (g : string -> result A) l :
  (forall tok y, is_token tok = true -> g tok = Ok y -> f tok = false) ->
  Forall (fun tok => is_token tok = true) l ->
  Forall (fun tok => exists y, g tok = Ok y) l ->
  existsb f l = false.
Proof.
  intros Hf Htok Hg. induction l as [|tok l IH]; [reflexivity|].
  inversion Htok; subst. inversion Hg as [|? ? (y & Hy) Hrest]; subst.
  cbn [existsb]. rewrite (Hf tok y), IH; auto.
Qed.

Lemma read_noise_dosage_well_formed stem content inst :
  read_noise_dosage stem content = Ok inst ->
  malformed (readlines content) = false.
Proof.
  intros Hread. apply read_noise_dosage_ok in Hread. cbv zeta in Hread.
  destruct Hread as (Hlen & (tm & tn & Hf0 & Htm & Htn) & Ha & Hd & Ht & Hth & Hla & Hld & Hlt).
  set (lines := readlines content) in *.
  destruct (mapM_ok_inv _ _ _ Ha) as (Hlena & Hna).
  destruct (mapM_ok_inv _ _ _ Hd) as (Hlend & Hnd).
  destruct (mapM_ok_inv _ _ _ Ht) as (Hlent & Hnt).
  pose proof (int_of_str_token _ _ Hth) as Htok.
  set (tok := strip (strip (nth 4 lines EmptyString))) in *.
  assert (Hf4 : fields lines 4 = [tok]).
  { unfold fields. rewrite <- (split_strip (strip _)). apply split_token. assumption. }
  assert (Hth' : int_of_str tok = Ok (total_hours inst)).
  { revert Hth. unfold int_of_str. fold tok.
    rewrite (strip_plain tok (token_plain _ Htok)).
    destruct (take_sign tok) as [neg body].
    destruct (parse_unsigned body); [trivial|discriminate]. }
  unfold malformed. apply orb_false_iff. split.
  - unfold wrong_field_counts. rewrite Hf0, Hf4, Htm. cbn [length Nat.eqb negb orb].
    unfold len_is. rewrite <- Hlena, <- Hlend, <- Hlent.
    rewrite Hla, Hld, Hlt, Z.eqb_refl. cbn [andb negb orb].
    rewrite !orb_false_r. apply Nat.ltb_ge. assumption.
  - unfold non_numeric_tokens.
    rewrite (existsb_numeric non_numeric_int Z int_of_str (fields lines 0)),
            (existsb_numeric non_numeric_float float float_of_str (fields lines 1)),
            (existsb_numeric non_numeric_int Z int_of_str (fields lines 2)),
            (existsb_numeric non_numeric_float float float_of_str (fields lines 3)),
            (existsb_numeric non_numeric_int Z int_of_str (fields lines 4));
      try reflexivity;
      try apply int_of_str_numeric; try apply float_of_str_numeric;
      try apply split_tokens; try assumption.
    + rewrite Hf4. repeat constructor. eauto.
    + rewrite Hf0. repeat constructor; eauto.
Qed.

(** ** Lines with one field *)

Lemma split_nil s : split s = [] -> all_chars isspace s = true.
Proof.
  induction s as [|c r IH]; [reflexivity|]. cbn [split all_chars].
  destruct (isspace c); [assumption|].
  destruct r as [|c' r']; [discriminate|].
  destruct (isspace c'); [discriminate|].
  destruct (split (String c' r')); discriminate.
Qed.

Lemma rstrip_blank s : all_chars isspace s = true -> rstrip s = EmptyString.
Proof.
  induction s as [|c r IH]; [reflexivity|]. cbn [all_chars rstrip].
  intros H. apply andb_true_iff in H. destruct H as (Hc & Hr).
  rewrite (IH Hr), Hc. reflexivity.
Qed.

Lemma split_cons c r :
  split (String c r)
  = if isspace c then split r
    else match r with
         | EmptyString => [String c EmptyString]
         | String c' _ =>
             if isspace c' then String c EmptyString :: split r
             else match split r with
                  | tok :: toks => String c tok :: toks
                  | [] => [String c EmptyString]
                  end
         end.
Proof. reflexivity. Qed.

(** A line with one field is that field, with blanks around it. *)
Lemma split_single s tok : split s = [tok] -> strip s = tok.
Proof.
  unfold strip. revert tok. induction s as [|c r IH]; intros tok; [discriminate|].
  rewrite split_cons. cbn [lstrip]. destruct (isspace c) eqn:Ec; [apply IH|].
  destruct r as [|c' r'].
  - intros E. inversion E. cbn [rstrip]. rewrite Ec. reflexivity.
  - destruct (isspace c') eqn:Ec'.
    + intros E.
      assert (Htok : String c EmptyString = tok) by congruence.
      assert (Hnil : split (String c' r') = []) by congruence.
      subst tok. apply split_nil, rstrip_blank in Hnil.
      change (rstrip (String c (String c' r')))
        with (match rstrip (String c' r') with
              | EmptyString => if isspace c then EmptyString else String c EmptyString
              | r0 => String c r0
              end).
      rewrite Hnil, Ec. reflexivity.
    + destruct (split (String c' r')) as [|tok' toks] eqn:Hr.
      * apply split_nil in Hr. cbn [all_chars] in Hr. rewrite Ec' in Hr. discriminate.
      * intros E.
        assert (Htok : String c tok' = tok) by congruence.
        assert (Htoks : toks = []) by congruence.
        subst tok toks.
        specialize (IH tok' eq_refl). cbn [lstrip] in IH. rewrite Ec' in IH.
        change (rstrip (String c (String c' r')))
          with (match rstrip (String c' r') with
                | EmptyString => if isspace c then EmptyString else String c EmptyString
                | r0 => String c r0
                end).
        rewrite IH, Ec. destruct tok'; reflexivity.
Qed.

(** ** Where an exception comes from *)

Lemma mapM_raise_inv {A B} (f : A -> result B) l e :
  mapM f l = Raise e -> exists x, In x l /\ f x = Raise e.
Proof.
  induction l as [|x xs IH]; cbn [mapM]; [discriminate|].
  destruct (f x) as [y|e'] eqn:Hy; cbn [bind].
  - destruct (mapM f xs) as [ys|e'']; cbn [bind]; [discriminate|].
    intros E. inversion E; subst. destruct (IH eq_refl) as (x' & Hin & Hx').
    exists x'. split; [right; assumption|assumption].
  - intros E. inversion E; subst. exists x. split; [left; reflexivity|assumption].
Qed.

Lemma unpack2_raise_inv {A} (f : string -> result A) toks e :
  unpack2 f toks = Raise e ->
  length toks <> 2%nat \/ exists x e', In x toks /\ f x = Raise e'.
Proof.
  unfold unpack2. destruct toks as [|a [|b [|c rest]]]; cbn [length]; try (left; lia).
  destruct (f a) as [a'|ea] eqn:Ha; cbn [bind];
    [|intros _; right; exists a, ea; split; [left; reflexivity|assumption]].
  destruct (f b) as [b'|eb] eqn:Hb; cbn [bind]; [discriminate|].
  intros _. right. exists b, eb. split; [right; left; reflexivity|assumption].
Qed.

Lemma index_out_of_range {A} (l : list A) k e :
  index l k = Raise e -> (length l <= k)%nat.
Proof.
  unfold index. destruct (nth_error l k) eqn:E; [discriminate|].
  intros _. apply nth_error_None. assumption.
Qed.

(** ** Malformed files *)

Lemma malformed_short lines : (length lines < 5)%nat -> malformed lines = true.
Proof.
  intros H. unfold malformed, wrong_field_counts.
  apply Nat.ltb_lt in H. rewrite H. reflexivity.
Qed.

Lemma fields_tokens lines k : Forall (fun tok => is_token tok = true) (fields lines k).
Proof. apply split_tokens. Qed.

Lemma existsb_refused (p : string -> bool) (A : Type) (g : string -> result A) l x e :
  (forall tok, is_token tok = true -> p tok = true <-> exists e, g tok = Raise e) ->
  Forall (fun tok => is_token tok = true) l ->
  In x l -> g x = Raise e -> existsb p l = true.
Proof.
  intros Hp Htok Hin Hx. apply existsb_exists. exists x. split; [assumption|].
  apply Hp; [|eauto]. rewrite Forall_forall in Htok. auto.
Qed.

Lemma malformed_int lines k x e :
  k = 0%nat \/ k = 2%nat \/ k = 4%nat ->
  In x (fields lines k) -> int_of_str x = Raise e -> malformed lines = true.
Proof.
  intros Hk Hin Hx.
  pose proof (existsb_refused non_numeric_int Z int_of_str (fields lines k) x e
                non_numeric_int_refused (fields_tokens lines k) Hin Hx) as H.
  unfold malformed, non_numeric_tokens.
  destruct Hk as [->|[->| ->]]; rewrite H; rewrite ?orb_true_r; reflexivity.
Qed.

Lemma malformed_float lines k x e :
  k = 1%nat \/ k = 3%nat ->
  In x (fields lines k) -> float_of_str x = Raise e -> malformed lines = true.
Proof.
  intros Hk Hin Hx.
  pose proof (existsb_refused non_numeric_float float float_of_str (fields lines k) x e
                non_numeric_float_refused (fields_tokens lines k) Hin Hx) as H.
  unfold malformed, non_numeric_tokens.
  destruct Hk as [->| ->]; rewrite H; rewrite ?orb_true_r; reflexivity.
Qed.

(** A file the reader refuses is malformed. *)
Lemma refused_file_is_malformed stem content e :
  read_noise_dosage stem content = Raise e ->
  malformed (readlines content) = true.
Proof.
  unfold read_noise_dosage. set (lines := readlines content).
  destruct (index lines 0) as [line0|e0] eqn:H0; cbn [bind];
    [|intros _; apply malformed_short; apply index_out_of_range in H0; lia].
  destruct (index_ok _ _ _ EmptyString H0) as (_ & <-).
  change (split (strip (nth 0 lines EmptyString))) with (fields lines 0).
  destruct (unpack2 int_of_str (fields lines 0)) as [[m0 n0]|e0] eqn:Hmn; cbn [bind].
  2:{ intros _. apply unpack2_raise_inv in Hmn.
      destruct Hmn as [Hlen|(x & e' & Hin & Hx)].
      - unfold malformed, wrong_field_counts.
        apply Nat.eqb_neq in Hlen. rewrite Hlen. cbn [negb]. rewrite orb_true_r. reflexivity.
      - apply (malformed_int lines 0%nat x e'); auto. }
  destruct (unpack2_ok _ _ _ _ Hmn) as (tm & tn & Hf0 & Htm & Htn).
  destruct (index lines 1) as [line1|e0] eqn:H1; cbn [bind];
    [|intros _; apply malformed_short; apply index_out_of_range in H1; lia].
  destruct (index_ok _ _ _ EmptyString H1) as (_ & <-).
  change (split (strip (nth 1 lines EmptyString))) with (fields lines 1).
  destruct (mapM float_of_str (fields lines 1)) as [alpha0|e0] eqn:Ha; cbn [bind].
  2:{ intros _. apply mapM_raise_inv in Ha. destruct Ha as (x & Hin & Hx).
      apply (malformed_float lines 1%nat x e0); auto. }
  destruct (index lines 2) as [line2|e0] eqn:H2; cbn [bind];
    [|intros _; apply malformed_short; apply index_out_of_range in H2; lia].
  destruct (index_ok _ _ _ EmptyString H2) as (_ & <-).
  change (split (strip (nth 2 lines EmptyString))) with (fields lines 2).
  destruct (mapM int_of_str (fields lines 2)) as [d0|e0] eqn:Hd; cbn [bind].
  2:{ intros _. apply mapM_raise_inv in Hd. destruct Hd as (x & Hin & Hx).
      apply (malformed_int lines 2%nat x e0); auto. }
  destruct (index lines 3) as [line3|e0] eqn:H3; cbn [bind];
    [|intros _; apply malformed_short; apply index_out_of_range in H3; lia].
  destruct (index_ok _ _ _ EmptyString H3) as (_ & <-).
  change (split (strip (nth 3 lines EmptyString))) with (fields lines 3).
  destruct (mapM float_of_str (fields lines 3)) as [t0|e0] eqn:Ht; cbn [bind].
  2:{ intros _. apply mapM_raise_inv in Ht. destruct Ht as (x & Hin & Hx).
      apply (malformed_float lines 3%nat x e0); auto. }
  destruct (index lines 4) as [line4|e0] eqn:H4; cbn [bind];
    [|intros _; apply malformed_short; apply index_out_of_range in H4; lia].
  destruct (index_ok _ _ _ EmptyString H4) as (_ & <-).
  destruct (int_of_str (strip (nth 4 lines EmptyString))) as [th|e0] eqn:Hth; cbn [bind].
  2:{ intros _.
      destruct (Nat.eq_dec (length (fields lines 4)) 1) as [Hone|Hlen].
      - destruct (fields lines 4) as [|tok [|? ?]] eqn:Hf4; try discriminate.
        pose proof Hf4 as Hs. unfold fields in Hs. rewrite split_strip in Hs.
        apply split_single in Hs. rewrite Hs in Hth.
        apply (malformed_int lines 4%nat tok e0); [auto| |exact Hth].
        rewrite Hf4. left. reflexivity.
      - unfold malformed, wrong_field_counts.
        apply Nat.eqb_neq in Hlen. rewrite Hlen. cbn [negb].
        rewrite !orb_true_r. reflexivity. }
  rewrite NoiseDosageProofs.NoiseDosage_init_spec.
  destruct (mapM_ok_inv _ _ _ Ha) as (Hlena & _).
  destruct (mapM_ok_inv _ _ _ Hd) as (Hlend & _).
  destruct (mapM_ok_inv _ _ _ Ht) as (Hlent & _).
  destruct (len_is alpha0 m0 && len_is d0 m0 && len_is t0 m0) eqn:Hlen; [discriminate|].
  intros _. unfold malformed, wrong_field_counts. rewrite Hf0, Htm.
  unfold len_is in *. rewrite <- Hlena, <- Hlend, <- Hlent, Hlen. cbn [negb].
  rewrite !orb_true_r. reflexivity.
Qed.

(** Numerals and what is near to one: a few of each. *)
Example numerals_and_others :
  (forallb is_integer ["480"; "-3"; "+7"; "1_000"] = true /\
   forallb is_floatvalue ["1.000000e+00"; ".5"; "5."; "1e5"; "-inf"; "NaN";
                          "Infinity"; "1_0.2_5E-0_3"; "480"] = true /\
   forallb non_numeric_int ["4-1"; "4__80"; "+-2"; "1.2.3"; "1e"; "1.5"; "_1";
                            "1_"; "+"; "loud"] = true /\
   forallb non_numeric_float ["1.2.3"; "1e"; "4-1"; "4__80"; "+-2"; "."; "e5";
                              "1._5"; "in"; "loud"] = true)%string.
Proof. vm_compute. repeat split. Qed.

(** Claim C8, as the code has it. A malformed instance file, with wrong
    field counts or a token that is not numeric (not an integer of the
    grammar where [int] reads, not a float value where [float] reads), is
    never read: the reader raises, and what it raises is an [IndexError], a
    [ValueError] or an [AssertionError] of the builtins. By
    [refused_file_is_malformed] these are all the files the reader
    refuses. *)
Theorem malformed_file_is_refused stem content :
  malformed (readlines content) = true ->
  exists e, read_noise_dosage stem content = Raise e /\ builtin_error e = true.
Proof.
  intros Hbad.
  destruct (read_noise_dosage stem content) as [inst|e] eqn:Hread.
  - apply read_noise_dosage_well_formed in Hread. congruence.
  - exists e. split; [reflexivity|]. eapply read_noise_dosage_raise. eassumption.
Qed.

Lemma malformed_file_is_refused_witness :
  exists e, read_noise_dosage "noise2_3" wordy_file = Raise e /\ builtin_error e = true.
Proof. apply (malformed_file_is_refused "noise2_3" wordy_file). vm_compute. reflexivity. Defined.


(** Claim C8 as stated fails: a file with a field missing on the line of
    [alpha] and a file with a field missing on the line of [t] raise the
    same [AssertionError], which holds no message: the error describes
    nothing and names no line. *)
Lemma short_lines_raise_alike :
  malformed (readlines short_alpha_file) = true /\
  malformed (readlines short_t_file) = true /\
  read_noise_dosage "noise2_3" short_alpha_file = Raise AssertionError /\
  read_noise_dosage "noise2_3" short_t_file = Raise AssertionError.
Proof. vm_compute. repeat split. Qed.

End ReaderProofs.

(* ===================================================================== *)
(** * Part XVI. More on covering_designs/generate.py: the model *)
(* ===================================================================== *)

Module CoveringModelProofs.
Import Py PyStr PyFloat Scip CoveringDesigns CoveringDesignsProofs.

Local Open Scope Z_scope.

(** ** Inclusion of sorted sequences *)

Lemma contains_spec entries_k entries_t :
  contains entries_k entries_t = true <-> (forall a, In a entries_t -> In a entries_k).
Proof.
  unfold contains. rewrite forallb_forall. split; intros H a Ha.
  - apply H in Ha. apply existsb_exists in Ha. destruct Ha as (b & Hb & E).
    apply Z.eqb_eq in E. subst. assumption.
  - apply existsb_exists. exists a. split; [auto|apply Z.eqb_refl].
Qed.

(** On ascending sequences the scan answers the inclusion test. *)
Lemma is_sorted_subset_contains subset superset :
  ascending subset -> ascending superset ->
  is_sorted_subset subset superset = Ok (contains superset subset).
Proof.
  intros Hsub Hsup.
  destruct (is_sorted_subset_total subset superset) as (b & Hb). rewrite Hb. f_equal.
  destruct b.
  - symmetry. apply contains_spec.
    unfold is_sorted_subset in Hb.
    destruct (subset_loop subset superset 0) as [b|e] eqn:E.
    + inversion Hb; subst. eapply subset_loop_sound. eassumption.
    + destruct e; discriminate.
  - destruct (contains superset subset) eqn:Hc; [|reflexivity].
    rewrite contains_spec in Hc.
    assert (Hloop : subset_loop subset superset 0 = Ok true).
    { apply subset_loop_complete; try assumption.
      intros a Ha. apply Hc in Ha. apply In_nth_error in Ha.
      destruct Ha as (k & Hk). exists k. split; [lia|assumption]. }
    unfold is_sorted_subset in Hb. rewrite Hloop in Hb. discriminate.
Qed.

(** Property X1. On sequences sorted ascending, [is_sorted_subset]
    decides inclusion: it returns true exactly when every value of the
    subset occurs in the superset, and false exactly when some value of the
    subset is missing from the superset. *)
Theorem is_sorted_subset_decides_inclusion subset superset :
  Sorted Z.le subset -> Sorted Z.le superset ->
  (is_sorted_subset subset superset = Ok true
   <-> forall a, In a subset -> In a superset) /\
  (is_sorted_subset subset superset = Ok false
   <-> exists a, In a subset /\ ~ In a superset).
Proof.
  intros Hsub Hsup.
  rewrite (is_sorted_subset_contains _ _ (Sorted_ascending _ Hsub) (Sorted_ascending _ Hsup)).
  pose proof (contains_spec superset subset) as Hspec.
  destruct (contains superset subset) eqn:Hc; split; split; try discriminate; try tauto.
  - intros (a & Ha & Hna). destruct Hspec as (Hspec & _). exfalso. auto.
  - intros H. apply Hspec in H. discriminate.
  - intros _.
    assert (Hex : Exists (fun a => ~ In a superset) subset).
    { apply neg_Forall_Exists_neg.
      - intros a. destruct (in_dec Z.eq_dec a superset); auto.
      - intros Hall. rewrite Forall_forall in Hall.
        destruct Hspec as (_ & Hspec). specialize (Hspec Hall). discriminate. }
    apply Exists_exists in Hex. assumption.
Qed.

Lemma is_sorted_subset_decides_inclusion_witness :
  (is_sorted_subset [1; 3] [0; 1; 2; 3] = Ok true
   <-> forall a, In a [1; 3] -> In a [0; 1; 2; 3]) /\
  (is_sorted_subset [1; 3] [0; 1; 2; 3] = Ok false
   <-> exists a, In a [1; 3] /\ ~ In a [0; 1; 2; 3]).
Proof.
  apply (is_sorted_subset_decides_inclusion [1; 3] [0; 1; 2; 3]);
    repeat constructor; lia.
Defined.

(** Property X2. Whatever the order of the sequences, a true answer of
    [is_sorted_subset] is right: every value of the subset occurs in the
    superset. A false answer need not be: on sequences that are not sorted
    the scan can miss a value that is there. *)
Theorem is_sorted_subset_one_sided :
  (forall subset superset,
     is_sorted_subset subset superset = Ok true ->
     forall a, In a subset -> In a superset) /\
  (exists subset superset,
     (forall a, In a subset -> In a superset) /\
     is_sorted_subset subset superset = Ok false).
Proof.
  split.
  - intros subset superset H. unfold is_sorted_subset in H.
    destruct (subset_loop subset superset 0) as [b|e] eqn:E.
    + inversion H; subst. eapply subset_loop_sound. eassumption.
    + destruct e; discriminate.
  - exists [3; 1], [1; 3]. split; [|reflexivity].
    intros a [<-|[<-|[]]]; simpl; auto.
Qed.

(** ** Blocks are ascending *)

Lemma combinations_nat_nil {A} r : combinations_nat (S r) (@nil A) = [].
Proof. reflexivity. Qed.

Lemma combinations_nat_sorted (l : list Z) :
  StronglySorted Z.lt l ->
  forall r c, In c (combinations_nat r l) ->
  StronglySorted Z.lt c /\ incl c l.
Proof.
  induction 1 as [|x xs Hxs IH Hx]; intros r c Hc.
  - destruct r; [|destruct Hc].
    destruct Hc as [<-|[]]. split; [constructor|intros a []].
  - destruct r as [|r].
    + destruct Hc as [<-|[]]. split; [constructor|intros a []].
    + rewrite combinations_nat_cons in Hc. apply in_app_or in Hc.
      destruct Hc as [Hc|Hc].
      * apply in_map_iff in Hc. destruct Hc as (c' & <- & Hc').
        destruct (IH _ _ Hc') as (Hs & Hincl). split.
        -- constructor; [assumption|].
           rewrite Forall_forall in *. intros a Ha. apply Hx, Hincl, Ha.
        -- intros a [<-|Ha]; [left; reflexivity|right; apply Hincl, Ha].
      * destruct (IH _ _ Hc) as (Hs & Hincl). split; [assumption|].
        intros a Ha. right. apply Hincl, Ha.
Qed.

Lemma range_sorted n : StronglySorted Z.lt (range n).
Proof.
  unfold range. generalize 0%nat. induction (Z.to_nat n) as [|k IH]; intros s; simpl.
  - constructor.
  - constructor; [apply IH|].
    apply Forall_forall. intros a Ha. apply in_map_iff in Ha.
    destruct Ha as (i & <- & Hi). apply in_seq in Hi. lia.
Qed.

Lemma StronglySorted_lt_ascending l : StronglySorted Z.lt l -> ascending l.
Proof.
  intros H. apply Sorted_ascending. apply StronglySorted_Sorted.
  induction H as [|x xs Hxs IH Hx]; constructor; [assumption|].
  revert Hx. apply Forall_impl. intros a. lia.
Qed.

Lemma block_ascending r n c : In c (combinations_nat r (range n)) -> ascending c.
Proof.
  intros Hc. apply StronglySorted_lt_ascending.
  eapply combinations_nat_sorted; [apply range_sorted|eassumption].
Qed.

(** ** The calls made on the model *)

Lemma add_block_vars_exact lamb ub :
  forall bs model x,
  bs = [] \/ float_of_int lamb = Ok ub ->
  let blocks := combine (seq (length (vars model)) (length bs)) bs in
  add_block_vars lamb model x blocks
  = Ok (mkModel (problemName model) (vars model ++ map (block_var ub) blocks)
                (conss model) (objective model),
        x ++ map (fun jb => (fst jb, block_var ub jb)) blocks).
Proof.
  induction bs as [|b bs IH]; intros model x Hub; cbn zeta.
  - cbn. rewrite !app_nil_r. destruct model; reflexivity.
  - destruct Hub as [Hub|Hub]; [discriminate|].
    cbn [length seq combine add_block_vars map]. rewrite Hub. cbn [bind].
    unfold addVar.
    specialize (IH (mkModel (problemName model)
                      (vars model ++ [mkVariable (length (vars model))
                         ("x[" ++ str_of_int (Z.of_nat (length (vars model))) ++ ":"
                          ++ entries_str b ++ "]")%string
                         IntegerVar (Some float_zero) (Some ub)])
                      (conss model) (objective model))
                   (x ++ [(length (vars model),
                           mkVariable (length (vars model))
                         ("x[" ++ str_of_int (Z.of_nat (length (vars model))) ++ ":"
                          ++ entries_str b ++ "]")%string
                         IntegerVar (Some float_zero) (Some ub))])
                   (or_intror Hub)).
    cbn zeta in IH. cbn [vars problemName conss objective] in IH.
    rewrite length_app in IH. cbn [length] in IH. rewrite Nat.add_1_r in IH.
    rewrite IH. rewrite <- !app_assoc. reflexivity.
Qed.

Lemma lookup_mapped {A} (f : nat * A -> variable) (l : list (nat * A)) :
  NoDup (map fst l) ->
  forall jb, In jb l -> lookup (map (fun jb => (fst jb, f jb)) l) (fst jb) = Ok (f jb).
Proof.
  induction l as [|[j b] l IH]; intros Hnd jb Hin; [destruct Hin|].
  inversion Hnd as [|? ? Hnotin Hnd']; subst. cbn [map fst lookup].
  destruct Hin as [<-|Hin].
  - cbn [fst]. rewrite Nat.eqb_refl. reflexivity.
  - destruct (Nat.eqb_spec j (fst jb)) as [E|_].
    + exfalso. apply Hnotin. rewrite E. apply in_map. assumption.
    + apply IH; assumption.
Qed.

Lemma covering_terms_exact x entries_t (f : nat * list Z -> variable) blocks :
  (forall jb, In jb blocks -> lookup x (fst jb) = Ok (f jb)) ->
  (forall jb, In jb blocks -> ascending (snd jb)) ->
  ascending entries_t ->
  covering_terms x entries_t blocks
  = Ok (map (fun jb => Var (f jb))
            (filter (fun jb => contains (snd jb) entries_t) blocks)).
Proof.
  intros Hx Hasc Ht. induction blocks as [|[j b] blocks IH]; [reflexivity|].
  cbn [covering_terms filter snd].
  rewrite (is_sorted_subset_contains entries_t b Ht (Hasc (j, b) (or_introl eq_refl))).
  cbn [bind].
  rewrite IH by (intros; (apply Hx || apply Hasc); right; assumption).
  destruct (contains b entries_t); [|reflexivity].
  pose proof (Hx (j, b) (or_introl eq_refl)) as Hj. cbn [fst] in Hj.
  rewrite Hj. reflexivity.
Qed.

Lemma add_covering_conss_exact lamb ub x set_k :
  (forall jb, In jb (enumerate set_k) -> lookup x (fst jb) = Ok (block_var ub jb)) ->
  (forall jb, In jb (enumerate set_k) -> ascending (snd jb)) ->
  forall targets model,
  (forall it, In it targets -> ascending (snd it)) ->
  add_covering_conss lamb x set_k model targets
  = Ok (mkModel (problemName model) (vars model)
                (conss model ++ map (covering_cons lamb ub (enumerate set_k)) targets)
                (objective model)).
Proof.
  intros Hx Hasc. induction targets as [|[i entries_t] targets IH]; intros model Ht.
  - cbn. rewrite app_nil_r. destruct model; reflexivity.
  - cbn [add_covering_conss map].
    rewrite (covering_terms_exact x entries_t (block_var ub)); try assumption;
      [|apply (Ht (i, entries_t)); left; reflexivity].
    cbn [bind]. rewrite IH by (intros; apply Ht; right; assumption).
    unfold addCons. cbn [problemName vars conss objective].
    rewrite <- app_assoc. reflexivity.
Qed.

Lemma in_enumerate {A} (l : list A) jb : In jb (enumerate l) -> In (snd jb) l.
Proof. destruct jb as [j b]. unfold enumerate. apply in_combine_r. Qed.

(** The model is the described one as soon as the bound [float(lamb)] of
    the variables is defined, or no variable is to be created. *)
Lemma generate_covering_design_exact lamb ub v k t :
  0 <= k -> 0 <= t ->
  combinations_nat (Z.to_nat k) (range v) = [] \/ float_of_int lamb = Ok ub ->
  generate_covering_design lamb v k t = Ok (covering_model lamb ub v k t).
Proof.
  intros Hk Ht Hub. unfold generate_covering_design, combinations.
  destruct (Z.ltb_spec k 0); [lia|]. destruct (Z.ltb_spec t 0); [lia|]. cbn [bind].
  set (set_k := combinations_nat (Z.to_nat k) (range v)) in *.
  set (set_t := combinations_nat (Z.to_nat t) (range v)).
  pose proof (add_block_vars_exact lamb ub set_k
                (new_model (problem_name lamb v k t)) [] Hub) as Hvars.
  cbn zeta in Hvars. cbn [new_model vars length] in Hvars.
  fold (enumerate set_k) in Hvars. rewrite Hvars. cbn [bind app].
  rewrite (add_covering_conss_exact lamb ub).
  - cbn [bind problemName vars conss objective app]. unfold setObjective, covering_model.
    cbn [problemName vars conss objective]. fold set_k set_t.
    rewrite map_map. reflexivity.
  - intros jb Hjb. apply (lookup_mapped (block_var ub)); [|assumption].
    rewrite enumerate_keys. apply seq_NoDup.
  - intros jb Hjb. eapply block_ascending. apply in_enumerate. eassumption.
  - intros it Hit. eapply block_ascending. apply in_enumerate. eassumption.
Qed.

(** Property X3. When [k] and [t] are not negative and [float(lamb)] is
    defined, [generate_covering_design] returns the integer program of the
    covering design: one integer variable between 0 and [lamb] per block of
    [k] points, named after its number and its points; one constraint per
    set of [t] points, asking that the variables of the blocks containing
    the set sum to at least [lamb]; the sum of all variables to minimize. *)
Theorem covering_design_is_the_described_model lamb ub v k t :
  0 <= k -> 0 <= t -> float_of_int lamb = Ok ub ->
  generate_covering_design lamb v k t = Ok (covering_model lamb ub v k t).
Proof. intros Hk Ht Hub. apply generate_covering_design_exact; auto. Qed.

Lemma covering_design_is_the_described_model_witness :
  generate_covering_design 2 4 3 2 = Ok (covering_model 2 float_two 4 3 2).
Proof.
  apply (covering_design_is_the_described_model 2 float_two 4 3 2); [lia|lia|].
  vm_compute. reflexivity.
Defined.

(** ** When a model is returned *)

Lemma length_zero_nil {A} (l : list A) : length l = 0%nat -> l = [].
Proof. destruct l; [reflexivity|discriminate]. Qed.

Lemma no_block (v k : Z) :
  (Z.to_nat v < Z.to_nat k)%nat -> combinations_nat (Z.to_nat k) (range v) = [].
Proof.
  intros H. apply length_zero_nil.
  rewrite combinations_nat_length, range_length. apply binomial_above. assumption.
Qed.

(** Property X4. [generate_covering_design] returns a model exactly when
    [k] and [t] are not negative and either [float(lamb)] is defined or
    there is no block at all ([k] above the number of points). Otherwise it
    raises the [ValueError] of [itertools.combinations] for a negative
    size, or the [OverflowError] of [float(lamb)]. *)
Theorem generate_covering_design_errors lamb v k t :
  is_ok (generate_covering_design lamb v k t)
  = (0 <=? k) && (0 <=? t)
    && (is_ok (float_of_int lamb) || (Z.to_nat v <? Z.to_nat k)%nat) /\
  (forall e, generate_covering_design lamb v k t = Raise e ->
     (e = ValueError NegativeR /\ (k < 0 \/ t < 0)) \/
     (e = OverflowError /\ float_of_int lamb = Raise OverflowError)).
Proof.
  destruct (Z.leb_spec 0 k) as [Hk|Hk].
  2:{ unfold generate_covering_design, combinations.
      destruct (Z.ltb_spec k 0); [|lia]. cbn [bind is_ok andb]. split; [reflexivity|].
      intros e E. inversion E. left. split; [reflexivity|lia]. }
  destruct (Z.leb_spec 0 t) as [Ht|Ht].
  2:{ unfold generate_covering_design, combinations.
      destruct (Z.ltb_spec k 0); [lia|]. destruct (Z.ltb_spec t 0); [|lia].
      cbn [bind is_ok andb]. split; [reflexivity|].
      intros e E. inversion E. left. split; [reflexivity|lia]. }
  cbn [andb].
  destruct (Nat.ltb_spec (Z.to_nat v) (Z.to_nat k)) as [Hvk|Hvk].
  { rewrite (generate_covering_design_exact lamb float_zero v k t Hk Ht
               (or_introl (no_block v k Hvk))).
    rewrite orb_true_r. split; [reflexivity|discriminate]. }
  rewrite orb_false_r.
  destruct (float_of_int lamb) as [ub|e0] eqn:Hub.
  - rewrite (generate_covering_design_exact lamb ub v k t Hk Ht (or_intror Hub)).
    split; [reflexivity|discriminate].
  - assert (He0 : e0 = OverflowError).
    { revert Hub. unfold float_of_int. destruct (round_binary64 _ _ _); try discriminate.
      intros E. inversion E. reflexivity. }
    subst e0.
    assert (Hraise : generate_covering_design lamb v k t = Raise OverflowError).
    { unfold generate_covering_design, combinations.
      destruct (Z.ltb_spec k 0); [lia|]. destruct (Z.ltb_spec t 0); [lia|]. cbn [bind].
      rewrite (add_block_vars_raise lamb OverflowError Hub); [reflexivity|].
      intros E. apply (f_equal (@length _)) in E.
      rewrite enumerate_length, combinations_nat_length, range_length in E. simpl in E.
      pose proof (binomial_pos (Z.to_nat v) (Z.to_nat k) Hvk). lia. }
    rewrite Hraise. split; [reflexivity|].
    intros e E. inversion E. right. auto.
Qed.

(** ** How many blocks cover a set *)

Lemma combinations_nat_size {A} r : forall (l : list A) c,
  In c (combinations_nat r l) -> length c = r.
Proof.
  induction r as [|r IH]; intros l c Hc.
  - destruct Hc as [<-|[]]. reflexivity.
  - induction l as [|x xs IHl]; [destruct Hc|].
    rewrite combinations_nat_cons in Hc. apply in_app_or in Hc.
    destruct Hc as [Hc|Hc]; [|auto].
    apply in_map_iff in Hc. destruct Hc as (c' & <- & Hc').
    simpl. f_equal. eapply IH. eassumption.
Qed.

Lemma filter_map_length {A B} (f : B -> bool) (g : A -> B) l :
  length (filter f (map g l)) = length (filter (fun a => f (g a)) l).
Proof.
  induction l as [|a l IH]; [reflexivity|]. cbn [map filter].
  destruct (f (g a)); simpl; congruence.
Qed.

Lemma filter_none {A} (f : A -> bool) l :
  (forall a, In a l -> f a = false) -> filter f l = [].
Proof.
  induction l as [|a l IH]; intros H; [reflexivity|]. cbn [filter].
  rewrite (H a (or_introl eq_refl)). apply IH. intros; apply H; right; assumption.
Qed.

Lemma StronglySorted_lt_NoDup l : StronglySorted Z.lt l -> NoDup l.
Proof.
  induction 1 as [|x xs Hxs IH Hx]; constructor; [|assumption].
  intros Hin. rewrite Forall_forall in Hx. specialize (Hx x Hin). lia.
Qed.

Lemma forallb_agree {A} (f g : A -> bool) l :
  (forall a, In a l -> f a = g a) -> forallb f l = forallb g l.
Proof.
  induction l as [|a l IH]; intros H; [reflexivity|]. cbn [forallb].
  rewrite (H a (or_introl eq_refl)), IH; [reflexivity|].
  intros; apply H; right; assumption.
Qed.

Lemma contains_cons_other x c entries_t :
  ~ In x entries_t -> contains (x :: c) entries_t = contains c entries_t.
Proof.
  intros Hx. unfold contains. apply forallb_agree.
  intros a Ha. cbn [existsb].
  destruct (Z.eqb_spec a x) as [->|_]; [contradiction|reflexivity].
Qed.

Lemma count_blocks (l : list Z) :
  StronglySorted Z.lt l ->
  forall entries_t r,
  StronglySorted Z.lt entries_t -> incl entries_t l ->
  length (filter (fun c => contains c entries_t) (combinations_nat r l))
  = if (length entries_t <=? r)%nat
    then binomial (length l - length entries_t) (r - length entries_t)
    else 0%nat.
Proof.
  induction 1 as [|x xs Hxs IH Hx]; intros T r HT Hincl.
  - assert (T = []) as ->.
    { destruct T as [|a T]; [reflexivity|]. destruct (Hincl a (or_introl eq_refl)). }
    destruct r; reflexivity.
  - assert (Hnotin : ~ In x xs).
    { intros Hin. rewrite Forall_forall in Hx. specialize (Hx x Hin). lia. }
    destruct r as [|r].
    + destruct T as [|a T]; reflexivity.
    + rewrite combinations_nat_cons, filter_app, length_app, filter_map_length.
      destruct T as [|a T'].
      * rewrite (filter_ext (fun c => contains (x :: c) []) (fun c => contains c []))
          by reflexivity.
        rewrite (IH [] r), (IH [] (S r)); try constructor; try (intros a []).
        cbn [length Nat.leb]. rewrite !Nat.sub_0_r. reflexivity.
      * inversion HT as [|? ? HT' Ha]; subst.
        assert (HaT' : ~ In a T').
        { intros Hin. rewrite Forall_forall in Ha. specialize (Ha a Hin). lia. }
        destruct (Z.eq_dec a x) as [->|Hax].
        -- (* the first point of the set is the first point of the ground set *)
           assert (HT'xs : incl T' xs).
           { intros b Hb. destruct (Hincl b (or_intror Hb)) as [<-|]; [|assumption].
             contradiction. }
           rewrite (filter_ext (fun c => contains (x :: c) (x :: T'))
                               (fun c => contains c T')).
           2:{ intros c. unfold contains at 1. cbn [forallb existsb].
               rewrite Z.eqb_refl. cbn [orb andb].
               apply (contains_cons_other x c T' HaT'). }
           rewrite (IH T' r HT' HT'xs).
           rewrite (filter_none (fun c => contains c (x :: T'))).
           2:{ intros c Hc. unfold contains. cbn [forallb].
               destruct (existsb (Z.eqb x) c) eqn:E; [|reflexivity].
               apply existsb_exists in E. destruct E as (b & Hb & Eb).
               apply Z.eqb_eq in Eb. subst b.
               destruct (combinations_nat_sorted xs Hxs _ _ Hc) as (_ & Hcxs).
               exfalso. apply Hnotin, Hcxs, Hb. }
           cbn [length]. rewrite Nat.add_0_r. reflexivity.
        -- (* the set lies in the rest of the ground set *)
           assert (HxT : ~ In x (a :: T')).
           { intros [E|Hin]; [congruence|].
             destruct (Hincl a (or_introl eq_refl)) as [E|Haxs]; [congruence|].
             rewrite Forall_forall in Hx, Ha.
             specialize (Hx a Haxs). specialize (Ha x Hin). lia. }
           assert (HTxs : incl (a :: T') xs).
           { intros b Hb. destruct (Hincl b Hb) as [<-|]; [contradiction|assumption]. }
           rewrite (filter_ext (fun c => contains (x :: c) (a :: T'))
                               (fun c => contains c (a :: T')))
             by (intros c; apply contains_cons_other; assumption).
           rewrite (IH (a :: T') r HT HTxs), (IH (a :: T') (S r) HT HTxs).
           pose proof (NoDup_incl_length (StronglySorted_lt_NoDup _ HT) HTxs) as Hlen.
           set (n := length xs) in *. set (s := length (a :: T')) in *.
           cbn [length]. fold n.
           destruct (Nat.leb_spec s r) as [Hsr|Hsr].
           ++ destruct (Nat.leb_spec s (S r)) as [_|]; [|lia].
              replace (S n - s)%nat with (S (n - s)) by lia.
              replace (S r - s)%nat with (S (r - s)) by lia.
              reflexivity.
           ++ destruct (Nat.leb_spec s (S r)) as [Hs|Hs]; [|reflexivity].
              replace (S r - s)%nat with 0%nat by lia.
              destruct (S n - s)%nat; destruct (n - s)%nat; reflexivity.
Qed.

Lemma filter_enumerate_length {A} (f : A -> bool) (l : list A) :
  length (filter (fun jb => f (snd jb)) (enumerate l)) = length (filter f l).
Proof.
  unfold enumerate. generalize 0%nat.
  induction l as [|a l IH]; intros s; [reflexivity|].
  cbn [length seq combine filter snd]. destruct (f a); simpl; rewrite IH; reflexivity.
Qed.

(** Property X5. For [0 <= t <= k], every constraint of the model sums
    exactly [C(v - t, k - t)] variables: so many blocks of [k] points
    contain a given set of [t] points. *)
Theorem covering_constraints_size lamb v k t model :
  0 <= t <= k ->
  generate_covering_design lamb v k t = Ok model ->
  Forall (fun c => exists terms,
            cons_lhs c = Quicksum terms /\
            length terms = binomial (Z.to_nat v - Z.to_nat t) (Z.to_nat k - Z.to_nat t))
         (conss model).
Proof.
  intros Htk Hmodel.
  assert (Hexact : exists ub, generate_covering_design lamb v k t
                              = Ok (covering_model lamb ub v k t)).
  { destruct (float_of_int lamb) as [ub|e] eqn:Hub.
    - exists ub. apply generate_covering_design_exact; auto; lia.
    - exists float_zero. apply generate_covering_design_exact; try lia. left.
      destruct (Nat.ltb_spec (Z.to_nat v) (Z.to_nat k)) as [Hvk|Hvk];
        [apply no_block; assumption|exfalso].
      revert Hmodel. unfold generate_covering_design, combinations.
      destruct (Z.ltb_spec k 0); [lia|]. destruct (Z.ltb_spec t 0); [lia|]. cbn [bind].
      rewrite (add_block_vars_raise lamb e Hub); [discriminate|].
      intros E. apply (f_equal (@length _)) in E.
      rewrite enumerate_length, combinations_nat_length, range_length in E. simpl in E.
      pose proof (binomial_pos (Z.to_nat v) (Z.to_nat k) Hvk). lia. }
  destruct Hexact as (ub & Hexact). rewrite Hexact in Hmodel.
  inversion Hmodel; subst model. unfold covering_model. cbn [conss].
  apply Forall_forall. intros c Hc. apply in_map_iff in Hc.
  destruct Hc as (it & <- & Hit). apply in_enumerate in Hit.
  unfold covering_cons. cbn [cons_lhs]. eexists. split; [reflexivity|].
  rewrite length_map.
  rewrite (filter_enumerate_length (fun b => contains b (snd it))).
  destruct (combinations_nat_sorted _ (range_sorted v) _ _ Hit) as (Hsorted & Hincl).
  rewrite (count_blocks _ (range_sorted v) _ _ Hsorted Hincl).
  rewrite (combinations_nat_size _ _ _ Hit), range_length.
  destruct (Nat.leb_spec (Z.to_nat t) (Z.to_nat k)); [reflexivity|lia].
Qed.

Lemma covering_constraints_size_witness :
  exists model,
    generate_covering_design 2 4 3 2 = Ok model /\
    Forall (fun c => exists terms, cons_lhs c = Quicksum terms /\ length terms = 2%nat)
           (conss model).
Proof.
  destruct (generate_covering_design 2 4 3 2) as [model|e] eqn:E;
    [|exfalso; revert E; vm_compute; discriminate].
  exists model. split; [reflexivity|].
  apply (covering_constraints_size 2 4 3 2 model); [lia|assumption].
Defined.

End CoveringModelProofs.

(* ===================================================================== *)
(** * Part XVII. More on covering_designs/generate.py: the batch driver *)
(* ===================================================================== *)

Module DriverProofs.
Import Py PyStr PyFloat Scip CoveringDesigns CoveringDesignsProofs PyStrProofs.

Local Open Scope Z_scope.
Local Notation "s +++ t" := (String.append s t) (at level 60, right associativity).

(** ** File names tell the tuples apart *)

Lemma append_sep_inj c s1 : forall s2 r1 r2,
  all_chars (fun x => negb (Ascii.eqb x c)) s1 = true ->
  all_chars (fun x => negb (Ascii.eqb x c)) s2 = true ->
  s1 +++ String c r1 = s2 +++ String c r2 -> s1 = s2 /\ r1 = r2.
Proof.
  induction s1 as [|a s1 IH]; intros [|b s2] r1 r2 H1 H2 E; cbn in *.
  - inversion E. auto.
  - inversion E; subst. rewrite Ascii.eqb_refl in H2. discriminate.
  - inversion E; subst. rewrite Ascii.eqb_refl in H1. discriminate.
  - inversion E; subst. apply andb_true_iff in H1, H2.
    destruct (IH s2 r1 r2) as (-> & ->); tauto.
Qed.

Lemma str_of_int_chars z :
  all_chars (fun c => isdigit c || Ascii.eqb c "-") (str_of_int z) = true.
Proof.
  unfold str_of_int. destruct (Z.ltb_spec z 0).
  - cbn [all_chars]. rewrite Ascii.eqb_refl, orb_true_r. cbn [andb].
    apply (all_chars_weaken isdigit); [intros c ->; reflexivity|].
    apply str_of_nonneg_digits. lia.
  - apply (all_chars_weaken isdigit); [intros c ->; reflexivity|].
    apply str_of_nonneg_digits. assumption.
Qed.

Lemma str_of_int_no_sep sep z :
  isdigit sep = false -> Ascii.eqb sep "-" = false ->
  all_chars (fun x => negb (Ascii.eqb x sep)) (str_of_int z) = true.
Proof.
  intros Hd Hm.
  apply (all_chars_weaken (fun c => isdigit c || Ascii.eqb c "-"));
    [|apply str_of_int_chars].
  intros c Hc. apply negb_true_iff. apply Ascii.eqb_neq. intros ->.
  rewrite Hd, Hm in Hc. discriminate.
Qed.

Lemma str_of_int_inj z1 z2 : str_of_int z1 = str_of_int z2 -> z1 = z2.
Proof.
  intros E. pose proof (int_of_str_of_int z1) as H1.
  rewrite E, int_of_str_of_int in H1. congruence.
Qed.

Lemma file_name_inj l1 v1 k1 t1 l2 v2 k2 t2 :
  file_name l1 v1 k1 t1 = file_name l2 v2 k2 t2 ->
  (l1, v1, k1, t1) = (l2, v2, k2, t2).
Proof.
  unfold file_name, problem_name.
  repeat (rewrite !append_assoc; cbn [String.append]).
  intros E. injection E as E.
  apply append_sep_inj in E; try (apply str_of_int_no_sep; reflexivity).
  destruct E as (El & E).
  apply append_sep_inj in E; try (apply str_of_int_no_sep; reflexivity).
  destruct E as (Ev & E).
  apply append_sep_inj in E; try (apply str_of_int_no_sep; reflexivity).
  destruct E as (Ek & E).
  apply append_sep_inj in E; try (apply str_of_int_no_sep; reflexivity).
  destruct E as (Et & _).
  apply str_of_int_inj in El, Ev, Ek, Et. congruence.
Qed.

(** ** The tuples are gone through once each *)

Lemma NoDup_flat_map {A B} (f : A -> list B) l :
  NoDup l -> (forall a, In a l -> NoDup (f a)) ->
  (forall a b y, In a l -> In b l -> In y (f a) -> In y (f b) -> a = b) ->
  NoDup (flat_map f l).
Proof.
  induction 1 as [|a l Hnotin Hnd IH]; intros Hf Hdisj; cbn [flat_map]; [constructor|].
  apply NoDup_app.
  - apply Hf. left. reflexivity.
  - apply IH.
    + intros b Hb. apply Hf. right. assumption.
    + intros b c y Hb Hc. apply Hdisj; right; assumption.
  - intros y Hy Hy'. apply in_flat_map in Hy'. destruct Hy' as (b & Hb & Hyb).
    assert (a = b) by (apply (Hdisj a b y); auto; [left; reflexivity|right; assumption]).
    subst. contradiction.
Qed.

Lemma NoDup_product4 ls vs ks ts :
  NoDup ls -> NoDup vs -> NoDup ks -> NoDup ts -> NoDup (product4 ls vs ks ts).
Proof.
  intros Hl Hv Hk Ht. unfold product4.
  apply NoDup_flat_map; [assumption| |].
  - intros l _. apply NoDup_flat_map; [assumption| |].
    + intros v _. apply NoDup_flat_map; [assumption| |].
      * intros k _. apply Injective_map_NoDup; [|assumption].
        intros a b E. inversion E. reflexivity.
      * intros a b y _ _ Ha Hb. apply in_map_iff in Ha, Hb.
        destruct Ha as (? & <- & _). destruct Hb as (? & E & _). inversion E. reflexivity.
    + intros a b y _ _ Ha Hb. apply in_flat_map in Ha, Hb.
      destruct Ha as (? & _ & Ha). destruct Hb as (? & _ & Hb).
      apply in_map_iff in Ha, Hb.
      destruct Ha as (? & <- & _). destruct Hb as (? & E & _). inversion E. reflexivity.
  - intros a b y _ _ Ha Hb. apply in_flat_map in Ha, Hb.
    destruct Ha as (? & _ & Ha). destruct Hb as (? & _ & Hb).
    apply in_flat_map in Ha, Hb.
    destruct Ha as (? & _ & Ha). destruct Hb as (? & _ & Hb).
    apply in_map_iff in Ha, Hb.
    destruct Ha as (? & <- & _). destruct Hb as (? & E & _). inversion E. reflexivity.
Qed.

Lemma NoDup_range2 a b : NoDup (range2 a b).
Proof.
  unfold range2. apply Injective_map_NoDup; [|apply NoiseDosageProofs.NoDup_range].
  intros x y. lia.
Qed.

(** ** The loop *)

Lemma existsb_names {A} name (l : list (string * A)) :
  existsb (fun f => String.eqb (fst f) name) l
  = existsb (String.eqb name) (map fst l).
Proof.
  induction l as [|f l IH]; [reflexivity|].
  cbn [existsb map]. rewrite IH, String.eqb_sym. reflexivity.
Qed.

Lemma exists_file_app w name init gen :
  files w = init ++ gen ->
  exists_file w name
  = existsb (String.eqb name) (map fst init) || existsb (String.eqb name) (map fst gen).
Proof.
  intros E. unfold exists_file. rewrite E, existsb_app, !existsb_names. reflexivity.
Qed.

Lemma not_written name done gen :
  Forall2 written_for done gen ->
  (forall q, In q done ->
     let '(lamb, v, k, t) := q in file_name lamb v k t <> name) ->
  existsb (String.eqb name) (map fst gen) = false.
Proof.
  induction 1 as [|q f done gen Hq _ IH]; intros Hnew; [reflexivity|].
  cbn [map existsb]. rewrite IH by (intros; apply Hnew; right; assumption).
  specialize (Hnew q (or_introl eq_refl)).
  destruct q as [[[lamb v] k] t]. destruct Hq as (Hname & _).
  rewrite Hname. destruct (String.eqb_spec name (file_name lamb v k t)); [|reflexivity].
  congruence.
Qed.

Lemma driver_loop_spec init ps : forall w w',
  driver_loop w ps = Ok w' ->
  NoDup ps -> (forall p, In p ps -> ~ In p (calls w)) ->
  (exists gen, files w = init ++ gen /\ Forall2 written_for (calls w) gen) ->
  calls w' = calls w ++ filter (wanted (map fst init)) ps /\
  exists gen', files w' = init ++ gen' /\ Forall2 written_for (calls w') gen'.
Proof.
  induction ps as [|p rest IH]; intros w w' Hloop Hnd Hfresh Hinv; cbn [driver_loop] in Hloop.
  - inversion Hloop; subst. rewrite app_nil_r. auto.
  - inversion Hnd as [|? ? Hp Hnd']; subst.
    destruct Hinv as (gen & Hfiles & Hgen).
    destruct (driver_step w p) as [w1|e] eqn:Hstep; cbn [bind] in Hloop; [|discriminate].
    destruct p as [[[lamb v] k] t].
    assert (Hex : exists_file w (file_name lamb v k t)
                  = existsb (String.eqb (file_name lamb v k t)) (map fst init)).
    { rewrite (exists_file_app w _ init gen Hfiles).
      rewrite (not_written _ (calls w) gen Hgen); [apply orb_false_r|].
      intros [[[l' v'] k'] t'] Hq E. apply file_name_inj in E. inversion E; subst.
      apply (Hfresh (lamb, v, k, t)); [left; reflexivity|assumption]. }
    unfold driver_step in Hstep. rewrite Hex in Hstep.
    cbn [filter]. unfold wanted at 1.
    destruct (existsb (String.eqb (file_name lamb v k t)) (map fst init)).
    { inversion Hstep; subst w1. cbn [negb andb].
      apply (IH w w' Hloop Hnd');
        [intros q Hq; apply Hfresh; right; assumption|eauto]. }
    cbn [negb andb].
    destruct (Z.leb_spec v k) as [Hvk|Hvk].
    { inversion Hstep; subst w1. destruct (Z.ltb_spec k v); [lia|]. cbn [andb].
      apply (IH w w' Hloop Hnd');
        [intros q Hq; apply Hfresh; right; assumption|eauto]. }
    destruct (Z.ltb_spec k v); [|lia]. cbn [andb].
    destruct (Z.leb_spec k t) as [Hkt|Hkt].
    { inversion Hstep; subst w1. destruct (Z.ltb_spec t k); [lia|].
      apply (IH w w' Hloop Hnd');
        [intros q Hq; apply Hfresh; right; assumption|eauto]. }
    destruct (Z.ltb_spec t k); [|lia].
    destruct (generate_covering_design lamb v k t) as [model|e] eqn:Hmodel;
      cbn [bind] in Hstep; [|discriminate].
    inversion Hstep; subst w1. clear Hstep. cbn [files calls] in *.
    destruct (IH _ w' Hloop Hnd') as (Hcalls & Hfiles').
    + cbn [calls]. intros q Hq Hin. apply in_app_or in Hin.
      destruct Hin as [Hin|[<-|[]]]; [|contradiction].
      apply (Hfresh q); [right; assumption|assumption].
    + cbn [files calls]. exists (gen ++ [(file_name lamb v k t, Some model)]).
      rewrite Hfiles, app_assoc. split; [reflexivity|].
      apply Forall2_app; [assumption|]. repeat constructor. cbn. eauto.
    + cbn [calls] in Hcalls. rewrite <- app_assoc in Hcalls. auto.
Qed.

(** Property X6. The batch driver runs to its end and calls
    [generate_covering_design] exactly on the tuples of its ranges, in
    their order, whose file does not exist beforehand and for which
    [v > k > t]; it leaves the existing files as they are and writes, for
    each call in turn, one file named after the tuple that holds the model
    generated. *)
Theorem driver_generates_missing_instances existing :
  exists w generated,
    main existing = Ok w /\
    calls w = filter (wanted existing) (product4 lambs vs ks ts) /\
    files w = map (fun name => (name, None)) existing ++ generated /\
    Forall2 written_for (calls w) generated.
Proof.
  unfold main.
  destruct (driver_loop_ok (product4 lambs vs ks ts)) with
    (w := mkWorld (map (fun n => (n, @None Model)) existing) []) as (w & Hw).
  { apply Forall_forall. intros [[[lamb v] k] t] Hin.
    apply in_product4 in Hin. destruct Hin as (Hl & _ & _ & Ht).
    apply in_range2 in Hl, Ht.
    split; [|lia].
    assert (lamb = 2 \/ lamb = 3) as [-> | ->] by lia; reflexivity. }
  destruct (driver_loop_spec (map (fun n => (n, @None Model)) existing) _ _ _ Hw)
    as (Hcalls & gen & Hfiles & Hgen).
  - apply NoDup_product4; apply NoDup_range2.
  - intros p _ [].
  - exists []. cbn. rewrite app_nil_r. split; [reflexivity|constructor].
  - exists w, gen. cbn [calls app] in Hcalls.
    rewrite map_map in Hcalls. cbn [fst] in Hcalls. rewrite map_id in Hcalls.
    auto.
Qed.

End DriverProofs.

(* ===================================================================== *)
(** * Part XVIII. More on noise_dosage/generate.py: symmetry handling *)
(* ===================================================================== *)

Module SymmetryProofs.
Import Py PyStr PyFloat Scip NoiseDosageModel NoiseDosageProofs.

Local Open Scope Z_scope.

Lemma mapM_nth {A B} (f : A -> result B) (dflt : B) l : forall ys,
  mapM f l = Ok ys ->
  forall p a, nth_error l p = Some a -> f a = Ok (nth p ys dflt).
Proof.
  induction l as [|x xs IH]; intros ys; cbn [mapM].
  - intros _ [|p] a; discriminate.
  - destruct (f x) as [y|e] eqn:Hy; [|discriminate]. cbn [bind].
    destruct (mapM f xs) as [ys'|e] eqn:Hys; [|discriminate]. cbn [bind].
    intros E. inversion E; subst. intros [|p] a; cbn [nth_error nth].
    + intros Ha. inversion Ha; subst. assumption.
    + apply IH. reflexivity.
Qed.

Lemma mapM_raise_first {A B C} (f : A -> result B) (g : A -> B -> result C) l e :
  mapM f l = Raise e ->
  (forall a b, In a l -> is_ok (g a b) = true) ->
  mapM (fun a => bind (f a) (g a)) l = Raise e.
Proof.
  induction l as [|x xs IH]; cbn [mapM]; [discriminate|].
  intros Hraise Hg. destruct (f x) as [y|e'] eqn:Hy; cbn [bind] in *.
  - pose proof (Hg x y (or_introl eq_refl)) as Hgx.
    destruct (g x y) as [c|e']; [|discriminate]. cbn [bind].
    destruct (mapM f xs) as [ys|e'']; [discriminate|]. cbn [bind] in Hraise.
    rewrite IH; [reflexivity|assumption|]. intros; apply Hg; right; assumption.
  - inversion Hraise. reflexivity.
Qed.

Lemma range_empty n : n <= 0 -> range n = [].
Proof. intros H. unfold range. replace (Z.to_nat n) with 0%nat by lia. reflexivity. Qed.

Lemma range_head n : 0 < n -> exists l, range n = 0 :: l.
Proof.
  intros H. unfold range. destruct (Z.to_nat n) eqn:E; [lia|].
  cbn [seq map]. eauto.
Qed.

(** The model before the objective is set, without symmetry handling. *)
Lemma generate_noise_dosage_steps name m n alpha d t total_hours b :
  Z.of_nat (length alpha) = m -> Z.of_nat (length d) = m -> Z.of_nat (length t) = m ->
  let inst := mkNoiseDosage name m n alpha d t total_hours in
  let plain := described_model inst in
  let x := map created_entry
             (combine (seq 0 (length (machine_worker_pairs m n)))
                      (machine_worker_pairs m n)) in
  generate_noise_dosage inst b
  = bind (if b then
            bind (cycle_bounds inst) (fun u =>
            bind (weighting_base u) (fun M =>
            add_conss (mkModel name (vars plain) (conss plain) None)
              (fun j =>
                 bind (weighted_column x (num_pow_int M) m j) (fun lhs =>
                 bind (weighted_column x (num_pow_int M) m (j + 1)) (fun rhs =>
                 Ok (mkConstraint None lhs GE rhs))))
              (range (n - 1))))
          else Ok (mkModel name (vars plain) (conss plain) None))
         (fun model => Ok (setObjective model (Var (dosage_var m n)) Minimize)).
Proof.
  intros Halpha Hd Ht inst plain x. subst inst plain x.
  unfold generate_noise_dosage, described_model. cbn [NoiseDosageModel.name
    NoiseDosageModel.m NoiseDosageModel.n NoiseDosageModel.alpha NoiseDosageModel.d
    NoiseDosageModel.t NoiseDosageModel.total_hours].
  rewrite add_cycle_vars_spec. cbn [new_model vars conss objective problemName app length].
  unfold addVar. cbn [vars conss objective problemName app].
  rewrite length_map, length_combine, length_seq, Nat.min_id, length_pairs.
  fold (dosage_var m n).
  rewrite (add_conss_ok _ _
    (fun j => mkConstraint None (Var (dosage_var m n)) GE
       (Quicksum (map (fun i => Scale (Float (nth (Z.to_nat i) alpha float_zero))
                                      (Var (cycle_var n i j))) (range m))))).
  2:{ intros j Hj. apply CoveringDesignsProofs.in_range in Hj.
      rewrite <- length_pairs.
      rewrite (weighted_column_ok m n _
                 (fun i => Float (nth (Z.to_nat i) alpha float_zero)) j Hj);
        [reflexivity|].
      intros i Hi. rewrite (at_index_ok alpha i float_zero) by lia. reflexivity. }
  cbn [bind vars conss objective problemName app].
  rewrite (add_conss_ok _ _
    (fun i => mkConstraint None
       (Quicksum (map (fun j => Var (cycle_var n i j)) (range n)))
       EQ (Const (Int (nth (Z.to_nat i) d 0))))).
  2:{ intros i Hi. apply CoveringDesignsProofs.in_range in Hi.
      rewrite <- length_pairs. rewrite (row_sum_ok m n i Hi). cbn [bind].
      rewrite (at_index_ok d i 0) by lia. reflexivity. }
  cbn [bind vars conss objective problemName app].
  rewrite (add_conss_ok _ _
    (fun j => mkConstraint None
       (Quicksum (map (fun i => Scale (Float (nth (Z.to_nat i) t float_zero))
                                      (Var (cycle_var n i j))) (range m)))
       LE (Const (Int total_hours)))).
  2:{ intros j Hj. apply CoveringDesignsProofs.in_range in Hj.
      rewrite <- length_pairs.
      rewrite (weighted_column_ok m n _
                 (fun i => Float (nth (Z.to_nat i) t float_zero)) j Hj);
        [reflexivity|].
      intros i Hi. rewrite (at_index_ok t i float_zero) by lia. reflexivity. }
  cbn [bind vars conss objective problemName app].
  rewrite <- length_pairs, created_vars_described, <- app_assoc. reflexivity.
Qed.

(** With symmetry handling: the bounds, the base, its powers if two
    workers are to be ordered, and the described model. *)
Lemma generate_noise_dosage_sym name m n alpha d t total_hours :
  Z.of_nat (length alpha) = m -> Z.of_nat (length d) = m -> Z.of_nat (length t) = m ->
  let inst := mkNoiseDosage name m n alpha d t total_hours in
  generate_noise_dosage inst true
  = bind (cycle_bounds inst) (fun u =>
    bind (weighting_base u) (fun M =>
    if n <=? 1 then Ok (described_model inst)
    else bind (mapM (num_pow_int M) (range m)) (fun w =>
         Ok (described_sym_model inst w)))).
Proof.
  intros Halpha Hd Ht inst.
  unfold inst. rewrite (generate_noise_dosage_steps _ _ _ _ _ _ _ _ Halpha Hd Ht).
  fold inst. cbv zeta.
  destruct (cycle_bounds inst) as [u|e]; [|reflexivity]. cbn [bind].
  destruct (weighting_base u) as [M|e]; [|reflexivity]. cbn [bind].
  destruct (Z.leb_spec n 1) as [Hn|Hn].
  - rewrite (range_empty (n - 1)) by lia. cbn [add_conss bind].
    unfold setObjective, described_model. reflexivity.
  - destruct (mapM (num_pow_int M) (range m)) as [w|e] eqn:Hw; cbn [bind].
    + rewrite (add_conss_ok _ _ (lex_cons inst w)).
      * cbn [bind]. unfold setObjective, described_sym_model. reflexivity.
      * intros j Hj. apply CoveringDesignsProofs.in_range in Hj.
        assert (Hcoef : forall i, 0 <= i < m ->
                  num_pow_int M i = Ok (nth (Z.to_nat i) w (Int 0))).
        { intros i Hi. apply (mapM_nth _ _ _ _ Hw). apply nth_error_range. assumption. }
        rewrite (weighted_column_ok m n _ (fun i => nth (Z.to_nat i) w (Int 0)) j)
          by (lia || assumption).
        cbn [bind].
        rewrite (weighted_column_ok m n _ (fun i => nth (Z.to_nat i) w (Int 0)) (j + 1))
          by (lia || assumption).
        reflexivity.
    + destruct (range_head (n - 1) ltac:(lia)) as (l & ->). cbn [add_conss].
      assert (Hcol : weighted_column
                (map created_entry
                   (combine (seq 0 (length (machine_worker_pairs m n)))
                            (machine_worker_pairs m n))) (num_pow_int M) m 0 = Raise e).
      { unfold weighted_column.
        rewrite (mapM_raise_first (num_pow_int M)
                   (fun i c => bind (lookup _ i 0) (fun xij => Ok (Scale c (Var xij))))
                   (range m) e Hw); [reflexivity|].
        intros i c Hi. apply CoveringDesignsProofs.in_range in Hi.
        rewrite (lookup_cycle_var m n i 0) by lia. reflexivity. }
      rewrite Hcol. reflexivity.
Qed.

(** Property X7. With symmetry handling, when the bounds [u], the base
    [M] and the powers [M**i] are computed, the model is the one without
    symmetry handling, with the same variables and objective, and with one
    more constraint for each worker [j] but the last:
    [sum_i M**i * x[i,j] >= sum_i M**i * x[i,j+1]]. *)
Theorem symmetry_handling_orders_workers name m n alpha d t total_hours inst u M w :
  NoiseDosage_init name m n alpha d t total_hours = Ok inst ->
  cycle_bounds inst = Ok u -> weighting_base u = Ok M ->
  mapM (num_pow_int M) (range m) = Ok w ->
  generate_noise_dosage inst true = Ok (described_sym_model inst w) /\
  vars (described_sym_model inst w) = vars (described_model inst) /\
  objective (described_sym_model inst w) = objective (described_model inst) /\
  length (conss (described_sym_model inst w))
  = (length (conss (described_model inst)) + Z.to_nat (n - 1))%nat.
Proof.
  intros Hinit Hu HM Hw. apply NoiseDosage_init_ok in Hinit.
  destruct Hinit as (-> & Halpha & Hd & Ht).
  split; [|split; [reflexivity|split; [reflexivity|]]].
  - rewrite (generate_noise_dosage_sym _ _ _ _ _ _ _ Halpha Hd Ht). cbv zeta.
    rewrite Hu. cbn [bind]. rewrite HM. cbn [bind]. rewrite Hw. cbn [bind].
    destruct (Z.leb_spec n 1) as [Hn|Hn]; [|reflexivity].
    unfold described_sym_model. cbn [NoiseDosageModel.n].
    rewrite (range_empty (n - 1)) by lia. cbn [map]. rewrite app_nil_r.
    unfold described_model. reflexivity.
  - unfold described_sym_model. cbn [conss NoiseDosageModel.n].
    rewrite length_app, length_map, CoveringDesignsProofs.range_length. reflexivity.
Qed.

Lemma symmetry_handling_orders_workers_witness :
  let inst := mkNoiseDosage "w" 2 3 [float_one; float_half] [4; 5]
                            [float_two; float_one] 8 in
  generate_noise_dosage inst true = Ok (described_sym_model inst [Int 1; Int 6]) /\
  vars (described_sym_model inst [Int 1; Int 6]) = vars (described_model inst) /\
  objective (described_sym_model inst [Int 1; Int 6]) = objective (described_model inst) /\
  length (conss (described_sym_model inst [Int 1; Int 6]))
  = (length (conss (described_model inst)) + Z.to_nat (3 - 1))%nat.
Proof.
  intros inst.
  apply (symmetry_handling_orders_workers "w" 2 3 [float_one; float_half] [4; 5]
           [float_two; float_one] 8 inst
           [(0, Float (S754_finite false (2 ^ 52) (-50))); (1, Int 5)] (Int 6)
           [Int 1; Int 6]).
  - reflexivity.
  - vm_compute. reflexivity.
  - vm_compute. reflexivity.
  - vm_compute. reflexivity.
Defined.

Lemma mapM_raise_some {A B} (f : A -> result B) l e :
  (forall a, In a l -> is_ok (f a) = true \/ f a = Raise e) ->
  Exists (fun a => f a = Raise e) l ->
  mapM f l = Raise e.
Proof.
  induction l as [|x xs IH]; intros Hall Hex; [inversion Hex|].
  cbn [mapM]. destruct (Hall x (or_introl eq_refl)) as [Hok|Hraise].
  - destruct (f x) as [y|e'] eqn:Hy; [|discriminate]. cbn [bind].
    rewrite IH; [reflexivity| |].
    + intros a Ha. apply Hall. right. assumption.
    + inversion Hex as [? ? Hx|? ? Hxs]; subst; [congruence|assumption].
  - rewrite Hraise. reflexivity.
Qed.

Lemma float_of_int_raise z e : float_of_int z = Raise e -> e = OverflowError.
Proof.
  unfold float_of_int. destruct (round_binary64 _ _ _); try discriminate.
  intros E. inversion E. reflexivity.
Qed.

(** Property X8. With symmetry handling, an instance without machines
    raises the [ValueError] of [max] on an empty sequence; with a machine,
    an hour budget beyond the range of [float] raises [OverflowError]; and
    a duration [t[i]] that is zero raises [ZeroDivisionError]. *)
Theorem symmetry_handling_failures name m n alpha d t total_hours inst :
  NoiseDosage_init name m n alpha d t total_hours = Ok inst ->
  (m = 0 -> generate_noise_dosage inst true = Raise (ValueError EmptySequence)) /\
  (0 < m -> is_ok (float_of_int total_hours) = false ->
   generate_noise_dosage inst true = Raise OverflowError) /\
  (is_ok (float_of_int total_hours) = true ->
   Exists (fun x => is_zero x = true) t ->
   generate_noise_dosage inst true = Raise ZeroDivisionError).
Proof.
  intros Hinit. apply NoiseDosage_init_ok in Hinit.
  destruct Hinit as (-> & Halpha & Hd & Ht).
  rewrite (generate_noise_dosage_sym _ _ _ _ _ _ _ Halpha Hd Ht). cbv zeta.
  unfold cycle_bounds. cbn [NoiseDosageModel.m NoiseDosageModel.t NoiseDosageModel.d
                            NoiseDosageModel.total_hours].
  split; [|split].
  - intros ->. reflexivity.
  - intros Hm Hth. destruct (range_head m Hm) as (l & ->). cbn [mapM].
    rewrite (at_index_ok t 0 float_zero) by lia. cbn [bind].
    unfold int_floordiv_float.
    destruct (float_of_int total_hours) as [th|e] eqn:E; [discriminate|].
    apply float_of_int_raise in E. subst. reflexivity.
  - intros Hth Hzero.
    destruct (float_of_int total_hours) as [th|e] eqn:E; [|discriminate].
    rewrite (mapM_raise_some _ (range m) ZeroDivisionError); [reflexivity| |].
    + intros i Hi. apply CoveringDesignsProofs.in_range in Hi.
      rewrite (at_index_ok t i float_zero) by lia. cbn [bind].
      unfold int_floordiv_float. rewrite E. cbn [bind]. unfold float_floordiv.
      destruct (is_zero (nth (Z.to_nat i) t float_zero)); [right; reflexivity|].
      cbn [bind]. rewrite (at_index_ok d i 0) by lia. left. reflexivity.
    + apply Exists_exists in Hzero. destruct Hzero as (x & Hx & Hz).
      apply In_nth_error in Hx. destruct Hx as (p & Hp).
      assert (Hlt : (p < length t)%nat) by (apply nth_error_Some; congruence).
      apply Exists_exists. exists (Z.of_nat p). split.
      * apply CoveringDesignsProofs.in_range. lia.
      * rewrite (at_index_ok t (Z.of_nat p) float_zero) by lia. cbn [bind].
        rewrite Nat2Z.id, (nth_error_nth _ _ _ Hp).
        unfold int_floordiv_float. rewrite E. cbn [bind]. unfold float_floordiv.
        rewrite Hz. reflexivity.
Qed.

Lemma symmetry_handling_failures_witness :
  let inst := mkNoiseDosage "w" 2 3 [float_one; float_half] [4; 5]
                            [float_two; float_zero] 8 in
  (2 = 0 -> generate_noise_dosage inst true = Raise (ValueError EmptySequence)) /\
  (0 < 2 -> is_ok (float_of_int 8) = false ->
   generate_noise_dosage inst true = Raise OverflowError) /\
  (is_ok (float_of_int 8) = true ->
   Exists (fun x => is_zero x = true) [float_two; float_zero] ->
   generate_noise_dosage inst true = Raise ZeroDivisionError).
Proof.
  intros inst.
  apply (symmetry_handling_failures "w" 2 3 [float_one; float_half] [4; 5]
           [float_two; float_zero] 8 inst).
  reflexivity.
Defined.

End SymmetryProofs.

(* ===================================================================== *)
(** * Part XIX. More on noise_dosage/data_generator.py *)
(* ===================================================================== *)

Module GeneratorProofs.
Import Py PyStr PyFloat Scip NoiseDosageModel NoiseDosageProofs DataGenerator.

Local Open Scope Z_scope.

Section Generated.

Variable rng : Type.
Variable Random : Z -> rng.
Variable randint : Z -> Z -> rng -> Z * rng.
Variable random : rng -> float * rng.
Variable NormalDist : Type.
Variable NormalDist_new : num -> num -> result NormalDist.
Variable inv_cdf : NormalDist -> float -> result float.

Lemma draw_jobs_length count : forall rgen,
  length (fst (draw_jobs rng randint count rgen)) = count.
Proof.
  induction count as [|count IH]; intros rgen; cbn [draw_jobs]; [reflexivity|].
  destruct (randint 4 10 rgen) as [x rgen'].
  specialize (IH rgen'). destruct (draw_jobs rng randint count rgen') as [xs rgen''].
  cbn [fst length] in *. congruence.
Qed.

Lemma draw_jobs_range count :
  (forall a b g, a <= b -> a <= fst (randint a b g) <= b) ->
  forall rgen, Forall (fun x => 4 <= x <= 10) (fst (draw_jobs rng randint count rgen)).
Proof.
  intros Hrange. induction count as [|count IH]; intros rgen; cbn [draw_jobs].
  - constructor.
  - pose proof (Hrange 4 10 rgen ltac:(lia)) as Hx.
    destruct (randint 4 10 rgen) as [x rgen'].
    specialize (IH rgen'). destruct (draw_jobs rng randint count rgen') as [xs rgen''].
    cbn [fst] in *. constructor; assumption.
Qed.

Lemma resample_not_negative fuel : forall dist rgen x rgen',
  resample rng random NormalDist inv_cdf fuel dist rgen = Some (Ok (x, rgen')) ->
  float_ltb x float_zero = false.
Proof.
  induction fuel as [|fuel IH]; intros dist rgen x rgen'; cbn [resample]; [discriminate|].
  destruct (random rgen) as [p rgen1].
  destruct (inv_cdf dist p) as [ret|e]; [|discriminate].
  destruct (float_ltb ret float_zero) eqn:Hneg.
  - apply IH.
  - intros E. inversion E; subst. assumption.
Qed.

Lemma draw_floats_spec fuel dist count : forall rgen xs rgen',
  draw_floats rng random NormalDist inv_cdf fuel dist count rgen = Some (Ok (xs, rgen')) ->
  length xs = count /\ Forall (fun x => float_ltb x float_zero = false) xs.
Proof.
  induction count as [|count IH]; intros rgen xs rgen'; cbn [draw_floats].
  - intros E. inversion E. split; [reflexivity|constructor].
  - destruct (resample _ _ _ _ fuel dist rgen) as [[[x rgen1]|e]|] eqn:Hx; try discriminate.
    destruct (draw_floats _ _ _ _ fuel dist count rgen1) as [[[xs' rgen2]|e]|] eqn:Hxs;
      try discriminate.
    intros E. inversion E; subst. destruct (IH _ _ _ Hxs) as (Hlen & Hall).
    split; [simpl; congruence|]. constructor; [|assumption].
    eapply resample_not_negative. eassumption.
Qed.

(** Property X9. An instance returned by [generate_instance] has the
    name, the numbers of machines and workers asked for, and
    [worker_hours] as its hour budget; there is at least one machine; the
    lists [d], [t] and [alpha] have one item per machine; every [d[i]] is
    between 4 and 10 when [randint] keeps to its bounds; and no [t[i]] and
    no [alpha[i]] is negative. *)
Theorem generated_instance_is_well_formed
    fuel n_machines n_workers worker_hours seed w inst w' :
  (forall a b g, a <= b -> a <= fst (randint a b g) <= b) ->
  generate_instance rng Random randint random NormalDist NormalDist_new inv_cdf
    fuel n_machines n_workers worker_hours seed w = Some (Ok inst, w') ->
  name inst = instance_name n_machines n_workers worker_hours seed /\
  m inst = n_machines /\ n inst = n_workers /\ total_hours inst = worker_hours /\
  0 < n_machines /\
  Z.of_nat (length (d inst)) = n_machines /\
  Z.of_nat (length (t inst)) = n_machines /\
  Z.of_nat (length (alpha inst)) = n_machines /\
  Forall (fun x => 4 <= x <= 10) (d inst) /\
  Forall (fun x => float_ltb x float_zero = false) (t inst) /\
  Forall (fun x => float_ltb x float_zero = false) (alpha inst).
Proof.
  intros Hrange. unfold generate_instance, prepare.
  destruct (int_truediv_float (n_workers * worker_hours) float_two) as [aimed|e];
    cbn [bind]; [|discriminate].
  pose proof (draw_jobs_length (Z.to_nat n_machines) (Random seed)) as Hdlen.
  pose proof (draw_jobs_range (Z.to_nat n_machines) Hrange (Random seed)) as Hdrange.
  destruct (draw_jobs rng randint (Z.to_nat n_machines) (Random seed)) as [d0 rgen0].
  cbn [fst] in Hdlen, Hdrange.
  destruct (float_truediv_int aimed (sum d0)) as [mean|e] eqn:Hmean; cbn [bind];
    [|discriminate].
  destruct (NormalDist_new (Float mean) (Float (fmul mean float_fifth))) as [dist|e];
    cbn [bind]; [|discriminate].
  destruct (draw_floats _ _ _ _ fuel dist (Z.to_nat n_machines) rgen0)
    as [[[t0 rgen1]|e]|] eqn:Ht; try discriminate.
  destruct (NormalDist_new (Int 18) (Int 4)) as [dist'|e]; [|discriminate].
  destruct (draw_floats _ _ _ _ fuel dist' (Z.to_nat n_machines) rgen1)
    as [[[alpha0 rgen2]|e]|] eqn:Ha; try discriminate.
  intros E. inversion E as [[Hinit Hw]]. clear E.
  apply NoiseDosage_init_ok in Hinit. destruct Hinit as (-> & Hla & Hld & Hlt).
  destruct (draw_floats_spec _ _ _ _ _ _ Ht) as (_ & Htpos).
  destruct (draw_floats_spec _ _ _ _ _ _ Ha) as (_ & Hapos).
  cbn. repeat split; try assumption; try reflexivity.
  (* a machine exists, or the mean duration is a division by zero *)
  destruct (Z.ltb_spec 0 n_machines) as [|Hle]; [assumption|exfalso].
  replace (Z.to_nat n_machines) with 0%nat in Hdlen by lia.
  destruct d0; [|discriminate].
  revert Hmean. unfold float_truediv_int, sum. cbn [fold_left].
  change (float_of_int 0) with (Ok float_zero). cbn [bind].
  unfold float_truediv. cbn. discriminate.
Qed.

(** Property X10. For [n_machines <= 0] (and a product
    [n_workers * worker_hours] within the range of [float]),
    [generate_instance] raises [ZeroDivisionError]: the mean job duration
    divides by [sum(d)], which is zero. *)
Theorem generate_instance_needs_a_machine
    fuel n_machines n_workers worker_hours seed w :
  n_machines <= 0 ->
  is_ok (float_of_int (n_workers * worker_hours)) = true ->
  generate_instance rng Random randint random NormalDist NormalDist_new inv_cdf
    fuel n_machines n_workers worker_hours seed w = Some (Raise ZeroDivisionError, w).
Proof.
  intros Hm Hhours. unfold generate_instance, prepare, int_truediv_float.
  destruct (float_of_int (n_workers * worker_hours)) as [hours|e]; [|discriminate].
  cbn [bind]. unfold float_truediv at 1. change (is_zero float_two) with false.
  cbn [bind]. replace (Z.to_nat n_machines) with 0%nat by lia. cbn [draw_jobs].
  unfold float_truediv_int, sum. cbn [fold_left].
  change (float_of_int 0) with (Ok float_zero). cbn [bind]. reflexivity.
Qed.

End Generated.

Lemma counter_randint_range a b g : a <= b -> a <= fst (counter_randint a b g) <= b.
Proof.
  intros H. unfold counter_randint. cbn [fst].
  pose proof (Z.mod_pos_bound g (b - a + 1) ltac:(lia)). lia.
Qed.

Lemma generated_instance_is_well_formed_witness :
  exists inst,
    generate_instance Z (fun seed => seed) counter_randint counter_random
      unit flat_dist flat_inv_cdf 1 2 3 480 7 (mkInterpreter Z 0)
    = Some (Ok inst, mkInterpreter Z 0) /\
    Forall (fun x => 4 <= x <= 10) (d inst) /\
    Forall (fun x => float_ltb x float_zero = false) (t inst) /\
    Forall (fun x => float_ltb x float_zero = false) (alpha inst).
Proof.
  destruct (generate_instance Z (fun seed => seed) counter_randint counter_random
              unit flat_dist flat_inv_cdf 1 2 3 480 7 (mkInterpreter Z 0))
    as [[[inst|e] w']|] eqn:E;
    try (exfalso; revert E; vm_compute; discriminate).
  assert (Hw : w' = mkInterpreter Z 0) by (revert E; vm_compute; congruence).
  subst w'.
  pose proof (generated_instance_is_well_formed Z (fun seed => seed) counter_randint
                counter_random unit flat_dist flat_inv_cdf 1 2 3 480 7
                (mkInterpreter Z 0) inst (mkInterpreter Z 0)
                counter_randint_range E) as H.
  exists inst. split; [reflexivity|]. tauto.
Defined.

Lemma generate_instance_needs_a_machine_witness :
  generate_instance Z (fun seed => seed) counter_randint counter_random
    unit flat_dist flat_inv_cdf 1 0 3 480 7 (mkInterpreter Z 0)
  = Some (Raise ZeroDivisionError, mkInterpreter Z 0).
Proof.
  apply (generate_instance_needs_a_machine Z (fun seed => seed) counter_randint
           counter_random unit flat_dist flat_inv_cdf 1 0 3 480 7 (mkInterpreter Z 0)).
  - lia.
  - reflexivity.
Defined.

End GeneratorProofs.

(* ===================================================================== *)
(** * Part XX. More on noise_dosage/generate.py: the reader *)
(* ===================================================================== *)

Module ReaderMoreProofs.
Import Py PyStr PyFloat NoiseDosageModel PyStrProofs NoiseDosageProofs ReaderProofs.

Local Open Scope Z_scope.

(** ** What follows the fifth line *)

Lemma universal_newlines_line_aux k : forall body rest,
  (String.length body <= k)%nat ->
  universal_newlines (body ++ String newline rest)
  = (universal_newlines (body ++ String newline "") ++ universal_newlines rest)%string.
Proof.
  induction k as [|k IH]; intros body rest Hlen.
  - destruct body; [reflexivity|simpl in Hlen; lia].
  - destruct body as [|c r]; [reflexivity|].
    cbn [String.append universal_newlines].
    destruct (Ascii.eqb c carriage_return).
    + destruct r as [|c' r'].
      * reflexivity.
      * cbn [String.append]. destruct (Ascii.eqb c' newline).
        -- cbn [String.append]. f_equal. apply IH. simpl in Hlen. lia.
        -- cbn [String.append]. f_equal.
           apply (IH (String c' r')). simpl in *. lia.
    + cbn [String.append]. f_equal. apply IH. simpl in Hlen. lia.
Qed.

Lemma universal_newlines_line body rest :
  universal_newlines (body ++ String newline rest)
  = (universal_newlines (body ++ String newline "") ++ universal_newlines rest)%string.
Proof. apply (universal_newlines_line_aux (String.length body)). lia. Qed.

Lemma universal_newlines_ends k : forall body,
  (String.length body <= k)%nat ->
  exists body', universal_newlines (body ++ String newline "")
                = (body' ++ String newline "")%string.
Proof.
  induction k as [|k IH]; intros body Hlen.
  - destruct body; [exists EmptyString; reflexivity|simpl in Hlen; lia].
  - destruct body as [|c r]; [exists EmptyString; reflexivity|].
    cbn [String.append universal_newlines].
    destruct (Ascii.eqb c carriage_return).
    + destruct r as [|c' r'].
      * exists EmptyString. reflexivity.
      * cbn [String.append]. destruct (Ascii.eqb c' newline).
        -- destruct (IH r' ltac:(simpl in Hlen; lia)) as (b & ->).
           exists (String newline b). reflexivity.
        -- destruct (IH (String c' r') ltac:(simpl in *; lia)) as (b & Hb).
           cbn [String.append] in Hb. rewrite Hb.
           exists (String newline b). reflexivity.
    + destruct (IH r ltac:(simpl in Hlen; lia)) as (b & ->).
      exists (String c b). reflexivity.
Qed.

Lemma lines_of_not_nil c r : lines_of (String c r) <> [].
Proof.
  cbn [lines_of]. destruct (Ascii.eqb c newline); [discriminate|].
  destruct (lines_of r); discriminate.
Qed.

Lemma lines_of_line_app body : forall rest,
  lines_of (body ++ String newline rest)
  = lines_of (body ++ String newline "") ++ lines_of rest.
Proof.
  induction body as [|c r IH]; intros rest; [reflexivity|].
  cbn [String.append lines_of]. destruct (Ascii.eqb c newline).
  - rewrite IH. reflexivity.
  - rewrite IH.
    destruct (lines_of (r ++ String newline "")) as [|l ls] eqn:E; [|reflexivity].
    exfalso. destruct r; simpl in E; [discriminate|].
    revert E. apply lines_of_not_nil.
Qed.

(** The lines of a text that ends a line, followed by more text. *)
Lemma readlines_app body more :
  readlines (body ++ String newline more)
  = readlines (body ++ String newline "") ++ readlines more.
Proof.
  unfold readlines. rewrite universal_newlines_line.
  destruct (universal_newlines_ends (String.length body) body (le_n _)) as (b & ->).
  rewrite append_assoc. cbn [String.append]. apply lines_of_line_app.
Qed.

Lemma index_app_l {A} (l l' : list A) k :
  (k < length l)%nat -> index (l ++ l') k = index l k.
Proof. intros H. unfold index. rewrite nth_error_app1 by assumption. reflexivity. Qed.

(** Property X11. [read_noise_dosage] reads five lines and ignores what
    follows them: a text of at least five complete lines is read the same
    way whatever is appended to it. *)
Theorem read_noise_dosage_ignores_more_lines stem body more :
  (5 <= length (readlines (body ++ String newline "")))%nat ->
  read_noise_dosage stem (body ++ String newline more)
  = read_noise_dosage stem (body ++ String newline "").
Proof.
  intros Hlen. unfold read_noise_dosage. rewrite readlines_app.
  rewrite !index_app_l by lia. reflexivity.
Qed.

Lemma read_noise_dosage_ignores_more_lines_witness :
  let body := (text_of ["2 3"; "1e0 2e0"; "4 5"; "5e-1 1e0"] ++ "480")%string in
  read_noise_dosage "n" (body ++ String newline "not a number")
  = read_noise_dosage "n" (body ++ String newline "").
Proof.
  intros body.
  apply (read_noise_dosage_ignores_more_lines "n" body "not a number").
  vm_compute. lia.
Defined.

(** ** What each exception tells *)

Lemma mapM_raise_value {A} (f : string -> result A) l e :
  (forall s e, f s = Raise e -> exists why, e = ValueError why) ->
  mapM f l = Raise e -> exists why, e = ValueError why.
Proof. intros Hf. apply (mapM_raise f (fun e => exists why, e = ValueError why)). assumption. Qed.

Lemma int_of_str_raise_value s e : int_of_str s = Raise e -> exists why, e = ValueError why.
Proof.
  unfold int_of_str. destruct (take_sign (strip s)) as [neg body].
  destruct (parse_unsigned body); [discriminate|].
  intros E. inversion E. eauto.
Qed.

Lemma float_of_str_raise_value s e :
  float_of_str s = Raise e -> exists why, e = ValueError why.
Proof.
  unfold float_of_str. destruct (take_sign (strip s)) as [neg body].
  destruct (_ || _); [discriminate|]. destruct (String.eqb _ _); [discriminate|].
  destruct (parse_decimal body) as [[N X]|]; [discriminate|].
  intros E. inversion E. eauto.
Qed.

Lemma unpack2_raise_value {A} (f : string -> result A) toks e :
  (forall s e, f s = Raise e -> exists why, e = ValueError why) ->
  unpack2 f toks = Raise e -> exists why, e = ValueError why.
Proof.
  intros Hf. unfold unpack2.
  destruct toks as [|a [|b rest]].
  - intros E. inversion E. eauto.
  - destruct (f a) eqn:Ha; cbn [bind]; intros E; inversion E; subst; eauto.
  - destruct (f a) eqn:Ha; cbn [bind]; [|intros E; inversion E; subst; eauto].
    destruct (f b) eqn:Hb; cbn [bind]; [|intros E; inversion E; subst; eauto].
    destruct rest as [|c rest]; [discriminate|].
    destruct (f c) eqn:Hc; cbn [bind]; intros E; inversion E; subst; eauto.
Qed.

Lemma index_raise_short {A} (l : list A) k e :
  index l k = Raise e -> e = IndexError /\ (length l <= k)%nat.
Proof.
  unfold index. destruct (nth_error l k) eqn:E; [discriminate|].
  intros H. inversion H. split; [reflexivity|]. apply nth_error_None. assumption.
Qed.

(** Property X12. What [read_noise_dosage] raises tells what is wrong
    with the file: an [IndexError], that it has fewer than five lines; an
    [AssertionError], that its five lines were read as numbers and that
    [alpha], [d] or [t] has not [m] items; anything else is a [ValueError]
    of [int], [float] or of the unpacking of the first line. *)
Theorem read_noise_dosage_error_causes stem content e :
  read_noise_dosage stem content = Raise e ->
  let lines := readlines content in
  (* a line is missing *)
  (e = IndexError /\ (length lines < 5)%nat) \/
  (* a line does not read as numbers, or the first line not as two *)
  (exists why, e = ValueError why) \/
  (* the five lines are read, and a count is not [m] *)
  (e = AssertionError /\
   exists m n alpha d t total_hours,
     unpack2 int_of_str (fields lines 0) = Ok (m, n) /\
     mapM float_of_str (fields lines 1) = Ok alpha /\
     mapM int_of_str (fields lines 2) = Ok d /\
     mapM float_of_str (fields lines 3) = Ok t /\
     int_of_str (strip (nth 4 lines EmptyString)) = Ok total_hours /\
     ~ (Z.of_nat (length alpha) = m /\ Z.of_nat (length d) = m /\
        Z.of_nat (length t) = m)).
Proof.
  unfold read_noise_dosage, fields. cbv zeta.
  destruct (index (readlines content) 0) as [line0|e0] eqn:H0; cbn [bind].
  2:{ intros E; inversion E; subst. left.
      destruct (index_raise_short _ _ _ H0). split; [assumption|lia]. }
  destruct (unpack2 int_of_str (split (strip line0))) as [[m0 n0]|e0] eqn:Hmn; cbn [bind].
  2:{ intros E; inversion E; subst. right. left.
      eapply unpack2_raise_value; [apply int_of_str_raise_value|eassumption]. }
  destruct (index (readlines content) 1) as [line1|e0] eqn:H1; cbn [bind].
  2:{ intros E; inversion E; subst. left.
      destruct (index_raise_short _ _ _ H1). split; [assumption|lia]. }
  destruct (mapM float_of_str (split (strip line1))) as [alpha0|e0] eqn:Ha; cbn [bind].
  2:{ intros E; inversion E; subst. right. left.
      eapply mapM_raise_value; [apply float_of_str_raise_value|eassumption]. }
  destruct (index (readlines content) 2) as [line2|e0] eqn:H2; cbn [bind].
  2:{ intros E; inversion E; subst. left.
      destruct (index_raise_short _ _ _ H2). split; [assumption|lia]. }
  destruct (mapM int_of_str (split (strip line2))) as [d0|e0] eqn:Hd; cbn [bind].
  2:{ intros E; inversion E; subst. right. left.
      eapply mapM_raise_value; [apply int_of_str_raise_value|eassumption]. }
  destruct (index (readlines content) 3) as [line3|e0] eqn:H3; cbn [bind].
  2:{ intros E; inversion E; subst. left.
      destruct (index_raise_short _ _ _ H3). split; [assumption|lia]. }
  destruct (mapM float_of_str (split (strip line3))) as [t0|e0] eqn:Ht; cbn [bind].
  2:{ intros E; inversion E; subst. right. left.
      eapply mapM_raise_value; [apply float_of_str_raise_value|eassumption]. }
  destruct (index (readlines content) 4) as [line4|e0] eqn:H4; cbn [bind].
  2:{ intros E; inversion E; subst. left.
      destruct (index_raise_short _ _ _ H4). split; [assumption|lia]. }
  destruct (int_of_str (strip line4)) as [th|e0] eqn:Hth; cbn [bind].
  2:{ intros E; inversion E; subst. right. left.
      eapply int_of_str_raise_value; eassumption. }
  rewrite NoiseDosage_init_spec. unfold len_is.
  destruct (_ && _) eqn:Hlens; [discriminate|].
  intros E. inversion E; subst. right. right. split; [reflexivity|].
  destruct (index_ok _ _ _ EmptyString H0) as (_ & ->).
  destruct (index_ok _ _ _ EmptyString H1) as (_ & ->).
  destruct (index_ok _ _ _ EmptyString H2) as (_ & ->).
  destruct (index_ok _ _ _ EmptyString H3) as (_ & ->).
  destruct (index_ok _ _ _ EmptyString H4) as (_ & ->).
  exists m0, n0, alpha0, d0, t0, th. repeat split; try assumption.
  intros (E1 & E2 & E3). rewrite E1, E2, E3, Z.eqb_refl in Hlens. discriminate.
Qed.

Lemma read_noise_dosage_error_causes_witness :
  let lines := readlines short_alpha_file in
  (AssertionError = IndexError /\ (length lines < 5)%nat) \/
  (exists why, AssertionError = ValueError why) \/
  (AssertionError = AssertionError /\
   exists m n alpha d t total_hours,
     unpack2 int_of_str (fields lines 0) = Ok (m, n) /\
     mapM float_of_str (fields lines 1) = Ok alpha /\
     mapM int_of_str (fields lines 2) = Ok d /\
     mapM float_of_str (fields lines 3) = Ok t /\
     int_of_str (strip (nth 4 lines EmptyString)) = Ok total_hours /\
     ~ (Z.of_nat (length alpha) = m /\ Z.of_nat (length d) = m /\
        Z.of_nat (length t) = m)).
Proof.
  apply (read_noise_dosage_error_causes "noise2_3" short_alpha_file AssertionError).
  vm_compute. reflexivity.
Defined.

End ReaderMoreProofs.

(* ===================================================================== *)
(** * Part XXI. More on Python floats: the digits of a float read back *)
(* ===================================================================== *)

Module StableDigitsProofs.
Import Py PyStr PyFloat PyStrProofs PyFloatProofs.

Local Open Scope Z_scope.

(** ** Rounding to nearest even, once more *)

Lemma round_ne_div_strict a b j :
  0 < b -> 2 * Z.abs (j * b - a) < b -> round_ne_div a b = j.
Proof.
  intros Hb H. pose proof (round_ne_div_half a b Hb) as Hr.
  destruct (Z.eq_dec (round_ne_div a b) j) as [|Hne]; [assumption|exfalso].
  assert (b <= Z.abs (j * b - round_ne_div a b * b)) by nia.
  lia.
Qed.

Lemma round_ne_div_tie a b :
  0 < b -> 2 * Z.abs (round_ne_div a b * b - a) = b ->
  Z.even (round_ne_div a b) = true.
Proof.
  intros Hb. unfold round_ne_div.
  pose proof (Z.div_mod a b ltac:(lia)) as E.
  pose proof (Z.mod_pos_bound a b Hb) as Hr.
  destruct (Z.ltb_spec (2 * (a mod b)) b); [lia|].
  destruct (Z.ltb_spec b (2 * (a mod b))); [lia|].
  destruct (Z.even (a / b)) eqn:Hev; [auto|].
  intros _. rewrite Z.even_add, Hev. reflexivity.
Qed.

Lemma round_ne_div_even a b j :
  0 < b -> 2 * Z.abs (j * b - a) = b -> Z.even j = true -> round_ne_div a b = j.
Proof.
  intros Hb H Hj. pose proof (round_ne_div_half a b Hb) as Hr.
  destruct (Z.eq_dec (round_ne_div a b) j) as [|Hne]; [assumption|exfalso].
  assert (Hd : b <= Z.abs (j * b - round_ne_div a b * b)) by nia.
  assert (Ht : 2 * Z.abs (round_ne_div a b * b - a) = b) by lia.
  pose proof (round_ne_div_tie a b Hb Ht) as Hev.
  assert (Hone : Z.abs (j - round_ne_div a b) = 1) by nia.
  assert (Hodd : Z.even (j - round_ne_div a b) = false).
  { destruct (Z.abs_eq_or_opp (j - round_ne_div a b)) as [E|E];
      rewrite E in Hone.
    - rewrite Hone. reflexivity.
    - replace (j - round_ne_div a b) with (-1) by lia. reflexivity. }
  rewrite Z.even_sub, Hj, Hev in Hodd. discriminate.
Qed.

Lemma round_ne_div_scale a b c :
  0 < b -> 0 < c -> round_ne_div (a * c) (b * c) = round_ne_div a b.
Proof.
  intros Hb Hc. unfold round_ne_div.
  rewrite Z.div_mul_cancel_r by lia.
  rewrite Zmult_mod_distr_r.
  destruct (Z.ltb_spec (2 * (a mod b)) b), (Z.ltb_spec (2 * (a mod b * c)) (b * c));
    try nia; try reflexivity.
  destruct (Z.ltb_spec b (2 * (a mod b))), (Z.ltb_spec (b * c) (2 * (a mod b * c)));
    try nia; reflexivity.
Qed.

(** ** The decade of a quotient *)

Lemma pow10_pos k : 0 <= k -> 0 < 10 ^ k.
Proof. intros. apply Z.pow_pos_nonneg; lia. Qed.

Lemma pow10_add a b : 0 <= a -> 0 <= b -> 10 ^ (a + b) = 10 ^ a * 10 ^ b.
Proof. intros. apply Z.pow_add_r; assumption. Qed.

(** [10^E <= n / d < 10^(E + 1)] for [E = ilog10 n d], with the powers
    shifted by [B] to be integers. *)
Lemma ilog10_decade n d B :
  0 < n -> 0 < d -> 0 <= B -> 0 <= ilog10 n d + B ->
  d * 10 ^ (ilog10 n d + B) <= n * 10 ^ B < d * 10 ^ (ilog10 n d + B + 1).
Proof.
  intros Hn Hd HB HEB.
  pose proof (ilog10_spec n d Hn Hd) as (Hpos & Hneg). cbv zeta in Hpos, Hneg.
  set (E := ilog10 n d) in *; clearbody E.
  destruct (Z_le_gt_dec 0 E) as [HE|HE].
  - destruct (Hpos HE) as (Hlo & Hhi).
    replace (E + B + 1) with ((E + 1) + B) by lia.
    rewrite (pow10_add E B), (pow10_add (E + 1) B) by lia.
    pose proof (pow10_pos B HB) as HpB. rewrite !Z.mul_assoc.
    split.
    + apply Z.mul_le_mono_nonneg_r; lia.
    + apply Z.mul_lt_mono_pos_r; lia.
  - destruct (Hneg ltac:(lia)) as (Hlo & Hhi).
    assert (E1 : 10 ^ B = 10 ^ (- E) * 10 ^ (E + B))
      by (rewrite <- pow10_add by lia; f_equal; lia).
    assert (E2 : 10 ^ B = 10 ^ (- E - 1) * 10 ^ (E + B + 1))
      by (rewrite <- pow10_add by lia; f_equal; lia).
    pose proof (pow10_pos (E + B) HEB). pose proof (pow10_pos (E + B + 1) ltac:(lia)).
    split.
    + rewrite E1, Z.mul_assoc. apply Z.mul_le_mono_nonneg_r; lia.
    + rewrite E2, Z.mul_assoc. apply Z.mul_lt_mono_pos_r; lia.
Qed.

Lemma ilog10_unique n d B E :
  0 < n -> 0 < d -> 0 <= B -> 0 <= E + B ->
  d * 10 ^ (E + B) <= n * 10 ^ B < d * 10 ^ (E + B + 1) ->
  ilog10 n d = E.
Proof.
  intros Hn Hd HB HEB (Hlo & Hhi).
  set (E0 := ilog10 n d).
  set (C := Z.abs E0).
  pose proof (ilog10_decade n d (B + C) Hn Hd ltac:(lia) ltac:(fold E0; lia)) as (Hlo0 & Hhi0).
  fold E0 in Hlo0, Hhi0.
  assert (HC : 0 < 10 ^ C) by (apply pow10_pos; lia).
  assert (Hlo' : d * 10 ^ (E + (B + C)) <= n * 10 ^ (B + C)).
  { replace (E + (B + C)) with ((E + B) + C) by lia.
    rewrite (pow10_add (E + B) C), (pow10_add B C), !Z.mul_assoc by lia.
    apply Z.mul_le_mono_nonneg_r; lia. }
  assert (Hhi' : n * 10 ^ (B + C) < d * 10 ^ (E + (B + C) + 1)).
  { replace (E + (B + C) + 1) with ((E + B + 1) + C) by lia.
    rewrite (pow10_add (E + B + 1) C), (pow10_add B C), !Z.mul_assoc by lia.
    apply Z.mul_lt_mono_pos_r; lia. }
  destruct (Z.lt_trichotomy E0 E) as [Hlt|[Heq|Hgt]]; [exfalso|assumption|exfalso].
  - assert (10 ^ (E0 + (B + C) + 1) <= 10 ^ (E + (B + C)))
      by (apply Z.pow_le_mono_r; lia).
    nia.
  - assert (10 ^ (E + (B + C) + 1) <= 10 ^ (E0 + (B + C)))
      by (apply Z.pow_le_mono_r; lia).
    nia.
Qed.

(** The digits before a carry are [n / d] over [10^(E - 6)], rounded. *)
Lemma raw_digits_shifted n d B :
  0 < d -> 0 <= B -> 0 <= ilog10 n d - 6 + B ->
  raw_digits n d = round_ne_div (n * 10 ^ B) (d * 10 ^ (ilog10 n d - 6 + B)).
Proof.
  intros Hd HB HEB. unfold raw_digits. set (E := ilog10 n d) in *; clearbody E.
  destruct (Z.leb_spec E 6) as [H6|H6].
  - rewrite <- (round_ne_div_scale (n * 10 ^ (6 - E)) d (10 ^ (E - 6 + B)))
      by (try apply pow10_pos; lia).
    rewrite <- Z.mul_assoc, <- pow10_add by lia.
    replace (6 - E + (E - 6 + B)) with B by lia. reflexivity.
  - rewrite <- (round_ne_div_scale n (d * 10 ^ (E - 6)) (10 ^ B)).
    + rewrite <- Z.mul_assoc, <- pow10_add by lia. reflexivity.
    + pose proof (pow10_pos (E - 6) ltac:(lia)). nia.
    + apply pow10_pos. assumption.
Qed.

(** ** A quotient on the decimal scale *)

Lemma float_unit_pos : 0 < float_unit.
Proof. unfold float_unit. apply Z.pow_pos_nonneg; lia. Qed.

Lemma decimal_unit_pos : 0 < decimal_unit.
Proof. unfold decimal_unit. apply Z.pow_pos_nonneg; lia. Qed.

Lemma decimal_step_pos E : -325 <= E -> 0 < decimal_step E.
Proof.
  intros H. unfold decimal_step.
  apply Z.mul_pos_pos; [apply pow10_pos; lia|apply float_unit_pos].
Qed.

Lemma decimal_step_next E : -325 <= E -> decimal_step (E + 1) = 10 * decimal_step E.
Proof.
  intros H. unfold decimal_step.
  replace (E + 1 + 325) with (1 + (E + 325)) by lia.
  rewrite pow10_add by lia. change (10 ^ 1) with 10. ring.
Qed.

(** The two units against each other, and the float nearest to
    [10^-317]. *)
Lemma scale_facts :
  float_unit < 10 ^ 324 /\
  decimal_unit <= 10 ^ 8 * float_unit /\
  10 ^ 7 * float_unit < decimal_unit /\
  round_ne_div (1000000 * (10 ^ 8 * float_unit)) decimal_unit = 2024023 /\
  1000000 * (10 ^ 8 * float_unit) < 2024023 * decimal_unit.
Proof. vm_compute. repeat split; discriminate. Qed.

(** A quotient of at least [2^-1074] is at least [10^-324]. *)
Lemma ilog10_least n d a :
  0 < n -> 0 < d -> 0 < a -> n * float_unit = a * d -> -324 <= ilog10 n d.
Proof.
  intros Hn Hd Ha Hnd.
  pose proof (ilog10_spec n d Hn Hd) as (_ & Hneg). cbv zeta in Hneg.
  set (E := ilog10 n d) in *. clearbody E.
  destruct (Z_le_gt_dec (-324) E) as [|HE]; [assumption|exfalso].
  destruct (Hneg ltac:(lia)) as (_ & Hhi).
  assert (H324 : 10 ^ 324 <= 10 ^ (- E - 1)) by (apply Z.pow_le_mono_r; lia).
  destruct scale_facts as (HT & _).
  set (q := 10 ^ 324) in *. clearbody q.
  set (p := 10 ^ (- E - 1)) in *. clearbody p.
  set (T := float_unit) in *. clearbody T.
  nia.
Qed.

(** The decade and the digits of [n / d = a * 2^-1074], on the scale. *)
Lemma decade_on_scale n d a :
  0 < n -> 0 < d -> 0 < a -> n * float_unit = a * d ->
  let E := ilog10 n d in
  10 ^ 6 * decimal_step E <= on_decimal_scale a < 10 ^ 7 * decimal_step E /\
  raw_digits n d = round_ne_div (on_decimal_scale a) (decimal_step E).
Proof.
  intros Hn Hd Ha Hnd E.
  pose proof (ilog10_least n d a Hn Hd Ha Hnd) as HE. fold E in HE.
  pose proof (ilog10_decade n d 331 Hn Hd ltac:(lia) ltac:(fold E; lia)) as (Hlo & Hhi).
  pose proof (raw_digits_shifted n d 331 Hd ltac:(lia) ltac:(fold E; lia)) as Hraw.
  fold E in Hlo, Hhi, Hraw. clearbody E.
  change (10 ^ 331) with decimal_unit in Hlo, Hhi, Hraw.
  replace (E - 6 + 331) with (E + 325) in Hraw by lia.
  rewrite Hraw. clear Hraw.
  unfold decimal_step, on_decimal_scale.
  assert (E6 : 10 ^ (E + 331) = 10 ^ 6 * 10 ^ (E + 325))
    by (rewrite <- pow10_add by lia; f_equal; lia).
  assert (E7 : 10 ^ (E + 331 + 1) = 10 ^ 7 * 10 ^ (E + 325))
    by (rewrite <- pow10_add by lia; f_equal; lia).
  pose proof (pow10_pos (E + 325) ltac:(lia)) as Hp.
  pose proof decimal_unit_pos as HW. pose proof float_unit_pos as HT.
  rewrite E6 in Hlo. rewrite E7 in Hhi. clear E6 E7.
  set (p := 10 ^ (E + 325)) in *. clearbody p.
  set (T := float_unit) in *. clearbody T.
  set (W := decimal_unit) in *. clearbody W.
  set (c6 := 10 ^ 6) in *. clearbody c6.
  set (c7 := 10 ^ 7) in *. clearbody c7.
  assert (H1 : d * (c6 * p) * T <= n * W * T)
    by (apply Z.mul_le_mono_nonneg_r; lia).
  assert (H2 : n * W * T < d * (c7 * p) * T)
    by (apply Z.mul_lt_mono_pos_r; lia).
  replace (n * W * T) with (a * W * d) in H1, H2 by (rewrite (Z.mul_comm a W), <- Z.mul_assoc, <- Hnd; ring).
  split.
  - split.
    + apply (Z.mul_le_mono_pos_r _ _ d Hd). lia.
    + apply (Z.mul_lt_mono_pos_r d _ _ Hd). lia.
  - rewrite <- (round_ne_div_scale (n * W) (d * p) T) by nia.
    replace (n * W * T) with (a * W * d) by (rewrite (Z.mul_comm a W), <- Z.mul_assoc, <- Hnd; ring).
    replace (d * p * T) with (p * T * d) by ring.
    apply round_ne_div_scale; nia.
Qed.

Lemma decade_unique n d a E :
  0 < n -> 0 < d -> 0 < a -> n * float_unit = a * d -> -325 <= E ->
  10 ^ 6 * decimal_step E <= on_decimal_scale a < 10 ^ 7 * decimal_step E ->
  ilog10 n d = E.
Proof.
  intros Hn Hd Ha Hnd HE. unfold decimal_step, on_decimal_scale. intros (Hlo & Hhi).
  apply (ilog10_unique n d 331); try lia.
  change (10 ^ 331) with decimal_unit.
  assert (E6 : 10 ^ (E + 331) = 10 ^ 6 * 10 ^ (E + 325))
    by (rewrite <- pow10_add by lia; f_equal; lia).
  assert (E7 : 10 ^ (E + 331 + 1) = 10 ^ 7 * 10 ^ (E + 325))
    by (rewrite <- pow10_add by lia; f_equal; lia).
  rewrite E6, E7. clear E6 E7.
  pose proof (pow10_pos (E + 325) ltac:(lia)) as Hp.
  pose proof float_unit_pos as HT.
  set (p := 10 ^ (E + 325)) in *. clearbody p.
  set (T := float_unit) in *. clearbody T.
  set (W := decimal_unit) in *. clearbody W.
  set (c6 := 10 ^ 6) in *. clearbody c6.
  set (c7 := 10 ^ 7) in *. clearbody c7.
  assert (H1 : d * (c6 * (p * T)) <= d * (a * W))
    by (apply Z.mul_le_mono_nonneg_l; lia).
  assert (H2 : d * (a * W) < d * (c7 * (p * T)))
    by (apply Z.mul_lt_mono_pos_l; lia).
  replace (d * (a * W)) with (n * T * W) in H1, H2 by (rewrite Hnd; ring).
  split.
  - apply (Z.mul_le_mono_pos_r _ _ T HT). lia.
  - apply (Z.mul_lt_mono_pos_r T _ _ HT). lia.
Qed.

(** ** The digits of the float read back *)

Lemma round_ne_div_within a b j :
  0 < b -> 2 * Z.abs (j * b - a) <= b -> Z.even j = true -> round_ne_div a b = j.
Proof.
  intros Hb H Hj. destruct (Z.eq_dec (2 * Z.abs (j * b - a)) b).
  - apply round_ne_div_even; assumption.
  - apply round_ne_div_strict; lia.
Qed.

(** The float nearest to the seven digits written for [x] is written with
    the same digits. On the decimal scale: [Vx] is [x], [Q] the decimal
    written for it, [Vy] the float nearest to [Q], which the rounding to
    [2^k] units put within [2^k / 2] units of [Q]. *)
Lemma stable_digits E0 ax ay Q k :
  -324 <= E0 -> 0 < ax ->
  let Vx := on_decimal_scale ax in
  let Vy := on_decimal_scale ay in
  let R := round_ne_div Vx (decimal_step E0) in
  10 ^ 6 * decimal_step E0 <= Vx < 10 ^ 7 * decimal_step E0 ->
  Q = R * decimal_step E0 ->
  Z.abs (Vy - Q) <= Z.abs (Vx - Q) ->
  0 <= k -> 2 * Z.abs (Vy - Q) <= 2 ^ k * decimal_unit ->
  (k = 0 \/ 2 ^ (k + 52) * decimal_unit <= Q) ->
  (k = 0 -> ay = round_ne_div Q decimal_unit) ->
  exists E1,
    -325 <= E1 /\
    10 ^ 6 * decimal_step E1 <= Vy < 10 ^ 7 * decimal_step E1 /\
    (if round_ne_div Vy (decimal_step E1) =? 10 ^ 7 then (10 ^ 6, E1 + 1)
     else (round_ne_div Vy (decimal_step E1), E1))
    = (if R =? 10 ^ 7 then (10 ^ 6, E0 + 1) else (R, E0)).
Proof.
  intros HE0 Hax Vx Vy R Hx HQ Hnear Hk Herr Hbig Hsub.
  pose proof (decimal_step_pos E0 ltac:(lia)) as Hs0.
  pose proof (decimal_step_next E0 ltac:(lia)) as Hs1.
  pose proof (decimal_step_next (E0 - 1) ltac:(lia)) as Hsm.
  replace (E0 - 1 + 1) with E0 in Hsm by lia.
  pose proof (decimal_step_pos (E0 - 1) ltac:(lia)) as Hsm0.
  pose proof (round_ne_div_half Vx (decimal_step E0) Hs0) as Hhalf. fold R in Hhalf.
  assert (HR : 10 ^ 6 <= R <= 10 ^ 7).
  { split; [apply round_ne_div_ge|apply round_ne_div_le]; lia. }
  assert (Htie : 2 * Z.abs (R * decimal_step E0 - Vx) = decimal_step E0 -> Z.even R = true)
    by (apply round_ne_div_tie; assumption).
  change (10 ^ 6) with 1000000 in *. change (10 ^ 7) with 10000000 in *.
  assert (HVx : Vx = ax * decimal_unit) by reflexivity.
  assert (HVy : Vy = ay * decimal_unit) by reflexivity.
  clearbody R. clearbody Vx Vy.
  destruct (Z.eqb_spec R 10000000) as [HR7|HR7].
  - (* the digits of [x] carried to the next decade *)
    rewrite HR7 in *.
    destruct (Z_le_gt_dec Q Vy) as [Hy|Hy].
    + exists (E0 + 1). split; [lia|]. rewrite Hs1.
      set (s0 := decimal_step E0) in *. clearbody s0. split; [lia|].
      rewrite (round_ne_div_strict Vy (10 * s0) 1000000) by lia.
      reflexivity.
    + exists E0. split; [lia|].
      set (s0 := decimal_step E0) in *. clearbody s0. split; [lia|].
      rewrite (round_ne_div_within Vy s0 10000000) by (lia || reflexivity).
      reflexivity.
  - destruct (Z.eq_dec R 1000000) as [HR6|HR6].
    + (* the digits of [x] are those of a power of ten *)
      rewrite HR6 in *.
      destruct (Z_le_gt_dec Q Vy) as [Hy|Hy].
      * exists E0. split; [lia|].
        set (s0 := decimal_step E0) in *. clearbody s0. split; [lia|].
        rewrite (round_ne_div_within Vy s0 1000000) by (lia || reflexivity).
        reflexivity.
      * (* the float read back is below the power of ten *)
        exists (E0 - 1). split; [lia|].
        replace (E0 - 1 + 1) with E0 by lia.
        assert (Hclose : 2 * (Q - Vy) <= decimal_step (E0 - 1)).
        { destruct Hbig as [Hk0|Hbig].
          - subst k. change (2 ^ 0) with 1 in Herr. rewrite Z.mul_1_l in Herr.
            specialize (Hsub eq_refl).
            destruct scale_facts as (_ & N2 & N4 & N5 & N6).
            pose proof float_unit_pos as HT. pose proof decimal_unit_pos as HW.
            destruct (Z_le_gt_dec (-316) E0) as [Hup|Hlow].
            + (* the decimals are coarser than the floats *)
              assert (H8 : 10 ^ 8 <= 10 ^ (E0 - 1 + 325)) by (apply Z.pow_le_mono_r; lia).
              unfold decimal_step at 1. clear N5 N6 Hsub.
              set (T := float_unit) in *. clearbody T.
              set (W := decimal_unit) in *. clearbody W.
              set (p := 10 ^ (E0 - 1 + 325)) in *. clearbody p.
              set (c8 := 10 ^ 8) in *. clearbody c8.
              assert (c8 * T <= p * T) by (apply Z.mul_le_mono_nonneg_r; lia). lia.
            + exfalso. destruct (Z.eq_dec E0 (-317)) as [->|Hne].
              * (* the float nearest to [10^-317] is above it *)
                revert Hy. rewrite HVy, Hsub, HQ.
                unfold decimal_step. change (-317 + 325) with 8.
                rewrite N5. clear - N6. lia.
              * (* no float is as near to the power of ten as [x] would be *)
                assert (H7 : 10 ^ (E0 + 325) <= 10 ^ 7) by (apply Z.pow_le_mono_r; lia).
                assert (Hstep : decimal_step E0 < decimal_unit).
                { unfold decimal_step. clear - H7 N4 HT.
                  set (T := float_unit) in *. clearbody T.
                  set (W := decimal_unit) in *. clearbody W.
                  set (p := 10 ^ (E0 + 325)) in *. clearbody p.
                  set (c7 := 10 ^ 7) in *. clearbody c7.
                  assert (p * T <= c7 * T) by (apply Z.mul_le_mono_nonneg_r; lia). lia. }
                clear N2 N4 N5 N6 Hsub.
                set (W := decimal_unit) in *. clearbody W.
                set (s0 := decimal_step E0) in *. clearbody s0.
                subst Vx Vy.
                assert (Hlt : ay < ax) by nia.
                assert (W <= ax * W - ay * W) by nia.
                lia.
          - (* the float keeps 53 bits, more than seven digits *)
            replace (2 ^ (k + 52)) with (2 ^ k * 2 ^ 52) in Hbig
              by (rewrite <- Z.pow_add_r by lia; reflexivity).
            change (2 ^ 52) with 4503599627370496 in Hbig.
            assert (0 < 2 ^ k) by (apply Z.pow_pos_nonneg; lia).
            pose proof decimal_unit_pos as HW.
            replace (2 ^ k * 4503599627370496 * decimal_unit)
              with (2 ^ k * decimal_unit * 4503599627370496) in Hbig by ring.
            set (g := 2 ^ k * decimal_unit) in *. clearbody g.
            set (s0 := decimal_step E0) in *. clearbody s0.
            set (sm := decimal_step (E0 - 1)) in *. clearbody sm.
            lia. }
        set (s0 := decimal_step E0) in *. clearbody s0.
        set (sm := decimal_step (E0 - 1)) in *. clearbody sm.
        split; [lia|].
        rewrite (round_ne_div_within Vy sm 10000000) by (lia || reflexivity).
        reflexivity.
    + (* the digits of [x] are inside the decade *)
      exists E0. split; [lia|].
      set (s0 := decimal_step E0) in *. clearbody s0.
      assert (H1 : 1000001 * s0 <= R * s0) by nia.
      assert (H2 : R * s0 <= 9999999 * s0) by nia.
      rewrite <- HQ in *. split; [lia|].
      assert (HyR : round_ne_div Vy s0 = R).
      { destruct (Z.eq_dec (2 * Z.abs (R * s0 - Vy)) s0) as [Ht|Ht].
        - apply round_ne_div_even; [assumption|assumption|].
          apply Htie. rewrite <- HQ in *. lia.
        - apply round_ne_div_strict; [assumption|]. rewrite <- HQ. lia. }
      rewrite HyR. destruct (Z.eqb_spec R 10000000); [contradiction|reflexivity].
Qed.

(** ** Floats and written decimals on the scale *)

Lemma magnitude_units m e :
  -1074 <= e ->
  let '(n, d) := magnitude_fraction m e in
  n * float_unit = Zpos m * 2 ^ (e + 1074) * d.
Proof.
  intros He. unfold magnitude_fraction.
  destruct (Z.leb_spec 0 e).
  - assert (Hp : 2 ^ (e + 1074) = 2 ^ e * float_unit)
      by (unfold float_unit; apply Z.pow_add_r; lia).
    rewrite Hp. ring.
  - assert (Hp : float_unit = 2 ^ (e + 1074) * 2 ^ (- e)).
    { unfold float_unit. rewrite <- Z.pow_add_r by lia. f_equal. lia. }
    rewrite Hp. ring.
Qed.

Lemma written_on_scale D E :
  -325 <= E ->
  let '(n', d') := written_fraction D E in
  0 < d' /\ n' * float_unit * decimal_unit = D * decimal_step E * d'.
Proof.
  intros HE. unfold written_fraction, decimal_step.
  destruct (Z.leb_spec 0 (E - 6)).
  - split; [lia|].
    assert (Hp : 10 ^ (E + 325) = 10 ^ (E - 6) * decimal_unit).
    { unfold decimal_unit. rewrite <- pow10_add by lia. f_equal. lia. }
    rewrite Hp. ring.
  - split; [apply pow10_pos; lia|].
    assert (Hp : decimal_unit = 10 ^ (E + 325) * 10 ^ (6 - E)).
    { unfold decimal_unit. rewrite <- pow10_add by lia. f_equal. lia. }
    rewrite Hp. ring.
Qed.

(** What [round_pos] does, in units of [2^-1074]: the quotient is rounded
    to a multiple of [2^k], which is 1 for the small floats and leaves 53
    bits otherwise. *)
Lemma round_pos_units n d :
  0 < n -> 0 < d ->
  let '(m, e) := round_pos n d in
  let k := e + 1074 in
  0 <= k /\
  2 * Z.abs (m * 2 ^ k * d - n * float_unit) <= d * 2 ^ k /\
  (k = 0 \/ d * 2 ^ (k + 52) <= n * float_unit) /\
  (k = 0 -> m = round_ne_div (n * float_unit) d).
Proof.
  intros Hn Hd. unfold round_pos. change (2 ^ 1074) with float_unit.
  pose proof float_unit_pos as HT.
  assert (Hn' : 0 < n * float_unit) by (apply Z.mul_pos_pos; assumption).
  set (n' := n * float_unit) in *. clearbody n'.
  pose proof (floor_log2_ratio_spec n' d Hn' Hd) as (Hc & _). cbv zeta in Hc.
  set (c := floor_log2_ratio n' d) in *. clearbody c.
  cbv zeta.
  set (k := Z.max (c - 52) 0).
  replace (k - 1074 + 1074) with k by lia.
  assert (Hk : 0 <= k) by lia.
  assert (Hpk : 0 < 2 ^ k) by (apply Z.pow_pos_nonneg; lia).
  split; [assumption|]. split; [|split].
  - pose proof (round_ne_div_half n' (d * 2 ^ k) ltac:(nia)) as Hh.
    replace (round_ne_div n' (d * 2 ^ k) * 2 ^ k * d)
      with (round_ne_div n' (d * 2 ^ k) * (d * 2 ^ k)) by ring.
    assumption.
  - destruct (Z.eq_dec k 0) as [|Hne]; [left; assumption|right].
    assert (Ek : k + 52 = c) by lia. rewrite Ek.
    apply Hc. lia.
  - intros Ek. rewrite Ek. change (2 ^ 0) with 1. rewrite Z.mul_1_r. reflexivity.
Qed.

(** A finite float packed from a mantissa, in units of [2^-1074]. *)
Lemma make_float_finite_form s m e :
  0 < m -> -1074 <= e ->
  is_finite (make_float s m e) = true ->
  exists m' e',
    make_float s m e = S754_finite s m' e' /\ -1074 <= e' /\
    Zpos m' * 2 ^ (e' + 1074) = m * 2 ^ (e + 1074).
Proof.
  intros Hm He. unfold make_float.
  destruct (Z.eqb_spec m 0); [lia|].
  destruct (Z.eqb_spec m (2 ^ 53)) as [E|_].
  - destruct (971 <? e + 1); [discriminate|]. intros _.
    exists (Z.to_pos (2 ^ 52)), (e + 1). split; [reflexivity|]. split; [lia|].
    rewrite E. replace (e + 1 + 1074) with (1 + (e + 1074)) by lia.
    rewrite Z.pow_add_r by lia.
    change (Z.pos (Z.to_pos (2 ^ 52)) * (2 ^ 1 * 2 ^ (e + 1074)))
      with (4503599627370496 * (2 * 2 ^ (e + 1074))).
    change (2 ^ 53) with 9007199254740992. ring.
  - destruct (971 <? e); [discriminate|]. intros _.
    exists (Z.to_pos m), e. split; [reflexivity|]. split; [lia|].
    rewrite Z2Pos.id by assumption. reflexivity.
Qed.

(** Differences move between the two scales. *)
Lemma abs_on_scale x nT Q d W :
  0 < d -> 0 < W -> nT * W = Q * d ->
  Z.abs (x * W - Q) * d = Z.abs (x * d - nT) * W.
Proof.
  intros Hd HW H.
  rewrite <- (Z.abs_eq d) at 1 by lia. rewrite <- (Z.abs_eq W) at 2 by lia.
  rewrite <- !Z.abs_mul. f_equal.
  rewrite !Z.mul_sub_distr_r, H. ring.
Qed.

(** ** Writing again what was read *)

(** The float read back from the seven digits of a float has the same
    seven digits and the same decimal exponent. *)
Lemma read_back_digits s m e :
  valid (S754_finite s m e) = true ->
  exists m' e',
    read_back s m e = S754_finite s m' e' /\
    (let '(n, d) := magnitude_fraction m' e' in decimal_round n d)
    = (let '(n, d) := magnitude_fraction m e in decimal_round n d).
Proof.
  intros Hv.
  pose proof (valid_finite_bounds s m e Hv) as (Hm & He).
  pose proof (magnitude_fraction_pos m e) as Hpos.
  pose proof (magnitude_units m e ltac:(lia)) as Hu.
  pose proof (magnitude_fraction_max s m e Hv) as Hmax.
  pose proof (valid_representable _ Hv) as Hrep. cbn [ulps] in Hrep.
  unfold read_back.
  destruct (magnitude_fraction m e) as [n d]. destruct Hpos as (Hn & Hd).
  assert (Hax : 0 < Zpos m * 2 ^ (e + 1074))
    by (apply Z.mul_pos_pos; [lia|apply Z.pow_pos_nonneg; lia]).
  replace (Z.abs ((if s then -1 else 1) * (Z.pos m * 2 ^ (e + 1074))))
    with (Z.pos m * 2 ^ (e + 1074)) in Hrep by (destruct s; lia).
  set (ax := Zpos m * 2 ^ (e + 1074)) in *. clearbody ax.
  pose proof (decade_on_scale n d ax Hn Hd Hax Hu) as (Hdec & Hraw).
  pose proof (ilog10_least n d ax Hn Hd Hax Hu) as HE0.
  pose proof (written_below_overflow n d Hn Hd Hmax) as Hov.
  pose proof (decimal_round_digits n d Hn Hd) as Hdig.
  pose proof (decimal_round_raw n d) as Hdr.
  cbv zeta in Hdec, Hraw.
  set (E0 := ilog10 n d) in *. clearbody E0.
  set (R := raw_digits n d) in *. clearbody R.
  destruct (decimal_round n d) as [D E].
  pose proof (decimal_step_pos E0 ltac:(lia)) as Hs0.
  assert (HQ : D * decimal_step E = R * decimal_step E0 /\ -325 <= E).
  { destruct (Z.eqb_spec R (10 ^ 7)) as [HR|HR];
      pose proof (f_equal fst Hdr) as HD; pose proof (f_equal snd Hdr) as HE;
      cbn [fst snd] in HD, HE; subst D E.
    - rewrite decimal_step_next by lia. rewrite HR. split; [|lia].
      change (10 ^ 7) with (10 ^ 6 * 10). ring.
    - split; [reflexivity|lia]. }
  destruct HQ as (HQ & HE).
  pose proof (written_on_scale D E HE) as Hw.
  destruct (written_fraction D E) as [n' d']. destruct Hw as (Hd' & Hw).
  rewrite HQ in Hw. clear HQ.
  pose proof float_unit_pos as HT. pose proof decimal_unit_pos as HW.
  assert (HR : 10 ^ 6 <= R).
  { rewrite Hraw. apply round_ne_div_ge; [assumption|apply Hdec]. }
  assert (Hn' : 0 < n').
  { assert (0 < R * decimal_step E0 * d')
      by (repeat apply Z.mul_pos_pos; try assumption; change (10 ^ 6) with 1000000 in HR; lia).
    assert (0 < float_unit * decimal_unit) by (apply Z.mul_pos_pos; assumption).
    rewrite <- Hw, <- Z.mul_assoc in H.
    destruct (Z_lt_le_dec 0 n') as [|Hle]; [assumption|exfalso].
    set (TW := float_unit * decimal_unit) in *. clearbody TW. nia. }
  assert (Hfin : is_finite (round_binary64 s n' d') = true)
    by (apply round_binary64_finite; [lia|assumption|assumption]).
  pose proof (round_pos_units n' d' Hn' Hd') as Hrp.
  pose proof (round_pos_nearest n' d' ax Hn' Hd' Hrep) as Hnear.
  change (2 ^ 1074) with float_unit in Hnear.
  unfold round_binary64 in *. destruct (Z.eqb_spec n' 0) as [|_]; [lia|].
  destruct (round_pos n' d') as [my ey]. cbv zeta in Hrp.
  destruct Hrp as (Hk & Herr & Hbig & Hsub).
  set (k := ey + 1074) in *.
  assert (Hpk : 0 < 2 ^ k) by (apply Z.pow_pos_nonneg; assumption).
  set (ay := my * 2 ^ k) in *.
  set (Q := R * decimal_step E0) in *.
  pose proof (abs_on_scale ay (n' * float_unit) Q d' decimal_unit Hd' HW Hw) as Hay.
  pose proof (abs_on_scale ax (n' * float_unit) Q d' decimal_unit Hd' HW Hw) as Hax'.
  pose proof (stable_digits E0 ax ay Q k HE0 Hax) as Hst. cbv zeta in Hst.
  destruct Hst as (E1 & HE1 & Hy & Hpair).
  - exact Hdec.
  - unfold Q. rewrite Hraw. reflexivity.
  - unfold on_decimal_scale.
    apply (Z.mul_le_mono_pos_r _ _ d' Hd'). rewrite Hay, Hax'.
    apply Z.mul_le_mono_nonneg_r; [lia|exact Hnear].
  - exact Hk.
  - unfold on_decimal_scale.
    apply (Z.mul_le_mono_pos_r _ _ d' Hd').
    rewrite <- Z.mul_assoc, Hay.
    replace (2 ^ k * decimal_unit * d') with (d' * 2 ^ k * decimal_unit) by ring.
    rewrite Z.mul_assoc. apply Z.mul_le_mono_nonneg_r; [lia|exact Herr].
  - destruct Hbig as [Hk0|Hbig]; [left; exact Hk0|right].
    apply (Z.mul_le_mono_pos_r _ _ d' Hd'). rewrite <- Hw.
    replace (2 ^ (k + 52) * decimal_unit * d') with (d' * 2 ^ (k + 52) * decimal_unit) by ring.
    apply Z.mul_le_mono_nonneg_r; [lia|exact Hbig].
  - intros Hk0. specialize (Hsub Hk0). unfold ay. rewrite Hk0.
    change (2 ^ 0) with 1. rewrite Z.mul_1_r, Hsub.
    rewrite <- (round_ne_div_scale (n' * float_unit) d' decimal_unit) by assumption.
    rewrite Hw. rewrite (Z.mul_comm d' decimal_unit).
    apply round_ne_div_scale; assumption.
  - (* the float read back, and its digits *)
    pose proof (decimal_step_pos E1 HE1) as Hs1.
    assert (Hay0 : 0 < ay).
    { unfold on_decimal_scale in Hy. change (10 ^ 6) with 1000000 in Hy.
      destruct (Z_lt_le_dec 0 ay) as [|Hle]; [assumption|exfalso].
      clear - Hy Hle HW Hs1.
      set (W := decimal_unit) in *. clearbody W.
      set (s1 := decimal_step E1) in *. clearbody s1. nia. }
    assert (Hmy : 0 < my).
    { destruct (Z_lt_le_dec 0 my) as [|Hle]; [assumption|exfalso].
      unfold ay in Hay0. clear - Hay0 Hle Hpk. nia. }
    destruct (make_float_finite_form s my ey Hmy ltac:(lia) Hfin)
      as (m' & e' & Hform & He' & Hval).
    exists m', e'. split; [exact Hform|].
    pose proof (magnitude_fraction_pos m' e') as Hposy.
    pose proof (magnitude_units m' e' He') as Huy.
    destruct (magnitude_fraction m' e') as [ny dy]. destruct Hposy as (Hny & Hdy).
    fold k in Hval. fold ay in Hval. rewrite Hval in Huy.
    pose proof (decade_unique ny dy ay E1 Hny Hdy Hay0 Huy HE1 Hy) as HEy.
    pose proof (decade_on_scale ny dy ay Hny Hdy Hay0 Huy) as (_ & Hrawy).
    cbv zeta in Hrawy. rewrite HEy in Hrawy.
    rewrite (decimal_round_raw ny dy), HEy, Hrawy, Hpair, <- Hraw.
    symmetry. exact Hdr.
Qed.

Lemma format_e_read_back s m e :
  valid (S754_finite s m e) = true ->
  format_e (read_back s m e) = format_e (S754_finite s m e).
Proof.
  intros Hv. destruct (read_back_digits s m e Hv) as (m' & e' & -> & Hd).
  rewrite !format_e_finite.
  destruct (magnitude_fraction m' e') as [ny dy], (magnitude_fraction m e) as [n d].
  rewrite Hd. reflexivity.
Qed.

Lemma float_of_str_finite s m e :
  float_of_str (format_e (S754_finite s m e)) = Ok (read_back s m e).
Proof.
  rewrite format_e_finite. unfold read_back.
  pose proof (magnitude_fraction_pos m e) as Hpos.
  destruct (magnitude_fraction m e) as [n d]. destruct Hpos as (Hn & Hd).
  pose proof (decimal_round_digits n d Hn Hd) as HD.
  destruct (decimal_round n d) as [D E].
  apply float_of_str_written. assumption.
Qed.

(** What [float] reads from the text of a float is written as that text
    again: seven digits lose most of a float, but nothing more is lost
    the second time. *)
Theorem format_e_stable x y :
  valid x = true -> float_of_str (format_e x) = Ok y -> format_e y = format_e x.
Proof.
  intros Hv Hy. destruct x as [s|s| |s m e].
  - destruct s; vm_compute in Hy; injection Hy as <-; reflexivity.
  - destruct s; vm_compute in Hy; injection Hy as <-; reflexivity.
  - vm_compute in Hy. injection Hy as <-. reflexivity.
  - rewrite float_of_str_finite in Hy. injection Hy as <-.
    apply format_e_read_back. assumption.
Qed.

End StableDigitsProofs.

(* ===================================================================== *)
(** * Part XXII. More on noise_dosage/generate.py: writing again *)
(* ===================================================================== *)

Module RewriteProofs.
Import Py PyStr PyFloat NoiseDosageModel PyStrProofs PyFloatProofs.
Import InstanceFileProofs StableDigitsProofs.

Local Open Scope Z_scope.

Lemma mapM_float_stable l :
  Forall (fun x => valid x = true) l ->
  exists l', mapM float_of_str (map format_e l) = Ok l' /\
             map format_e l' = map format_e l.
Proof.
  induction 1 as [|x l Hx _ (l' & IH & Hsame)].
  - exists []. split; reflexivity.
  - destruct (float_of_str_format_e x Hx) as (y & Hy & _).
    exists (y :: l'). cbn [map mapM]. rewrite Hy. cbn [bind]. rewrite IH.
    split; [reflexivity|].
    rewrite (format_e_stable x y Hx Hy), Hsame. reflexivity.
Qed.

(** What [read_noise_dosage] makes of a written instance: the integers as
    they were, the floats as [float] reads their seven digits. *)
Lemma read_written_instance name stem m n alpha d t total_hours alpha' t' :
  Z.of_nat (length alpha) = m -> Z.of_nat (length d) = m ->
  Z.of_nat (length t) = m ->
  mapM float_of_str (map format_e alpha) = Ok alpha' ->
  mapM float_of_str (map format_e t) = Ok t' ->
  length alpha' = length alpha -> length t' = length t ->
  read_noise_dosage stem
    (write (mkNoiseDosage name m n alpha d t total_hours) EmptyString)
  = Ok (mkNoiseDosage stem m n alpha' d t' total_hours).
Proof.
  intros Hlalpha Hld Hlt Halpha Ht Hla Hlt'.
  unfold read_noise_dosage. rewrite write_text.
  cbn [NoiseDosageModel.m NoiseDosageModel.n NoiseDosageModel.alpha
       NoiseDosageModel.d NoiseDosageModel.t NoiseDosageModel.total_hours].
  rewrite readlines_text.
  2:{ repeat constructor; apply join_no_break;
        try apply tokens_of_ints; try apply tokens_of_floats;
        repeat constructor; apply str_of_int_token. }
  cbn [map index nth_error bind].
  change (String newline EmptyString) with os_linesep.
  rewrite (fields_of_written_line [str_of_int m; str_of_int n])
    by (repeat constructor; apply str_of_int_token).
  cbn [unpack2]. rewrite !int_of_str_of_int. cbn [bind].
  rewrite (fields_of_written_line _ (tokens_of_floats alpha)), Halpha. cbn [bind].
  rewrite (fields_of_written_line _ (tokens_of_ints d)), mapM_int_of_str. cbn [bind].
  rewrite (fields_of_written_line _ (tokens_of_floats t)), Ht. cbn [bind].
  cbn [join String.concat]. unfold os_linesep.
  rewrite (strip_token_blank _ newline (str_of_int_token total_hours) eq_refl).
  rewrite int_of_str_of_int. cbn [bind].
  rewrite NoiseDosageProofs.NoiseDosage_init_spec. unfold len_is.
  rewrite Hla, Hlt', Hlalpha, Hld, Hlt, Z.eqb_refl. reflexivity.
Qed.

(** Property X13. An instance of binary64 floats that was written with
    [NoiseDosage.write] and read back with [read_noise_dosage] is written
    again as the same text, character for character: the seven digits
    written for a float are also the seven digits of the float read from
    them. *)
Theorem written_again_unchanged name m n alpha d t total_hours inst stem fh :
  Forall (fun x => valid x = true) alpha ->
  Forall (fun x => valid x = true) t ->
  NoiseDosage_init name m n alpha d t total_hours = Ok inst ->
  exists inst',
    read_noise_dosage stem (write inst EmptyString) = Ok inst' /\
    write inst' fh = write inst fh.
Proof.
  intros Hvalpha Hvt Hinit.
  apply NoiseDosageProofs.NoiseDosage_init_ok in Hinit.
  destruct Hinit as (-> & Hlalpha & Hld & Hlt).
  destruct (mapM_float_stable alpha Hvalpha) as (alpha' & Halpha & Hsa).
  destruct (mapM_float_stable t Hvt) as (t' & Ht & Hst).
  exists (mkNoiseDosage stem m n alpha' d t' total_hours). split.
  - apply read_written_instance; try assumption.
    + rewrite <- (length_map format_e alpha'), Hsa. apply length_map.
    + rewrite <- (length_map format_e t'), Hst. apply length_map.
  - unfold write.
    cbn [NoiseDosageModel.m NoiseDosageModel.n NoiseDosageModel.alpha
         NoiseDosageModel.d NoiseDosageModel.t NoiseDosageModel.total_hours].
    rewrite Hsa, Hst. reflexivity.
Qed.

Lemma written_again_unchanged_witness :
  let inst := mkNoiseDosage "noise2_3" 2 3 [float_one; float_fifth] [4; 7]
                            [float_half; float_two] 480 in
  exists inst',
    read_noise_dosage "noise2_3" (write inst EmptyString) = Ok inst' /\
    write inst' EmptyString = write inst EmptyString.
Proof.
  intros inst.
  apply (written_again_unchanged "noise2_3" 2 3 [float_one; float_fifth] [4; 7]
           [float_half; float_two] 480 inst "noise2_3" EmptyString).
  - repeat constructor.
  - repeat constructor.
  - reflexivity.
Defined.

End RewriteProofs.
